(** * GriddedPSFModel: a shallow embedding of photutils/psf/griddedpsfmodel.py

    Numbers are exact rationals ([Q]): every finite Python float is a
    rational, comparisons and [int()] are exact on it, and the arithmetic
    of the model is the real-number arithmetic the code approximates.
    Arrays are lists; a 2D image is a list of rows.  A Python exception is
    a value of [exn] carried by [result].  Where rounding matters, the
    module [Binary64] gives the blend over binary64 floats. *)

From Stdlib Require Import QArith Qround ZArith List Bool Lia Lqa.
From Stdlib Require Import Permutation Sorted.
From Stdlib Require PrimFloat.
Import ListNotations.
Open Scope Q_scope.

(** ** Python and numpy primitives used by the module *)

Module Py.

Inductive exn : Type :=
| ValueError
| IndexError
| TypeError.

Inductive result (A : Type) : Type :=
| Ok (a : A)
| Raise (e : exn).
Arguments Ok {A} a.
Arguments Raise {A} e.

Definition bind {A B} (r : result A) (k : A -> result B) : result B :=
  match r with
  | Ok a => k a
  | Raise e => Raise e
  end.

Notation "'let*' x ':=' r 'in' k" := (bind r (fun x => k))
  (at level 10, x pattern, r at level 100, k at level 200).

(** A value that is either a Python/numpy scalar or a 1D array. *)
Inductive value : Type :=
| Scalar (q : Q)
| Array (l : list Q).

(** [np.isscalar(v)] *)
Definition isscalar (v : value) : bool :=
  match v with
  | Scalar _ => true
  | Array _ => false
  end.

(** [v[0]] on an array; an empty array has no element 0. *)
Definition getitem0 (l : list Q) : result Q :=
  match l with
  | a :: _ => Ok a
  | [] => Raise IndexError
  end.

(** [int(q)]: truncation toward zero. *)
Definition int (q : Q) : Z := Z.quot (Qnum q) (Zpos (Qden q)).

(** [l[i]] for a non-negative index. *)
Definition getitem {A} (l : list A) (i : nat) : result A :=
  match nth_error l i with
  | Some a => Ok a
  | None => Raise IndexError
  end.

(** [l[-1]] *)
Definition getlast {A} (l : list A) : result A :=
  match rev l with
  | a :: _ => Ok a
  | [] => Raise IndexError
  end.

(** [l[start:stop]] with Python's treatment of negative and
    out-of-range bounds. *)
Definition slice_bound (len : nat) (i : Z) : nat :=
  if (i <? 0)%Z then Z.to_nat (Z.max 0 (Z.of_nat len + i))
  else Nat.min len (Z.to_nat i).

Definition slice {A} (l : list A) (start stop : Z) : list A :=
  let a := slice_bound (length l) start in
  let b := slice_bound (length l) stop in
  firstn (b - a) (skipn a l).

(** [itertools.product(xs, ys)]: the last input varies fastest. *)
Definition product {A B} (xs : list A) (ys : list B) : list (A * B) :=
  flat_map (fun x => map (fun y => (x, y)) ys) xs.

(** Comparison of floats and of 2-tuples of floats. *)
Definition Qltb (a b : Q) : bool :=
  match a ?= b with Lt => true | _ => false end.

Definition tuple_leb (p q : Q * Q) : bool :=
  if Qeq_bool (fst p) (fst q) then Qle_bool (snd p) (snd q)
  else Qle_bool (fst p) (fst q).

(** [sorted(l, key=key)]: a stable sort, here insertion from the right;
    an element goes before the first one whose key is not smaller. *)
Section Sorting.
Context {A K : Type} (leb : K -> K -> bool) (key : A -> K).

Fixpoint insert (a : A) (l : list A) : list A :=
  match l with
  | [] => [a]
  | b :: l' => if leb (key a) (key b) then a :: l else b :: insert a l'
  end.

Definition sorted (l : list A) : list A := fold_right insert [] l.

(** The order of the keys, and its strict part. *)
Definition key_le (a b : A) : Prop := leb (key a) (key b) = true.

Definition key_lt (a b : A) : Prop :=
  leb (key a) (key b) = true /\ leb (key b) (key a) = false.

End Sorting.

(** [np.argsort(keys)]: the indices of [keys] in ascending key order.
    numpy leaves the order among equal keys open; here the earlier index
    comes first. *)
Definition argsort (keys : list Q) : list nat :=
  sorted Qle_bool (fun i => nth i keys 0) (seq 0 (length keys)).

(** [np.searchsorted(data, x)] (side left) on an ascending array:
    the number of leading elements smaller than [x]. *)
Fixpoint searchsorted (data : list Q) (x : Q) : nat :=
  match data with
  | [] => O
  | d :: data' => if Qltb d x then S (searchsorted data' x) else O
  end.

(** [np.unique(l)]: the distinct values in ascending order. *)
Fixpoint insert_unique (a : Q) (l : list Q) : list Q :=
  match l with
  | [] => [a]
  | b :: l' =>
      if Qeq_bool a b then l
      else if Qle_bool a b then a :: l
      else b :: insert_unique a l'
  end.

Definition unique (l : list Q) : list Q := fold_right insert_unique [] l.

(** [np.hypot] is increasing in the sum of squares, which is what
    [argsort] orders by; the root itself is not rational. *)
Definition hypot2 (dx dy : Q) : Q := dx * dx + dy * dy.

End Py.
Import Py.

(** ** Arrays of images *)

Definition image : Type := list (list Q).

Definition pixel (a : image) (r c : nat) : Q := nth c (nth r a []) 0.

Definition has_shape (h w : nat) (a : image) : Prop :=
  length a = h /\ Forall (fun row => length row = w) a.

Definition zip_with {A B C} (f : A -> B -> C) (l : list A) (l' : list B)
  : list C :=
  map (fun p => f (fst p) (snd p)) (combine l l').

(** [a * w] and [a / n] for a scalar, [a + b] pixel by pixel. *)
Definition img_scale (a : image) (w : Q) : image :=
  map (map (fun p => p * w)) a.

Definition img_div (a : image) (n : Q) : image :=
  map (map (fun p => p / n)) a.

Definition img_add (a b : image) : image := zip_with (zip_with Qplus) a b.

(** [np.sum(stack, axis=0)] *)
Definition sum_axis0 (stack : list image) : image :=
  match stack with
  | [] => []
  | a :: rest => fold_left img_add rest a
  end.

(** [a.T] for an image with [w] columns. *)
Definition transpose (w : nat) (a : image) : image :=
  map (fun c => map (fun row => nth c row 0) a) (seq 0 w).

(** [arr[indices]] with a list of indices. *)
Fixpoint take {A} (l : list A) (indices : list nat) : result (list A) :=
  match indices with
  | [] => Ok []
  | i :: rest =>
      let* a := getitem l i in
      let* tl := take l rest in
      Ok (a :: tl)
  end.

(** ** Static methods of GriddedPSFModel *)

(** [_find_start_idx(data, x)] *)
Definition _find_start_idx (data : list Q) (x : Q) : Z :=
  let idx := searchsorted data x in
  if Nat.eqb idx 0 then 0%Z
  else if Nat.eqb idx (length data) then (Z.of_nat idx - 2)%Z
  else (Z.of_nat idx - 1)%Z.

(** [xi = xi[0]] unless [xi] is a scalar. *)
Definition scalar_of (v : value) : result Q :=
  match v with
  | Scalar q => Ok q
  | Array l => getitem0 l
  end.

(** [_bilinear_interp(xyref, zref, xi, yi)] *)
Definition _bilinear_interp (xyref : list (Q * Q)) (zref : list image)
    (xi yi : value) : result image :=
  let idx :=
    sorted tuple_leb (fun i => nth i xyref (0, 0)) (seq 0 (length xyref)) in
  let xyref := sorted tuple_leb (fun p => p) xyref in
  match xyref with
  | [(x0, y0); (_x0, y1); (x1, _y0); (_x1, _y1)] =>
      if negb (Qeq_bool x0 _x0) || negb (Qeq_bool x1 _x1)
         || negb (Qeq_bool y0 _y0) || negb (Qeq_bool y1 _y1)
      then Raise ValueError
      else
        let* xi := scalar_of xi in
        let* yi := scalar_of yi in
        if negb (Qle_bool x0 xi && Qle_bool xi x1)
           || negb (Qle_bool y0 yi && Qle_bool yi y1)
        then Raise ValueError
        else
          let* data := take zref idx in
          let weights := [(x1 - xi) * (y1 - yi); (x1 - xi) * (yi - y0);
                          (xi - x0) * (y1 - yi); (xi - x0) * (yi - y0)] in
          let norm := (x1 - x0) * (y1 - y0) in
          Ok (img_div (sum_axis0 (zip_with img_scale data weights)) norm)
  | _ => Raise ValueError
  end.

(** ** The blend in binary64

    [_bilinear_interp] once more, with numpy's float64 in place of the
    exact rationals: every difference, product, sum and quotient is
    rounded to the nearest double.  [np.sum(..., axis=0)] adds the four
    weighted images in index order, starting from the first. *)
Module Binary64.
Import PrimFloat.

Definition image : Type := list (list float).

Inductive value : Type :=
| Scalar (f : float)
| Array (l : list float).

Definition getitem0 (l : list float) : result float :=
  match l with
  | a :: _ => Ok a
  | [] => Raise IndexError
  end.

Definition scalar_of (v : value) : result float :=
  match v with
  | Scalar f => Ok f
  | Array l => getitem0 l
  end.

(** [p <= q] on tuples of two floats. *)
Definition tuple_leb (p q : float * float) : bool :=
  if eqb (fst p) (fst q) then leb (snd p) (snd q)
  else leb (fst p) (fst q).

Definition img_scale (a : image) (w : float) : image :=
  map (map (fun p => mul p w)) a.

Definition img_div (a : image) (n : float) : image :=
  map (map (fun p => div p n)) a.

Definition img_add (a b : image) : image := zip_with (zip_with add) a b.

Definition sum_axis0 (stack : list image) : image :=
  match stack with
  | [] => []
  | a :: rest => fold_left img_add rest a
  end.


(** [_bilinear_interp(xyref, zref, xi, yi)] *)
Definition _bilinear_interp (xyref : list (float * float))
    (zref : list image) (xi yi : value) : result image :=
  let idx :=
    sorted tuple_leb (fun i => nth i xyref (zero, zero))
      (seq 0 (length xyref)) in
  let xyref := sorted tuple_leb (fun p => p) xyref in
  match xyref with
  | [(x0, y0); (_x0, y1); (x1, _y0); (_x1, _y1)] =>
      if negb (eqb x0 _x0) || negb (eqb x1 _x1)
         || negb (eqb y0 _y0) || negb (eqb y1 _y1)
      then Raise ValueError
      else
        let* xi := scalar_of xi in
        let* yi := scalar_of yi in
        if negb (leb x0 xi && leb xi x1)
           || negb (leb y0 yi && leb yi y1)
        then Raise ValueError
        else
          let* data := take zref idx in
          let weights :=
            [mul (sub x1 xi) (sub y1 yi); mul (sub x1 xi) (sub yi y0);
             mul (sub xi x0) (sub y1 yi); mul (sub xi x0) (sub yi y0)] in
          let norm := mul (sub x1 x0) (sub y1 y0) in
          Ok (img_div (sum_axis0 (zip_with img_scale data weights)) norm)
  | _ => Raise ValueError
  end.

End Binary64.

(** ** The memoising wrapper around the interpolator *)

Module LruCache.

(** Modelled from the spec: [functools.lru_cache] is not part of the
    module's source.  This is the bounded mapping of the data model: keys
    are integer cells, a hit returns the stored value and makes its entry
    the most recent, a miss computes the value, stores it, and evicts the
    least recently used entry once [maxsize] entries are present.  A
    computation that raises stores nothing.  [entries] is ordered from the
    most to the least recently used; [hits] and [misses] are the counters
    reported by [cache_info]. *)
Record t (V : Type) : Type := mk {
  entries : list ((Z * Z) * V);
  hits : nat;
  misses : nat;
  maxsize : nat
}.
Arguments mk {V}.
Arguments entries {V}.
Arguments hits {V}.
Arguments misses {V}.
Arguments maxsize {V}.

Definition key_eqb (k k' : Z * Z) : bool :=
  Z.eqb (fst k) (fst k') && Z.eqb (snd k) (snd k').

Fixpoint lookup {V} (k : Z * Z) (l : list ((Z * Z) * V)) : option V :=
  match l with
  | [] => None
  | (k', v) :: l' => if key_eqb k k' then Some v else lookup k l'
  end.

Fixpoint remove {V} (k : Z * Z) (l : list ((Z * Z) * V))
  : list ((Z * Z) * V) :=
  match l with
  | [] => []
  | (k', v) :: l' => if key_eqb k k' then l' else (k', v) :: remove k l'
  end.

(** Modelled from the spec: the empty cache, as [lru_cache(maxsize=n)]
    and [cache_clear] leave it. *)
Definition empty {V} (n : nat) : t V := mk [] 0 0 n.

Definition cache_clear {V} (c : t V) : t V := empty (maxsize c).

(** Modelled from the spec: one call of the wrapped function. *)
Definition call {V} (f : Z * Z -> result V) (k : Z * Z) (c : t V)
  : result V * t V :=
  match lookup k (entries c) with
  | Some v =>
      (Ok v, mk ((k, v) :: remove k (entries c))
                (S (hits c)) (misses c) (maxsize c))
  | None =>
      match f k with
      | Raise e =>
          (Raise e, mk (entries c) (hits c) (S (misses c)) (maxsize c))
      | Ok v =>
          let kept :=
            if Nat.eqb (maxsize c) 0 then []
            else if Nat.leb (maxsize c) (length (entries c))
            then (k, v) :: removelast (entries c)
            else (k, v) :: entries c in
          (Ok v, mk kept (hits c) (S (misses c)) (maxsize c))
      end
  end.

(** Modelled from the spec: the diagnostics [cache_info()] reports:
    hits, misses, capacity and current size. *)
Definition cache_info {V} (c : t V) : nat * nat * nat * nat :=
  (hits c, misses c, maxsize c, length (entries c)).

End LruCache.

(** ** The spline library *)

(** [scipy.interpolate.RectBivariateSpline(x, y, z, kx=3, ky=3, s=0)] and
    its point evaluation [ev] are external numerics: the model takes them
    as an interface. *)
Class SplineLib : Type := {
  surface : Type;
  RectBivariateSpline : list Q -> list Q -> image -> result surface;
  ev : surface -> Q -> Q -> Q
}.

(** numpy broadcasting of two 1D arrays. *)
Definition broadcast {A B} (xs : list A) (ys : list B)
  : result (list (A * B)) :=
  if Nat.eqb (length xs) (length ys) then Ok (combine xs ys)
  else
    match xs, ys with
    | [a], _ => Ok (map (fun y => (a, y)) ys)
    | _, [b] => Ok (map (fun x => (x, b)) xs)
    | _, _ => Raise ValueError
    end.

(** ** The input bundle *)

Record NDData : Type := {
  nd_data : list image;
  nd_ny : nat;
  nd_nx : nat;
  meta_grid_xypos : option (list (Q * Q));
  meta_oversampling : option value
}.

(** [_validate_data(data)]; the rank of [data.data] is fixed by its type. *)
Definition _validate_data (data : NDData) : result NDData :=
  match meta_grid_xypos data with
  | None => Raise ValueError
  | Some g =>
      if negb (Nat.eqb (length g) (length (nd_data data)))
      then Raise ValueError
      else
        match meta_oversampling data with
        | None => Raise ValueError
        | Some o => if negb (isscalar o) then Raise ValueError else Ok data
        end
  end.

(** [np.arange(n, dtype=float)] *)
Definition arange (n : nat) : list Q :=
  map (fun i => inject_Z (Z.of_nat i)) (seq 0 n).

(** ** The model *)

Section Model.
Context `{SplineLib}.

Record GriddedPSFModel : Type := {
  _data_input : NDData;
  data : list image;
  data_ny : nat;
  data_nx : nat;
  grid_xypos : list (Q * Q);
  oversampling : Q;
  fill_value : option Q;
  _grid_xpos : list Q;
  _grid_ypos : list Q;
  _xgrid : list Q;
  _ygrid : list Q;
  grid_shape : nat * nat;
  _xidx : list Q;
  _yidx : list Q;
  _calc_interpolator : LruCache.t surface;
  flux : Q;
  x_0 : Q;
  y_0 : Q
}.

(** The only assignment made after construction: the state of the
    memoising wrapper. *)
Definition with_cache (self : GriddedPSFModel) (c : LruCache.t surface)
  : GriddedPSFModel :=
  {| _data_input := _data_input self;
     data := data self;
     data_ny := data_ny self;
     data_nx := data_nx self;
     grid_xypos := grid_xypos self;
     oversampling := oversampling self;
     fill_value := fill_value self;
     _grid_xpos := _grid_xpos self;
     _grid_ypos := _grid_ypos self;
     _xgrid := _xgrid self;
     _ygrid := _ygrid self;
     grid_shape := grid_shape self;
     _xidx := _xidx self;
     _yidx := _yidx self;
     _calc_interpolator := c;
     flux := flux self;
     x_0 := x_0 self;
     y_0 := y_0 self |}.

(** The grid check of [__init__]. *)
Definition regular_grid_check (xypos : list (Q * Q)) : bool :=
  let xgrid := unique (map fst xypos) in
  let ygrid := unique (map snd xypos) in
  Nat.eqb (length (product xgrid ygrid)) (length xypos).

(** [GriddedPSFModel.__init__(data, flux=, x_0=, y_0=, fill_value=)] *)
Definition __init__ (nd : NDData) (flux0 x0 y0 : Q) (fill : option Q)
  : result GriddedPSFModel :=
  let* d := _validate_data nd in
  match meta_grid_xypos d, meta_oversampling d with
  | Some xypos, Some (Scalar os) =>
      match xypos with
      | [] => Raise ValueError
      | _ :: _ =>
          let xgrid := unique (map fst xypos) in
          let ygrid := unique (map snd xypos) in
          if negb (regular_grid_check xypos) then Raise ValueError
          else
            Ok {| _data_input := d;
                  data := nd_data d;
                  data_ny := nd_ny d;
                  data_nx := nd_nx d;
                  grid_xypos := xypos;
                  oversampling := os;
                  fill_value := fill;
                  _grid_xpos := map fst xypos;
                  _grid_ypos := map snd xypos;
                  _xgrid := xgrid;
                  _ygrid := ygrid;
                  grid_shape := (length ygrid, length xgrid);
                  _xidx := arange (nd_nx d);
                  _yidx := arange (nd_ny d);
                  _calc_interpolator := LruCache.empty 128;
                  flux := flux0;
                  x_0 := x0;
                  y_0 := y0 |}
      end
  | _, _ => Raise ValueError
  end.

(** [clear_cache()] *)
Definition clear_cache (self : GriddedPSFModel) : GriddedPSFModel :=
  with_cache self (LruCache.cache_clear (_calc_interpolator self)).

(** [np.argsort(np.hypot(self._grid_xpos - x, self._grid_ypos - y))[0]] *)
Definition nearest_index (self : GriddedPSFModel) (x y : Q) : result nat :=
  getitem
    (argsort (zip_with (fun gx gy => hypot2 (gx - x) (gy - y))
                (_grid_xpos self) (_grid_ypos self)))
    0.

Fixpoint nearest_indices (self : GriddedPSFModel) (pts : list (Q * Q))
  : result (list nat) :=
  match pts with
  | [] => Ok []
  | (xx, yy) :: rest =>
      let* i := nearest_index self xx yy in
      let* tl := nearest_indices self rest in
      Ok (i :: tl)
  end.

(** [_find_bounding_points(x, y)] *)
Definition _find_bounding_points (self : GriddedPSFModel) (x y : Q)
  : result (list nat) :=
  let x0 := _find_start_idx (_xgrid self) x in
  let y0 := _find_start_idx (_ygrid self) y in
  let xypoints := product (slice (_xgrid self) x0 (x0 + 2))
                          (slice (_ygrid self) y0 (y0 + 2)) in
  nearest_indices self xypoints.

(** The test of [_calc_interpolator_uncached], with the short-circuit
    order of Python's [or]. *)
Definition outside_grid (self : GriddedPSFModel) (x y : Q) : result bool :=
  let* xlo := getitem (_xgrid self) 0 in
  if Qltb x xlo then Ok true
  else
    let* xhi := getlast (_xgrid self) in
    if Qltb xhi x then Ok true
    else
      let* ylo := getitem (_ygrid self) 0 in
      if Qltb y ylo then Ok true
      else
        let* yhi := getlast (_ygrid self) in
        Ok (Qltb yhi y).

(** The local PSF image of [_calc_interpolator_uncached]. *)
Definition local_psf_image (self : GriddedPSFModel) (x y : Q)
  : result image :=
  let* out := outside_grid self x y in
  if out then
    let* ref_index := nearest_index self x y in
    getitem (data self) ref_index
  else
    let* ref_indices := _find_bounding_points self x y in
    let* xyref := take (grid_xypos self) ref_indices in
    let* psfs := take (data self) ref_indices in
    _bilinear_interp xyref psfs (Scalar x) (Scalar y).

(** [_calc_interpolator_uncached(x_0, y_0)]; the arguments are the
    Python ints the caller passes. *)
Definition _calc_interpolator_uncached (self : GriddedPSFModel)
    (k : Z * Z) : result surface :=
  let* psf_image :=
    local_psf_image self (inject_Z (fst k)) (inject_Z (snd k)) in
  RectBivariateSpline (_xidx self) (_yidx self)
    (transpose (data_nx self) psf_image).

(** [interpolator.ev(xi, yi)] on arrays. *)
Definition ev_array (s : surface) (xi yi : list Q) : result (list Q) :=
  let* pts := broadcast xi yi in
  Ok (map (fun p => ev s (fst p) (snd p)) pts).

(** [evaluated_model[invalid] = fill] *)
Definition mask_assign (vals : list Q) (invalid : list bool) (fill : Q)
  : list Q :=
  zip_with (fun v (b : bool) => if b then fill else v) vals invalid.

(** [evaluate(x, y, flux, x_0, y_0)]: the result and the model after
    the call. *)
Definition evaluate (self : GriddedPSFModel) (x y : list Q)
    (flux x_0 y_0 : value) : result (list Q) * GriddedPSFModel :=
  match scalar_of flux with
  | Raise e => (Raise e, self)
  | Ok flux =>
  match scalar_of x_0 with
  | Raise e => (Raise e, self)
  | Ok x_0 =>
  match scalar_of y_0 with
  | Raise e => (Raise e, self)
  | Ok y_0 =>
      let (r, c) :=
        LruCache.call (_calc_interpolator_uncached self)
          (int x_0, int y_0) (_calc_interpolator self) in
      let self' := with_cache self c in
      match r with
      | Raise e => (Raise e, self')
      | Ok interpolator =>
          let xi := map (fun v => oversampling self * (v - x_0)) x in
          let yi := map (fun v => oversampling self * (v - y_0)) y in
          let nx := inject_Z (Z.of_nat (data_nx self)) in
          let ny := inject_Z (Z.of_nat (data_ny self)) in
          let xi := map (fun v => v + (nx - 1) / 2) xi in
          let yi := map (fun v => v + (ny - 1) / 2) yi in
          (let* vals := ev_array interpolator xi yi in
           let evaluated_model := map (fun v => flux * v) vals in
           match fill_value self with
           | None => Ok evaluated_model
           | Some fill =>
               let bad_x :=
                 map (fun v => Qltb v 0 || Qltb (nx - 1) v) xi in
               let bad_y :=
                 map (fun v => Qltb v 0 || Qltb (ny - 1) v) yi in
               let* pairs := broadcast bad_x bad_y in
               let invalid := map (fun p => fst p || snd p) pairs in
               Ok (mask_assign evaluated_model invalid fill)
           end,
           self')
      end
  end end end.

(** [copy()]: a new model from the input bundle, with this model's
    parameter values and fill value. *)
Definition copy (self : GriddedPSFModel) : result GriddedPSFModel :=
  __init__ (_data_input self) (flux self) (x_0 self) (y_0 self)
    (fill_value self).

(** [_cache_info()] *)
Definition _cache_info (self : GriddedPSFModel) : nat * nat * nat * nat :=
  LruCache.cache_info (_calc_interpolator self).

End Model.

(** ** The reader of STScI standard-format PSF files

    The file is taken as already opened: the primary header, whose cards
    are looked up by name, and the data cube.  [NAXIS3] is the number of
    images of the cube. *)

Inductive reader_exn : Type :=
| ReaderPy (e : exn)
| ReaderKeyError
| ReaderNotImplementedError.

Inductive reader_result (A : Type) : Type :=
| Read (a : A)
| Fail (e : reader_exn).
Arguments Read {A} a.
Arguments Fail {A} e.

Definition reader_bind {A B} (r : reader_result A)
    (k : A -> reader_result B) : reader_result B :=
  match r with
  | Read a => k a
  | Fail e => Fail e
  end.

(** [NXPSFS], [NYPSFS]; the cards [IPSFXnn] and [JPSFYnn] by their
    number; the integers of the cards [IPSFXA5] and [JPSFYA5]. *)
Record StdpsfHeader : Type := {
  NXPSFS : nat;
  NYPSFS : nat;
  IPSFX : nat -> option Q;
  JPSFY : nat -> option Q;
  IPSFXA5 : option (list Q);
  JPSFYA5 : option (list Q)
}.

(** [[card(i) for i in range(1, n + 1)]]; a missing card is a KeyError. *)
Fixpoint read_cards (card : nat -> option Q) (numbers : list nat)
  : reader_result (list Q) :=
  match numbers with
  | [] => Read []
  | i :: rest =>
      match card i with
      | None => Fail ReaderKeyError
      | Some v => reader_bind (read_cards card rest)
                    (fun tl => Read (v :: tl))
      end
  end.

(** The axes as the header gives them, 1-indexed. *)
Definition stdpsf_axes (h : StdpsfHeader) : reader_result (list Q * list Q) :=
  match IPSFX h 1 with
  | Some _ =>
      reader_bind (read_cards (IPSFX h) (seq 1 (NXPSFS h))) (fun xgrid =>
      reader_bind (read_cards (JPSFY h) (seq 1 (NYPSFS h))) (fun ygrid =>
      Read (xgrid, ygrid)))
  | None =>
      match IPSFXA5 h with
      | Some xs =>
          match JPSFYA5 h with
          | Some ys => Read (xs ++ xs ++ xs ++ xs, ys ++ ys)
          | None => Fail ReaderKeyError
          end
      | None => Fail (ReaderPy ValueError)
      end
  end.

(** The rows of the grid and the images of one chip of a two-chip
    file. *)
Definition chip_rows (ygrid : list Q) (sci_exten : Z)
  : reader_result (list Q) :=
  if Nat.eqb (length ygrid mod 2) 0 then
    let half := (length ygrid / 2)%nat in
    if Z.eqb sci_exten 2
    then Read (map (fun v => v - (2048 # 1)) (firstn half (skipn half ygrid)))
    else Read (firstn half ygrid)
  else Fail (ReaderPy ValueError).

Definition chip_images (data : list image) (sci_exten : Z) : list image :=
  let half := (length data / 2)%nat in
  if Z.eqb sci_exten 2 then firstn half (skipn half data)
  else firstn half data.

(** The bundle [stdpsf_reader] hands to the constructor. *)
Definition stdpsf_bundle (h : StdpsfHeader) (data : list image)
    (data_ny data_nx : nat) (oversampling : value) (sci_exten : option Z)
  : reader_result NDData :=
  let npsfs := length data in
  reader_bind (stdpsf_axes h) (fun axes =>
  let xgrid := map (fun v => v - 1) (fst axes) in
  let ygrid := map (fun v => v - 1) (snd axes) in
  reader_bind
    (if Nat.eqb npsfs 90 || Nat.eqb npsfs 56 then
       match sci_exten with
       | None => Fail (ReaderPy ValueError)
       | Some e =>
           if negb (Z.eqb e 1 || Z.eqb e 2) then Fail (ReaderPy ValueError)
           else reader_bind (chip_rows ygrid e)
                  (fun rows => Read (rows, chip_images data e))
       end
     else Read (ygrid, data))
    (fun yd =>
       if Nat.eqb npsfs 36 then Fail ReaderNotImplementedError
       else if Nat.eqb npsfs 200 then Fail ReaderNotImplementedError
       else
         let xy_grid :=
           map (fun yx => (snd yx, fst yx)) (product (fst yd) xgrid) in
         Read {| nd_data := snd yd;
                 nd_ny := data_ny;
                 nd_nx := data_nx;
                 meta_grid_xypos := Some xy_grid;
                 meta_oversampling := Some oversampling |})).

Definition reader_of_py {A} (r : result A) : reader_result A :=
  match r with
  | Ok a => Read a
  | Raise e => Fail (ReaderPy e)
  end.

(** [stdpsf_reader]; [file_meta] is the outcome of [_get_metadata],
    which adds pass-through keys to the bundle or raises. *)
Definition stdpsf_reader `{SplineLib} (h : StdpsfHeader) (data : list image)
    (data_ny data_nx : nat) (oversampling : value) (sci_exten : option Z)
    (file_meta : reader_result unit) : reader_result GriddedPSFModel :=
  reader_bind
    (stdpsf_bundle h data data_ny data_nx oversampling sci_exten) (fun nd =>
  reader_bind file_meta (fun _ =>
  reader_of_py (__init__ nd 1 0 0 (Some 0)))).

(** ** A concrete spline library, to run the model

    The surface keeps the fitted array [z] (indexed [z[x][y]]) and
    evaluates to the sample at the integer part of the query. *)

Definition SampleSpline : SplineLib :=
  {| surface := image;
     RectBivariateSpline := fun _ _ z => Ok z;
     ev := fun s xi yi =>
             pixel s (Z.to_nat (Qfloor xi)) (Z.to_nat (Qfloor yi)) |}.

Definition const_image (h w : nat) (v : Q) : image := repeat (repeat v w) h.

(** The 2 x 2 grid of the scenario: corners of [0,10] x [0,10] with
    constant 3 x 3 images 1, 2, 3, 4. *)
Definition square_nddata : NDData :=
  {| nd_data := [const_image 3 3 1; const_image 3 3 2;
                 const_image 3 3 3; const_image 3 3 4];
     nd_ny := 3;
     nd_nx := 3;
     meta_grid_xypos := Some [(0, 0); (0, 10 # 1); (10 # 1, 0);
                              (10 # 1, 10 # 1)];
     meta_oversampling := Some (Scalar 1) |}.

(** A single column of two reference images at x = 0. *)
Definition column_nddata : NDData :=
  {| nd_data := [const_image 3 3 1; const_image 3 3 2];
     nd_ny := 3;
     nd_nx := 3;
     meta_grid_xypos := Some [(0, 0); (0, 10 # 1)];
     meta_oversampling := Some (Scalar 1) |}.

(** Four positions with two of them repeated and two corners absent. *)
Definition diagonal_nddata : NDData :=
  {| nd_data := [const_image 3 3 1; const_image 3 3 2;
                 const_image 3 3 3; const_image 3 3 4];
     nd_ny := 3;
     nd_nx := 3;
     meta_grid_xypos := Some [(0, 0); (0, 0); (1, 1); (1, 1)];
     meta_oversampling := Some (Scalar 1) |}.

(** The models [__init__] builds from these bundles, with flux 1 at
    (0, 0) and fill value -7. *)
Definition model_for `{SplineLib} (nd : NDData) (xypos : list (Q * Q))
    (xgrid ygrid : list Q) : GriddedPSFModel :=
  {| _data_input := nd;
     data := nd_data nd;
     data_ny := nd_ny nd;
     data_nx := nd_nx nd;
     grid_xypos := xypos;
     oversampling := 1;
     fill_value := Some (-7 # 1);
     _grid_xpos := map fst xypos;
     _grid_ypos := map snd xypos;
     _xgrid := xgrid;
     _ygrid := ygrid;
     grid_shape := (length ygrid, length xgrid);
     _xidx := arange (nd_nx nd);
     _yidx := arange (nd_ny nd);
     _calc_interpolator := LruCache.empty 128;
     flux := 1;
     x_0 := 0;
     y_0 := 0 |}.

Definition square_model : @GriddedPSFModel SampleSpline :=
  model_for square_nddata
    [(0, 0); (0, 10 # 1); (10 # 1, 0); (10 # 1, 10 # 1)]
    [0; 10 # 1] [0; 10 # 1].

Definition column_model : @GriddedPSFModel SampleSpline :=
  model_for column_nddata [(0, 0); (0, 10 # 1)] [0] [0; 10 # 1].

Definition diagonal_model : @GriddedPSFModel SampleSpline :=
  model_for diagonal_nddata [(0, 0); (0, 0); (1, 1); (1, 1)] [0; 1] [0; 1].

(** A two-chip header in the manner of WFC3/UVIS: 7 columns, 8 rows,
    56 images. *)
Definition uvis_xs : list Q := [1; 2; 3; 4; 5; 6; 7].
Definition uvis_ys : list Q :=
  [1; 2; 3; 4; 2049 # 1; 2050 # 1; 2051 # 1; 2052 # 1].

Definition uvis_header : StdpsfHeader :=
  {| NXPSFS := 7;
     NYPSFS := 8;
     IPSFX := fun i => nth_error uvis_xs (i - 1);
     JPSFY := fun i => nth_error uvis_ys (i - 1);
     IPSFXA5 := None;
     JPSFYA5 := None |}.

Definition uvis_cube : list image := repeat (const_image 1 1 1) 56.

(** ** Vocabulary of the statements *)

(** The four corners of the rectangle [x0,x1] x [y0,y1], each with the
    image that sits there, in the order (x, then y). *)
Definition corners (x0 y0 x1 y1 : Q) (i00 i01 i10 i11 : image)
  : list ((Q * Q) * image) :=
  [((x0, y0), i00); ((x0, y1), i01); ((x1, y0), i10); ((x1, y1), i11)].

(** The bilinear blend of four pixel values at [(x, y)]. *)
Definition bilinear (x0 y0 x1 y1 x y p00 p01 p10 p11 : Q) : Q :=
  ((x1 - x) * (y1 - y) * p00 + (x1 - x) * (y - y0) * p01
   + (x - x0) * (y1 - y) * p10 + (x - x0) * (y - y0) * p11)
  / ((x1 - x0) * (y1 - y0)).

(** Two images agree on every pixel of an [h] x [w] frame. *)
Definition img_eq (h w : nat) (a b : image) : Prop :=
  forall r c, (r < h)%nat -> (c < w)%nat -> pixel a r c == pixel b r c.

(** Two positions with equal coordinates. *)
Definition pos_eq (p q : Q * Q) : Prop := fst p == fst q /\ snd p == snd q.

(** A list of positions is, in this order, the four corners
    (x0,y0), (x0,y1), (x1,y0), (x1,y1) of an axis-aligned rectangle. *)
Definition rect_corners_of (x0 y0 x1 y1 : Q) (ps : list (Q * Q)) : Prop :=
  Forall2 pos_eq ps [(x0, y0); (x0, y1); (x1, y0); (x1, y1)].

Definition rect_corners (ps : list (Q * Q)) : Prop :=
  exists x0 y0 x1 y1, rect_corners_of x0 y0 x1 y1 ps.

(** The key under which the last call resolved its surface: the most
    recently used entry of the cache. *)
Definition resolved_key `{SplineLib} (self : GriddedPSFModel)
  : option (Z * Z) :=
  match LruCache.entries (_calc_interpolator self) with
  | (k, _) :: _ => Some k
  | [] => None
  end.

(** What [__init__] establishes and no method changes: the derived
    axes and per-sample arrays agree with the grid positions, and there is
    one image per position. *)
Definition wf_model `{SplineLib} (self : GriddedPSFModel) : Prop :=
  grid_xypos self <> [] /\
  _grid_xpos self = map fst (grid_xypos self) /\
  _grid_ypos self = map snd (grid_xypos self) /\
  _xgrid self = unique (_grid_xpos self) /\
  _ygrid self = unique (_grid_ypos self) /\
  length (data self) = length (grid_xypos self).

(** The squared distance from reference sample [i] to [(x, y)]. *)
Definition dist2 `{SplineLib} (self : GriddedPSFModel) (i : nat) (x y : Q)
  : Q :=
  hypot2 (nth i (_grid_xpos self) 0 - x) (nth i (_grid_ypos self) 0 - y).

(** [(x, y)] lies beyond the span of an axis. *)
Definition beyond (axis : list Q) (v : Q) : Prop :=
  (forall g, In g axis -> v < g) \/ (forall g, In g axis -> g < v).

(** The pixel-index coordinates of [evaluate] for an output coordinate. *)
Definition to_pixel_x `{SplineLib} (self : GriddedPSFModel) (x0 px : Q)
  : Q :=
  oversampling self * (px - x0)
  + (inject_Z (Z.of_nat (data_nx self)) - 1) / 2.

Definition to_pixel_y `{SplineLib} (self : GriddedPSFModel) (y0 py : Q)
  : Q :=
  oversampling self * (py - y0)
  + (inject_Z (Z.of_nat (data_ny self)) - 1) / 2.



(** The arguments of one call of [evaluate], and a sequence of calls on
    one model instance. *)
Record Call : Type := {
  call_x : list Q;
  call_y : list Q;
  call_flux : value;
  call_x_0 : value;
  call_y_0 : value
}.

Definition run_evaluates `{SplineLib} (self : GriddedPSFModel)
    (calls : list Call) : GriddedPSFModel :=
  fold_left
    (fun m c =>
       snd (evaluate m (call_x c) (call_y c)
              (call_flux c) (call_x_0 c) (call_y_0 c)))
    calls self.

(** The state of the cache: at most [n] entries under capacity [n]. *)
Definition cache_bounded {V} (n : nat) (c : LruCache.t V) : Prop :=
  LruCache.maxsize c = n /\ (length (LruCache.entries c) <= n)%nat.

(** Calls at the cells (0, 0), (1, 0), ..., (n-1, 0). *)
Definition cell_calls (n : nat) : list Call :=
  map (fun i => {| call_x := [0]; call_y := [0]; call_flux := Scalar 1;
                   call_x_0 := Scalar (inject_Z (Z.of_nat i));
                   call_y_0 := Scalar 0 |})
      (seq 0 n).

(** Every point of the Cartesian product of the distinct x-values and
    distinct y-values of [xypos] is one of its positions. *)
Definition complete_grid (xypos : list (Q * Q)) : Prop :=
  forall p,
    In p (product (unique (map fst xypos)) (unique (map snd xypos))) ->
    exists q, In q xypos /\ pos_eq q p.

(** [i] is a valid index into [l]. *)
Definition valid_index {A} (l : list A) (i : Z) : Prop :=
  (0 <= i < Z.of_nat (length l))%Z.

(** The conditions under which the constructor accepts a bundle. *)
Definition accepted (nd : NDData) : Prop :=
  exists g os,
    meta_grid_xypos nd = Some g /\
    g <> [] /\
    length g = length (nd_data nd) /\
    meta_oversampling nd = Some (Scalar os) /\
    (length (unique (map fst g)) * length (unique (map snd g)))%nat
    = length g.

(** The position of reference sample [i]. *)
Definition position `{SplineLib} (self : GriddedPSFModel) (i : nat)
  : Q * Q :=
  nth i (grid_xypos self) (0, 0).

(** Element [i] of an axis, for an index held as a Python int. *)
Definition axis_at (axis : list Q) (i : Z) : Q := nth (Z.to_nat i) axis 0.

(** [(x, y)] lies within the span of both axes. *)
Definition in_span `{SplineLib} (self : GriddedPSFModel) (x y : Q) : Prop :=
  exists xlo xhi ylo yhi,
    getitem (_xgrid self) 0 = Ok xlo /\ getlast (_xgrid self) = Ok xhi /\
    getitem (_ygrid self) 0 = Ok ylo /\ getlast (_ygrid self) = Ok yhi /\
    xlo <= x <= xhi /\ ylo <= y <= yhi.

(** Every cached surface is the one the fit computes for its key. *)
Definition cache_coherent `{SplineLib} (self : GriddedPSFModel) : Prop :=
  forall k s,
    In (k, s) (LruCache.entries (_calc_interpolator self)) ->
    _calc_interpolator_uncached self k = Ok s.

(** No two positions of the list have equal coordinates. *)
Definition distinct_positions (xypos : list (Q * Q)) : Prop :=
  ForallOrdPairs (fun p q => ~ pos_eq p q) xypos.

(** The index of the first axis value equal to [v], and the rank of a
    position in the product of two axes. *)
Fixpoint axis_index (axis : list Q) (v : Q) : nat :=
  match axis with
  | [] => 0
  | g :: rest => if Qeq_bool g v then 0 else S (axis_index rest v)
  end.

Definition cell_code (xs ys : list Q) (p : Q * Q) : nat :=
  axis_index xs (fst p) * length ys + axis_index ys (snd p).

(** ** The models of the bundles *)

Lemma square_model_init :
  __init__ square_nddata 1 0 0 (Some (-7 # 1)) = Ok square_model.
Proof. vm_compute. reflexivity. Qed.

Lemma column_model_init :
  __init__ column_nddata 1 0 0 (Some (-7 # 1)) = Ok column_model.
Proof. vm_compute. reflexivity. Qed.

Lemma diagonal_model_init :
  __init__ diagonal_nddata 1 0 0 (Some (-7 # 1)) = Ok diagonal_model.
Proof. vm_compute. reflexivity. Qed.

(** ** Facts about the Python primitives *)

Section SortFacts.
Context {A K : Type} (leb : K -> K -> bool) (key : A -> K).

Lemma insert_perm (a : A) (l : list A) :
  Permutation (insert leb key a l) (a :: l).
Proof.
  induction l as [|b l IH]; simpl; [reflexivity|].
  destruct (leb (key a) (key b)); [reflexivity|].
  rewrite IH. apply perm_swap.
Qed.

Lemma sorted_perm (l : list A) : Permutation (sorted leb key l) l.
Proof.
  induction l as [|a l IH]; simpl; [constructor|].
  rewrite insert_perm. now constructor.
Qed.

Lemma sorted_length (l : list A) : length (sorted leb key l) = length l.
Proof. apply Permutation_length, sorted_perm. Qed.

Hypothesis leb_total : forall x y, leb x y = true \/ leb y x = true.
Hypothesis leb_trans :
  forall x y z, leb x y = true -> leb y z = true -> leb x z = true.

Lemma insert_sorted (a : A) (l : list A) :
  StronglySorted (key_le leb key) l -> StronglySorted (key_le leb key) (insert leb key a l).
Proof.
  induction 1 as [|b l Hs IH Hb]; simpl.
  - repeat constructor.
  - destruct (leb (key a) (key b)) eqn:E.
    + constructor; [now constructor|].
      constructor; [exact E|].
      eapply Forall_impl; [|exact Hb].
      intros c Hc. unfold key_le in *. eauto.
    + constructor; [exact IH|].
      eapply Permutation_Forall; [symmetry; apply insert_perm|].
      constructor; [|exact Hb].
      destruct (leb_total (key a) (key b)) as [E'|E']; [congruence|exact E'].
Qed.

Lemma sorted_sorted (l : list A) : StronglySorted (key_le leb key) (sorted leb key l).
Proof.
  induction l as [|a l IH]; simpl; [constructor|].
  now apply insert_sorted.
Qed.

(** A list sorted by key has one arrangement when its keys are
    strictly increasing. *)
Lemma sorted_strict_unique (l1 l2 : list A) :
  StronglySorted (key_le leb key) l1 -> StronglySorted (key_lt leb key) l2 ->
  Permutation l1 l2 -> l1 = l2.
Proof.
  intros H1. revert l2.
  induction H1 as [|a l1 Hs IH Ha]; intros l2 H2 HP.
  - now apply Permutation_nil in HP.
  - destruct H2 as [|b l2 Hs2 Hb].
    + symmetry in HP. now apply Permutation_nil in HP.
    + assert (Hab : a = b).
      { assert (Ia : In a (b :: l2))
          by (eapply Permutation_in; [exact HP|now left]).
        assert (Ib : In b (a :: l1))
          by (eapply Permutation_in; [symmetry; exact HP|now left]).
        destruct Ia as [->|Ia]; [reflexivity|].
        destruct Ib as [->|Ib]; [reflexivity|].
        rewrite Forall_forall in Ha, Hb.
        specialize (Ha _ Ib). specialize (Hb _ Ia).
        unfold key_le, key_lt in *. destruct Hb. congruence. }
      subst b. f_equal. apply IH; [exact Hs2|].
      eapply Permutation_cons_inv; exact HP.
Qed.

Lemma sorted_of_strict (l l2 : list A) :
  StronglySorted (key_lt leb key) l2 -> Permutation l l2 -> sorted leb key l = l2.
Proof.
  intros H2 HP. apply sorted_strict_unique; [apply sorted_sorted|exact H2|].
  now rewrite sorted_perm.
Qed.
End SortFacts.

(** Sorting through a map: the sort only looks at keys. *)
Lemma insert_map {A B K} (leb : K -> K -> bool) (key : B -> K) (f : A -> B)
    (a : A) (l : list A) :
  map f (insert leb (fun x => key (f x)) a l) = insert leb key (f a) (map f l).
Proof.
  induction l as [|b l IH]; simpl; [reflexivity|].
  destruct (leb (key (f a)) (key (f b))); simpl; [reflexivity|].
  now rewrite IH.
Qed.

Lemma sorted_map {A B K} (leb : K -> K -> bool) (key : B -> K) (f : A -> B)
    (l : list A) :
  map f (sorted leb (fun x => key (f x)) l) = sorted leb key (map f l).
Proof.
  induction l as [|a l IH]; simpl; [reflexivity|].
  now rewrite insert_map, IH.
Qed.

(** Boolean comparisons on [Q] against their propositions. *)
Lemma Qle_bool_false (a b : Q) : Qle_bool a b = false <-> b < a.
Proof.
  split; intros E.
  - apply Qnot_le_lt. intros L. apply Qle_bool_iff in L. congruence.
  - destruct (Qle_bool a b) eqn:L; [|reflexivity].
    apply Qle_bool_iff in L. lra.
Qed.

Lemma Qeq_bool_false (a b : Q) : Qeq_bool a b = false <-> ~ a == b.
Proof.
  split; intros E.
  - intros L. apply Qeq_bool_iff in L. congruence.
  - destruct (Qeq_bool a b) eqn:L; [|reflexivity].
    apply Qeq_bool_iff in L. contradiction.
Qed.

Lemma Qltb_true (a b : Q) : Qltb a b = true <-> a < b.
Proof.
  unfold Qltb. rewrite Qlt_alt. destruct (a ?= b); split; congruence.
Qed.

Lemma Qltb_false (a b : Q) : Qltb a b = false <-> b <= a.
Proof.
  split; intros E.
  - apply Qnot_lt_le. intros L. apply Qltb_true in L. congruence.
  - destruct (Qltb a b) eqn:L; [|reflexivity].
    apply Qltb_true in L. lra.
Qed.

Ltac qprop :=
  repeat match goal with
    | H : Qle_bool _ _ = true |- _ => apply Qle_bool_iff in H
    | H : Qle_bool _ _ = false |- _ => apply Qle_bool_false in H
    | H : Qeq_bool _ _ = true |- _ => apply Qeq_bool_iff in H
    | H : Qeq_bool _ _ = false |- _ => apply Qeq_bool_false in H
    | H : Qltb _ _ = true |- _ => apply Qltb_true in H
    | H : Qltb _ _ = false |- _ => apply Qltb_false in H
    end.

Ltac qbool :=
  repeat match goal with
    | |- Qle_bool _ _ = true => apply Qle_bool_iff
    | |- Qle_bool _ _ = false => apply Qle_bool_false
    | |- Qeq_bool _ _ = true => apply Qeq_bool_iff
    | |- Qeq_bool _ _ = false => apply Qeq_bool_false
    | |- Qltb _ _ = true => apply Qltb_true
    | |- Qltb _ _ = false => apply Qltb_false
    end.

Lemma tuple_leb_total (p q : Q * Q) :
  tuple_leb p q = true \/ tuple_leb q p = true.
Proof.
  unfold tuple_leb.
  destruct (Qeq_bool (fst p) (fst q)) eqn:E1,
           (Qeq_bool (fst q) (fst p)) eqn:E2; qprop.
  - destruct (Qle_bool (snd p) (snd q)) eqn:L; [now left|right].
    qprop. qbool. lra.
  - exfalso. apply E2. lra.
  - exfalso. apply E1. lra.
  - destruct (Qle_bool (fst p) (fst q)) eqn:L; [now left|right].
    qprop. qbool. lra.
Qed.

Lemma tuple_leb_trans (p q r : Q * Q) :
  tuple_leb p q = true -> tuple_leb q r = true -> tuple_leb p r = true.
Proof.
  unfold tuple_leb.
  destruct (Qeq_bool (fst p) (fst q)) eqn:E1,
           (Qeq_bool (fst q) (fst r)) eqn:E2,
           (Qeq_bool (fst p) (fst r)) eqn:E3;
    intros L1 L2; qprop; qbool; try lra;
    try (exfalso; apply E3; lra);
    try (exfalso; apply E2; lra);
    try (exfalso; apply E1; lra).
Qed.

Lemma Qle_bool_total (a b : Q) : Qle_bool a b = true \/ Qle_bool b a = true.
Proof.
  destruct (Qle_bool a b) eqn:L; [now left|right]. qprop. qbool. lra.
Qed.

Lemma Qle_bool_trans (a b c : Q) :
  Qle_bool a b = true -> Qle_bool b c = true -> Qle_bool a c = true.
Proof. intros. qprop. qbool. lra. Qed.

(** Indexing lemmas. *)
Lemma getitem_nth {A} (l : list A) (i : nat) (d : A) :
  (i < length l)%nat -> getitem l i = Ok (nth i l d).
Proof.
  intros Hi. unfold getitem.
  destruct (nth_error l i) eqn:E.
  - f_equal. symmetry. now apply nth_error_nth.
  - apply nth_error_None in E. lia.
Qed.

Lemma take_nth {A} (l : list A) (indices : list nat) (d : A) :
  Forall (fun i => (i < length l)%nat) indices ->
  take l indices = Ok (map (fun i => nth i l d) indices).
Proof.
  induction 1 as [|i rest Hi _ IH]; simpl; [reflexivity|].
  rewrite (getitem_nth l i d Hi). simpl. rewrite IH. reflexivity.
Qed.

Lemma take_length {A} (l : list A) (indices : list nat) (out : list A) :
  take l indices = Ok out -> length out = length indices.
Proof.
  revert out. induction indices as [|i rest IH]; simpl; intros out E.
  - now inversion E.
  - destruct (getitem l i); simpl in E; [|discriminate].
    destruct (take l rest); simpl in E; [|discriminate].
    inversion E. simpl. f_equal. now apply IH.
Qed.

Lemma map_nth_pair_seq {A B} (l : list A) (l' : list B) (d : A) (d' : B) :
  length l = length l' ->
  map (fun i => (nth i l d, nth i l' d')) (seq 0 (length l)) = combine l l'.
Proof.
  revert l'. induction l as [|a l IH]; intros [|b l'] E; simpl in *;
    try discriminate; [reflexivity|].
  f_equal. rewrite <- seq_shift, map_map. apply IH. now inversion E.
Qed.

Lemma map_fst_combine_eq {A B} (l : list A) (l' : list B) :
  length l = length l' -> map fst (combine l l') = l.
Proof.
  revert l'. induction l as [|a l IH]; intros [|b l'] E; simpl in *;
    try discriminate; [reflexivity|].
  f_equal. apply IH. now inversion E.
Qed.

Lemma map_snd_combine_eq {A B} (l : list A) (l' : list B) :
  length l = length l' -> map snd (combine l l') = l'.
Proof.
  revert l'. induction l as [|a l IH]; intros [|b l'] E; simpl in *;
    try discriminate; [reflexivity|].
  f_equal. apply IH. now inversion E.
Qed.

(** The two sorts of [_bilinear_interp] agree: the images picked by the
    sorted indices are those paired with the sorted positions. *)
Lemma bilinear_sorts_agree (xyref : list (Q * Q)) (zref : list image) :
  length xyref = length zref ->
  let ps := sorted tuple_leb fst (combine xyref zref) in
  sorted tuple_leb (fun p => p) xyref = map fst ps /\
  take zref
    (sorted tuple_leb (fun i => nth i xyref (0, 0)) (seq 0 (length xyref)))
  = Ok (map snd ps).
Proof.
  intros E ps. split.
  - unfold ps.
    rewrite (sorted_map tuple_leb (fun p : Q * Q => p) fst).
    now rewrite map_fst_combine_eq.
  - set (f := fun i : nat => (nth i xyref (0, 0), nth i zref ([] : image))).
    set (idx := sorted _ _ _).
    assert (Hm : map f idx = ps).
    { unfold idx, ps.
      rewrite <- (map_nth_pair_seq xyref zref (0, 0) [] E).
      apply (sorted_map tuple_leb fst f). }
    rewrite (take_nth zref idx []).
    + f_equal. rewrite <- Hm, map_map. reflexivity.
    + apply Forall_forall. intros i Hi.
      assert (In i (seq 0 (length xyref)))
        by (eapply Permutation_in; [|exact Hi]; apply sorted_perm).
      apply in_seq in H. lia.
Qed.

(** ** Facts about images *)

Lemma nth_map_in {A B} (f : A -> B) (l : list A) (n : nat) (d : B) (d' : A) :
  (n < length l)%nat -> nth n (map f l) d = f (nth n l d').
Proof.
  revert n. induction l as [|a l IH]; intros [|n] Hn; simpl in *;
    try lia; [reflexivity|].
  apply IH. lia.
Qed.

Lemma nth_zip_with {A B C} (f : A -> B -> C) (l : list A) (l' : list B)
    (n : nat) (d : C) (d1 : A) (d2 : B) :
  (n < length l)%nat -> (n < length l')%nat ->
  nth n (zip_with f l l') d = f (nth n l d1) (nth n l' d2).
Proof.
  unfold zip_with. revert l' n.
  induction l as [|a l IH]; intros [|b l'] [|n] H1 H2; simpl in *;
    try lia; [reflexivity|].
  apply IH; lia.
Qed.

Lemma zip_with_length {A B C} (f : A -> B -> C) (l : list A) (l' : list B) :
  length l = length l' -> length (zip_with f l l') = length l.
Proof.
  intros E. unfold zip_with. rewrite length_map, length_combine. lia.
Qed.

Lemma has_shape_row (h w : nat) (a : image) (r : nat) :
  has_shape h w a -> (r < h)%nat -> length (nth r a []) = w.
Proof.
  intros [Hl Hr] Hlt. rewrite Forall_forall in Hr.
  apply Hr, nth_In. lia.
Qed.

Lemma has_shape_map (h w : nat) (f : Q -> Q) (a : image) :
  has_shape h w a -> has_shape h w (map (map f) a).
Proof.
  intros [Hl Hr]. split; [now rewrite length_map|].
  apply Forall_map. eapply Forall_impl; [|exact Hr].
  intros row E. simpl. now rewrite length_map.
Qed.

Lemma pixel_map (h w : nat) (f : Q -> Q) (a : image) (r c : nat) :
  has_shape h w a -> (r < h)%nat -> (c < w)%nat ->
  pixel (map (map f) a) r c = f (pixel a r c).
Proof.
  intros Hs Hr Hc. unfold pixel.
  rewrite (nth_map_in (map f) a r [] []) by (destruct Hs; lia).
  apply nth_map_in. now rewrite (has_shape_row h w a r Hs Hr).
Qed.

Lemma has_shape_add (h w : nat) (a b : image) :
  has_shape h w a -> has_shape h w b -> has_shape h w (img_add a b).
Proof.
  intros Ha Hb. split.
  - unfold img_add. rewrite zip_with_length; destruct Ha, Hb; lia.
  - apply Forall_forall. intros row Hin.
    apply (In_nth _ _ []) in Hin. destruct Hin as (r & Hr & <-).
    unfold img_add in *.
    rewrite zip_with_length in Hr by (destruct Ha, Hb; lia).
    rewrite (nth_zip_with _ a b r [] [] [])
      by (destruct Ha, Hb; lia).
    assert (r < h)%nat by (destruct Ha; lia).
    rewrite zip_with_length;
      rewrite ?(has_shape_row h w a r Ha), ?(has_shape_row h w b r Hb);
      auto.
Qed.

Lemma pixel_add (h w : nat) (a b : image) (r c : nat) :
  has_shape h w a -> has_shape h w b -> (r < h)%nat -> (c < w)%nat ->
  pixel (img_add a b) r c = pixel a r c + pixel b r c.
Proof.
  intros Ha Hb Hr Hc. unfold pixel, img_add.
  rewrite (nth_zip_with _ a b r [] [] []) by (destruct Ha, Hb; lia).
  apply nth_zip_with.
  - now rewrite (has_shape_row h w a r Ha Hr).
  - now rewrite (has_shape_row h w b r Hb Hr).
Qed.

Lemma corners_strict (x0 y0 x1 y1 : Q) (i00 i01 i10 i11 : image) :
  x0 < x1 -> y0 < y1 ->
  StronglySorted (key_lt tuple_leb fst) (corners x0 y0 x1 y1 i00 i01 i10 i11).
Proof.
  intros Hx Hy.
  assert (Exx : forall q, Qeq_bool q q = true)
    by (intros; apply Qeq_bool_iff; reflexivity).
  assert (E01 : Qeq_bool x0 x1 = false) by (qbool; lra).
  assert (E10 : Qeq_bool x1 x0 = false) by (qbool; lra).
  assert (L01 : Qle_bool x0 x1 = true) by (qbool; lra).
  assert (L10 : Qle_bool x1 x0 = false) by (qbool; lra).
  assert (M01 : Qle_bool y0 y1 = true) by (qbool; lra).
  assert (M10 : Qle_bool y1 y0 = false) by (qbool; lra).
  unfold corners.
  repeat (constructor; [|repeat constructor]);
    repeat constructor; unfold key_lt, tuple_leb; simpl;
    rewrite ?Exx, ?E01, ?E10; auto.
Qed.

(** ** The local blender *)

Lemma bilinear_interp_at_corners (x0 y0 x1 y1 x y : Q)
    (i00 i01 i10 i11 : image) (xyref : list (Q * Q)) (zref : list image) :
  x0 < x1 -> y0 < y1 ->
  length xyref = length zref ->
  Permutation (combine xyref zref) (corners x0 y0 x1 y1 i00 i01 i10 i11) ->
  x0 <= x <= x1 -> y0 <= y <= y1 ->
  _bilinear_interp xyref zref (Scalar x) (Scalar y)
  = Ok (img_div
          (img_add
             (img_add
                (img_add (img_scale i00 ((x1 - x) * (y1 - y)))
                         (img_scale i01 ((x1 - x) * (y - y0))))
                (img_scale i10 ((x - x0) * (y1 - y))))
             (img_scale i11 ((x - x0) * (y - y0))))
          ((x1 - x0) * (y1 - y0))).
Proof.
  intros Hx Hy El HP [Hx0 Hx1] [Hy0 Hy1].
  destruct (bilinear_sorts_agree xyref zref El) as [E1 E2].
  rewrite (sorted_of_strict tuple_leb fst tuple_leb_total tuple_leb_trans
             _ _ (corners_strict x0 y0 x1 y1 i00 i01 i10 i11 Hx Hy) HP)
    in E1, E2.
  unfold _bilinear_interp. rewrite E1, E2. simpl.
  assert (Exx : forall q, Qeq_bool q q = true)
    by (intros; apply Qeq_bool_iff; reflexivity).
  rewrite !Exx. simpl.
  assert (A1 : Qle_bool x0 x = true) by (qbool; lra).
  assert (A2 : Qle_bool x x1 = true) by (qbool; lra).
  assert (A3 : Qle_bool y0 y = true) by (qbool; lra).
  assert (A4 : Qle_bool y y1 = true) by (qbool; lra).
  rewrite A1, A2, A3, A4. reflexivity.
Qed.



Section Binary64Facts.
Import PrimFloat.
Local Set Warnings "-inexact-float".

(** In binary64 the blend at the corner (0, 0) of the rectangle
    [0, 3] x [0, 1] is (0.1 * 3 + 0.2 * 0 + 0.3 * 0 + 0.4 * 0) / 3: the
    product rounds to 0.30000000000000004 and the quotient to
    0.10000000000000002. *)
Lemma bilinear_interp_binary64_corner :
  Binary64._bilinear_interp
    [(0, 0); (0, 1); (3, 0); (3, 1)]%float
    [[[0.1]]; [[0.2]]; [[0.3]]; [[0.4]]]%float
    (Binary64.Scalar 0%float) (Binary64.Scalar 0%float)
  = Ok [[0.10000000000000002%float]].
Proof. vm_compute. reflexivity. Qed.


End Binary64Facts.

Lemma bilinear_take_ok (xyref : list (Q * Q)) (zref : list image) :
  length xyref = length zref ->
  exists data,
    take zref
      (sorted tuple_leb (fun i => nth i xyref (0, 0)) (seq 0 (length xyref)))
    = Ok data.
Proof.
  intros E. destruct (bilinear_sorts_agree xyref zref E) as [_ E2].
  eexists. exact E2.
Qed.

(** C7: on four positions and four images, [_bilinear_interp] raises
    ValueError when the positions sorted by (x, then y) are not the four
    corners of an axis-aligned rectangle, raises ValueError when they are
    and the query lies outside [x0,x1] x [y0,y1], and returns an image
    when the query lies inside, boundary included. *)
Theorem bilinear_interp_validation (xyref : list (Q * Q))
    (zref : list image) (x y : Q) :
  length xyref = 4%nat -> length zref = 4%nat ->
  let ps := sorted tuple_leb (fun p => p) xyref in
  (~ rect_corners ps ->
   _bilinear_interp xyref zref (Scalar x) (Scalar y) = Raise ValueError) /\
  (forall x0 y0 x1 y1, rect_corners_of x0 y0 x1 y1 ps ->
     (~ (x0 <= x <= x1 /\ y0 <= y <= y1) ->
      _bilinear_interp xyref zref (Scalar x) (Scalar y) = Raise ValueError) /\
     (x0 <= x <= x1 -> y0 <= y <= y1 ->
      exists out,
        _bilinear_interp xyref zref (Scalar x) (Scalar y) = Ok out)).
Proof.
  intros Lx Lz ps.
  assert (Lp : length ps = 4%nat)
    by (unfold ps; now rewrite sorted_length).
  destruct (bilinear_take_ok xyref zref) as [data Hd]; [congruence|].
  unfold _bilinear_interp. rewrite Hd. fold ps.
  destruct ps as [|[a0 b0] [|[a1 b1] [|[a2 b2] [|[a3 b3] [|? ?]]]]];
    try discriminate.
  clear Lp. split.
  - intros Hn.
    destruct (Qeq_bool a0 a1) eqn:E1; [|reflexivity].
    destruct (Qeq_bool a2 a3) eqn:E2; [|reflexivity].
    destruct (Qeq_bool b0 b2) eqn:E3; [|reflexivity].
    destruct (Qeq_bool b1 b3) eqn:E4; [|reflexivity].
    exfalso. apply Hn. qprop. exists a0, b0, a2, b1.
    unfold rect_corners_of, pos_eq.
    repeat constructor; simpl; lra.
  - intros x0 y0 x1 y1 HR.
    unfold rect_corners_of in HR.
    inversion HR as [|? ? ? ? P0 HR1]; subst.
    inversion HR1 as [|? ? ? ? P1 HR2]; subst.
    inversion HR2 as [|? ? ? ? P2 HR3]; subst.
    inversion HR3 as [|? ? ? ? P3 _]; subst.
    destruct P0 as [P0x P0y], P1 as [P1x P1y], P2 as [P2x P2y],
             P3 as [P3x P3y].
    simpl in *.
    assert (E1 : Qeq_bool a0 a1 = true) by (qbool; lra).
    assert (E2 : Qeq_bool a2 a3 = true) by (qbool; lra).
    assert (E3 : Qeq_bool b0 b2 = true) by (qbool; lra).
    assert (E4 : Qeq_bool b1 b3 = true) by (qbool; lra).
    rewrite E1, E2, E3, E4. simpl. split.
    + intros Hout.
      destruct (Qle_bool a0 x) eqn:A1; [|reflexivity].
      destruct (Qle_bool x a2) eqn:A2; [|reflexivity].
      destruct (Qle_bool b0 y) eqn:A3; [|reflexivity].
      destruct (Qle_bool y b1) eqn:A4; [|reflexivity].
      exfalso. apply Hout. qprop. lra.
    + intros [Hx0 Hx1] [Hy0 Hy1].
      assert (A1 : Qle_bool a0 x = true) by (qbool; lra).
      assert (A2 : Qle_bool x a2 = true) by (qbool; lra).
      assert (A3 : Qle_bool b0 y = true) by (qbool; lra).
      assert (A4 : Qle_bool y b1 = true) by (qbool; lra).
      rewrite A1, A2, A3, A4. simpl. eexists. reflexivity.
Qed.

Lemma bilinear_interp_validation_witness :
  (exists out,
     _bilinear_interp [(0, 0); (0, 10 # 1); (10 # 1, 0); (10 # 1, 10 # 1)]
       [const_image 2 2 1; const_image 2 2 2;
        const_image 2 2 3; const_image 2 2 4]
       (Scalar (10 # 1)) (Scalar 0) = Ok out) /\
  _bilinear_interp [(0, 0); (0, 10 # 1); (10 # 1, 0); (10 # 1, 10 # 1)]
    [const_image 2 2 1; const_image 2 2 2;
     const_image 2 2 3; const_image 2 2 4]
    (Scalar (11 # 1)) (Scalar 0) = Raise ValueError.
Proof.
  assert (R : rect_corners_of 0 0 (10 # 1) (10 # 1)
                (sorted tuple_leb (fun p => p)
                   [(0, 0); (0, 10 # 1); (10 # 1, 0); (10 # 1, 10 # 1)])).
  { repeat constructor. }
  split.
  - apply (proj2 (proj2 (bilinear_interp_validation
             [(0, 0); (0, 10 # 1); (10 # 1, 0); (10 # 1, 10 # 1)]
             [const_image 2 2 1; const_image 2 2 2;
              const_image 2 2 3; const_image 2 2 4]
             (10 # 1) 0 eq_refl eq_refl) 0 0 (10 # 1) (10 # 1) R));
      split; unfold Qle; simpl; lia.
  - apply (proj1 (proj2 (bilinear_interp_validation
             [(0, 0); (0, 10 # 1); (10 # 1, 0); (10 # 1, 10 # 1)]
             [const_image 2 2 1; const_image 2 2 2;
              const_image 2 2 3; const_image 2 2 4]
             (11 # 1) 0 eq_refl eq_refl) 0 0 (10 # 1) (10 # 1) R)).
    intros [[_ Hc] _]. unfold Qle in Hc. simpl in Hc. lia.
Defined.

(** ** The evaluator and its cache key *)

Lemma int_floor_nonneg (q : Q) : 0 <= q -> int q = Qfloor q.
Proof.
  intros Hq. destruct q as [n d]. unfold int, Qfloor. simpl.
  apply Z.quot_div_nonneg; [|lia].
  unfold Qle in Hq. simpl in Hq. lia.
Qed.

Section EvaluateFacts.
Context `{SplineLib}.

Lemma call_front_key (f : Z * Z -> result surface) (k : Z * Z)
    (c : LruCache.t surface) (s : surface) :
  LruCache.maxsize c <> 0%nat ->
  fst (LruCache.call f k c) = Ok s ->
  exists rest, LruCache.entries (snd (LruCache.call f k c)) = (k, s) :: rest.
Proof.
  intros Hm. unfold LruCache.call.
  destruct (LruCache.lookup k (LruCache.entries c)) as [v|].
  - simpl. intros E. inversion E. subst. eexists. reflexivity.
  - destruct (f k) as [v|e]; simpl; [|discriminate].
    intros E. inversion E. subst.
    destruct (Nat.eqb (LruCache.maxsize c) 0) eqn:Z0.
    + apply Nat.eqb_eq in Z0. contradiction.
    + destruct (Nat.leb _ _); eexists; reflexivity.
Qed.

Lemma evaluate_model_after (m : GriddedPSFModel) (x y : list Q)
    (flux x0 y0 : Q) :
  snd (evaluate m x y (Scalar flux) (Scalar x0) (Scalar y0))
  = with_cache m
      (snd (LruCache.call (_calc_interpolator_uncached m) (int x0, int y0)
              (_calc_interpolator m))).
Proof.
  unfold evaluate. simpl.
  destruct (LruCache.call _ _ _) as [[s|e] c]; reflexivity.
Qed.

Lemma evaluate_ok_surface (m : GriddedPSFModel) (x y : list Q)
    (flux x0 y0 : Q) (out : list Q) :
  fst (evaluate m x y (Scalar flux) (Scalar x0) (Scalar y0)) = Ok out ->
  exists s,
    fst (LruCache.call (_calc_interpolator_uncached m) (int x0, int y0)
           (_calc_interpolator m)) = Ok s.
Proof.
  unfold evaluate. simpl.
  destruct (LruCache.call _ _ _) as [[s|e] c]; simpl; [|discriminate].
  intros _. now exists s.
Qed.

(** C1, as amended: [evaluate] resolves its surface by one call of the
    memoised interpolator at the key (int(x_0), int(y_0)), the truncation
    toward zero of each coordinate; a call that returns leaves that key as
    the most recent entry; and the key is the floor of a coordinate that
    is not negative. *)
Theorem evaluate_key_truncates (m : GriddedPSFModel) (x y : list Q)
    (flux x0 y0 : Q) :
  LruCache.maxsize (_calc_interpolator m) <> 0%nat ->
  snd (evaluate m x y (Scalar flux) (Scalar x0) (Scalar y0))
  = with_cache m
      (snd (LruCache.call (_calc_interpolator_uncached m) (int x0, int y0)
              (_calc_interpolator m))) /\
  (forall out,
     fst (evaluate m x y (Scalar flux) (Scalar x0) (Scalar y0)) = Ok out ->
     resolved_key (snd (evaluate m x y (Scalar flux) (Scalar x0) (Scalar y0)))
     = Some (int x0, int y0)) /\
  (0 <= x0 -> int x0 = Qfloor x0) /\
  (0 <= y0 -> int y0 = Qfloor y0).
Proof.
  intros Hm. split; [apply evaluate_model_after|].
  split; [|split; apply int_floor_nonneg].
  intros out Hout. rewrite evaluate_model_after.
  destruct (evaluate_ok_surface m x y flux x0 y0 out Hout) as [s Hs].
  destruct (call_front_key _ _ _ s Hm Hs) as [rest Hr].
  unfold resolved_key. simpl. now rewrite Hr.
Qed.

End EvaluateFacts.

Lemma evaluate_key_truncates_witness :
  resolved_key
    (snd (evaluate square_model [0] [0]
            (Scalar 1) (Scalar (7 # 2)) (Scalar (5 # 1))))
  = Some (3%Z, 5%Z).
Proof.
  destruct (evaluate_key_truncates square_model [0] [0] 1 (7 # 2) (5 # 1))
    as (_ & Hk & _).
  - simpl. discriminate.
  - eapply Hk. vm_compute. reflexivity.
Defined.

(** C1, as stated, fails: at x_0 = -1/2 the key is (0, 0), while the
    floor of x_0 is -1. *)
Lemma evaluate_key_is_not_floor :
  ~ (forall (L : SplineLib) (m : GriddedPSFModel) (x y : list Q)
       (flux x0 y0 : Q) (out : list Q),
        fst (evaluate m x y (Scalar flux) (Scalar x0) (Scalar y0)) = Ok out ->
        resolved_key
          (snd (evaluate m x y (Scalar flux) (Scalar x0) (Scalar y0)))
        = Some (Qfloor x0, Qfloor y0)).
Proof.
  intros C.
  specialize (C SampleSpline square_model [0] [0] 1 (-1 # 2) 0).
  vm_compute in C. specialize (C _ eq_refl). discriminate.
Qed.

(** ** Construction *)

Lemma insert_unique_nonempty (a : Q) (l : list Q) : insert_unique a l <> [].
Proof.
  destruct l as [|b l]; simpl; [discriminate|].
  destruct (Qeq_bool a b); [discriminate|].
  destruct (Qle_bool a b); discriminate.
Qed.

Lemma unique_nonempty (l : list Q) : l <> [] -> unique l <> [].
Proof.
  destruct l as [|a l]; [congruence|]. intros _. simpl.
  apply insert_unique_nonempty.
Qed.

Section ConstructionFacts.
Context `{SplineLib}.

Lemma init_wf (nd : NDData) (f x y : Q) (fill : option Q)
    (m : GriddedPSFModel) :
  __init__ nd f x y fill = Ok m -> wf_model m.
Proof.
  unfold __init__, _validate_data.
  destruct (meta_grid_xypos nd) as [g|] eqn:Eg; simpl; [|discriminate].
  destruct (Nat.eqb (length g) (length (nd_data nd))) eqn:El; simpl;
    [|discriminate].
  destruct (meta_oversampling nd) as [[os|os]|] eqn:Eo; simpl;
    try discriminate.
  rewrite Eg, Eo.
  destruct g as [|p g]; [discriminate|].
  destruct (regular_grid_check (p :: g)); simpl; [|discriminate].
  intros E. inversion E. subst m. clear E.
  apply Nat.eqb_eq in El.
  unfold wf_model. simpl. repeat split; try reflexivity; try discriminate.
  simpl in El. lia.
Qed.

Lemma with_cache_wf (m : GriddedPSFModel) (c : LruCache.t surface) :
  wf_model m -> wf_model (with_cache m c).
Proof. intros W. exact W. Qed.

End ConstructionFacts.

(** ** The locator *)

Lemma argsort_head_min (keys : list Q) :
  keys <> [] ->
  exists i,
    getitem (argsort keys) 0 = Ok i /\
    (i < length keys)%nat /\
    forall j, (j < length keys)%nat -> nth i keys 0 <= nth j keys 0.
Proof.
  intros Hne. unfold argsort.
  set (key := fun i : nat => nth i keys 0).
  pose proof (sorted_perm Qle_bool key (seq 0 (length keys))) as HP.
  pose proof (sorted_sorted Qle_bool key Qle_bool_total Qle_bool_trans
                (seq 0 (length keys))) as HS.
  destruct (sorted Qle_bool key (seq 0 (length keys))) as [|i rest].
  - apply Permutation_length in HP. rewrite length_seq in HP.
    destruct keys; [congruence|discriminate].
  - exists i. split; [reflexivity|].
    assert (Hi : In i (seq 0 (length keys)))
      by (eapply Permutation_in; [exact HP|now left]).
    apply in_seq in Hi. split; [lia|].
    intros j Hj.
    assert (Hin : In j (i :: rest)).
    { eapply Permutation_in; [symmetry; exact HP|]. apply in_seq. lia. }
    destruct Hin as [->|Hin]; [lra|].
    inversion HS as [|? ? _ Hall]; subst.
    rewrite Forall_forall in Hall. specialize (Hall j Hin).
    unfold key_le, key in Hall. qprop. exact Hall.
Qed.

Section LocatorFacts.
Context `{SplineLib}.

Lemma wf_lengths (m : GriddedPSFModel) :
  wf_model m ->
  length (_grid_xpos m) = length (grid_xypos m) /\
  length (_grid_ypos m) = length (grid_xypos m) /\
  _xgrid m <> [] /\ _ygrid m <> [] /\ _grid_xpos m <> [].
Proof.
  intros (Hne & Ex & Ey & Eux & Euy & _).
  rewrite Eux, Euy, Ex, Ey, !length_map.
  assert (map fst (grid_xypos m) <> [])
    by (destruct (grid_xypos m); [congruence|discriminate]).
  assert (map snd (grid_xypos m) <> [])
    by (destruct (grid_xypos m); [congruence|discriminate]).
  repeat split; auto using unique_nonempty.
Qed.

Lemma nearest_index_min (m : GriddedPSFModel) (x y : Q) :
  wf_model m ->
  exists i,
    nearest_index m x y = Ok i /\
    (i < length (grid_xypos m))%nat /\
    forall j, (j < length (grid_xypos m))%nat ->
              dist2 m i x y <= dist2 m j x y.
Proof.
  intros W. destruct (wf_lengths m W) as (Lx & Ly & _ & _ & Nx).
  unfold nearest_index.
  set (keys := zip_with _ _ _).
  assert (Lk : length keys = length (grid_xypos m)).
  { unfold keys. rewrite zip_with_length; lia. }
  destruct (argsort_head_min keys) as (i & Ei & Hi & Hmin).
  { intros E. rewrite E in Lk. simpl in Lk. rewrite <- Lx in Lk.
    destruct (_grid_xpos m); [congruence|discriminate]. }
  exists i. split; [exact Ei|]. split; [lia|].
  intros j Hj. specialize (Hmin j ltac:(lia)).
  unfold keys in Hmin.
  rewrite (nth_zip_with _ _ _ i 0 0 0) in Hmin by lia.
  rewrite (nth_zip_with _ _ _ j 0 0 0) in Hmin by lia.
  exact Hmin.
Qed.

Lemma getitem0_in {A} (l : list A) (a : A) : getitem l 0 = Ok a -> In a l.
Proof. destruct l; simpl; [discriminate|]. intros E. inversion E. now left. Qed.

Lemma getlast_in {A} (l : list A) (a : A) : getlast l = Ok a -> In a l.
Proof.
  unfold getlast. destruct (rev l) eqn:E; [discriminate|].
  intros E'. inversion E'. subst. apply in_rev. rewrite E. now left.
Qed.

Lemma getitem0_ok {A} (l : list A) : l <> [] -> exists a, getitem l 0 = Ok a.
Proof. destruct l; [congruence|]. intros _. eexists. reflexivity. Qed.

Lemma getlast_ok {A} (l : list A) : l <> [] -> exists a, getlast l = Ok a.
Proof.
  intros Hne. unfold getlast. destruct (rev l) eqn:E.
  - apply (f_equal (@rev A)) in E. rewrite rev_involutive in E. now subst.
  - eexists. reflexivity.
Qed.



End LocatorFacts.




(** ** The fill policy *)

Lemma broadcast_map {A B A' B'} (f : A -> A') (g : B -> B')
    (xs : list A) (ys : list B) :
  broadcast (map f xs) (map g ys)
  = let* pts := broadcast xs ys in
    Ok (map (fun p => (f (fst p), g (snd p))) pts).
Proof.
  unfold broadcast. rewrite !length_map.
  destruct (Nat.eqb (length xs) (length ys)).
  - simpl. f_equal. revert ys.
    induction xs as [|a xs IH]; intros [|b ys]; simpl; try reflexivity.
    f_equal. apply IH.
  - destruct xs as [|a [|a' xs]], ys as [|b [|b' ys]]; simpl;
      try reflexivity; rewrite ?map_map; reflexivity.
Qed.

Lemma mask_assign_map {A} (v : A -> Q) (b : A -> bool) (fill : Q)
    (l : list A) :
  mask_assign (map v l) (map b l) fill
  = map (fun p => if b p then fill else v p) l.
Proof.
  unfold mask_assign, zip_with.
  induction l as [|a l IH]; simpl; [reflexivity|]. now rewrite IH.
Qed.

Section FillFacts.
Context `{SplineLib}.

(** What [evaluate] returns once the surface is resolved: one value per
    broadcast point. *)
Lemma evaluate_values (m : GriddedPSFModel) (x y : list Q) (flux x0 y0 : Q)
    (s : surface) (pts : list (Q * Q)) :
  fst (LruCache.call (_calc_interpolator_uncached m) (int x0, int y0)
         (_calc_interpolator m)) = Ok s ->
  broadcast x y = Ok pts ->
  fst (evaluate m x y (Scalar flux) (Scalar x0) (Scalar y0))
  = Ok (map (fun p =>
               let xi := to_pixel_x m x0 (fst p) in
               let yi := to_pixel_y m y0 (snd p) in
               match fill_value m with
               | None => flux * ev s xi yi
               | Some fill =>
                   if (Qltb xi 0
                       || Qltb (inject_Z (Z.of_nat (data_nx m)) - 1) xi)
                      || (Qltb yi 0
                          || Qltb (inject_Z (Z.of_nat (data_ny m)) - 1) yi)
                   then fill else flux * ev s xi yi
               end) pts).
Proof.
  intros Hs Hb. unfold evaluate. cbn [scalar_of].
  destruct (LruCache.call _ _ _) as [[s'|e] c]; simpl in Hs;
    [|discriminate].
  inversion Hs. subst s'. clear Hs.
  cbn [fst]. unfold ev_array. rewrite !map_map.
  rewrite !broadcast_map, Hb. cbn [bind].
  destruct (fill_value m) as [fill|].
  - rewrite !map_map.
    rewrite (mask_assign_map
               (fun p => flux * ev s (to_pixel_x m x0 (fst p))
                                     (to_pixel_y m y0 (snd p)))
               (fun p =>
                  (Qltb (to_pixel_x m x0 (fst p)) 0
                   || Qltb (inject_Z (Z.of_nat (data_nx m)) - 1)
                           (to_pixel_x m x0 (fst p)))
                  || (Qltb (to_pixel_y m y0 (snd p)) 0
                      || Qltb (inject_Z (Z.of_nat (data_ny m)) - 1)
                              (to_pixel_y m y0 (snd p))))).
    reflexivity.
  - rewrite !map_map. reflexivity.
Qed.


End FillFacts.


(** ** Effects and parameters of [evaluate] *)

Section FrameFacts.
Context `{SplineLib}.

Lemma with_cache_same (m : GriddedPSFModel) :
  with_cache m (_calc_interpolator m) = m.
Proof. destruct m. reflexivity. Qed.

Lemma evaluate_only_cache (m : GriddedPSFModel) (x y : list Q)
    (flux x0 y0 : value) :
  exists c, snd (evaluate m x y flux x0 y0) = with_cache m c.
Proof.
  unfold evaluate.
  destruct (scalar_of flux);
    [|exists (_calc_interpolator m); symmetry; apply with_cache_same].
  destruct (scalar_of x0);
    [|exists (_calc_interpolator m); symmetry; apply with_cache_same].
  destruct (scalar_of y0);
    [|exists (_calc_interpolator m); symmetry; apply with_cache_same].
  destruct (LruCache.call _ _ _) as [[s|e] c]; exists c; reflexivity.
Qed.

(** C9: a call of [evaluate] leaves every field of the model as it was,
    the state of the interpolator cache apart: input bundle, image data and
    its shape, grid positions and axes, oversampling, fill value, and the
    flux, x_0 and y_0 parameters. *)
Theorem evaluate_frame (m : GriddedPSFModel) (x y : list Q)
    (fl x0 y0 : value) :
  let m' := snd (evaluate m x y fl x0 y0) in
  m' = with_cache m (_calc_interpolator m') /\
  _data_input m' = _data_input m /\
  data m' = data m /\
  data_ny m' = data_ny m /\
  data_nx m' = data_nx m /\
  grid_xypos m' = grid_xypos m /\
  _grid_xpos m' = _grid_xpos m /\
  _grid_ypos m' = _grid_ypos m /\
  _xgrid m' = _xgrid m /\
  _ygrid m' = _ygrid m /\
  grid_shape m' = grid_shape m /\
  _xidx m' = _xidx m /\
  _yidx m' = _yidx m /\
  oversampling m' = oversampling m /\
  fill_value m' = fill_value m /\
  flux m' = flux m /\
  x_0 m' = x_0 m /\
  y_0 m' = y_0 m.
Proof.
  intros m'. destruct (evaluate_only_cache m x y fl x0 y0) as [c Hc].
  fold m' in Hc. rewrite Hc. repeat split.
Qed.


(** An empty array has no first element: the indexing raises. *)
Lemma evaluate_empty_array (m : GriddedPSFModel) (x y : list Q)
    (x0 y0 : value) :
  evaluate m x y (Array []) x0 y0 = (Raise IndexError, m).
Proof. reflexivity. Qed.

End FrameFacts.


(** ** The interpolator cache *)

Lemma removelast_length {A} (l : list A) :
  length (removelast l) = (length l - 1)%nat.
Proof.
  induction l as [|a [|b l] IH]; try reflexivity.
  change (removelast (a :: b :: l)) with (a :: removelast (b :: l)).
  simpl length in *. rewrite IH. lia.
Qed.

Lemma lru_remove_length {V} (k : Z * Z) (l : list ((Z * Z) * V)) (v : V) :
  LruCache.lookup k l = Some v ->
  S (length (LruCache.remove k l)) = length l.
Proof.
  induction l as [|[k' v'] l IH]; simpl; [discriminate|].
  destruct (LruCache.key_eqb k k'); [reflexivity|].
  intros E. simpl. f_equal. now apply IH.
Qed.

Lemma lru_call_bounded {V} (n : nat) (f : Z * Z -> result V) (k : Z * Z)
    (c : LruCache.t V) :
  cache_bounded n c -> cache_bounded n (snd (LruCache.call f k c)).
Proof.
  intros [Hm Hl]. unfold LruCache.call.
  destruct (LruCache.lookup k (LruCache.entries c)) as [v|] eqn:E.
  - split; simpl; [exact Hm|].
    rewrite (lru_remove_length k _ v E). exact Hl.
  - destruct (f k) as [v|e]; simpl; [|split; assumption].
    split; simpl; [exact Hm|].
    destruct (Nat.eqb (LruCache.maxsize c) 0) eqn:Z0; [simpl; lia|].
    apply Nat.eqb_neq in Z0.
    destruct (Nat.leb (LruCache.maxsize c) (length (LruCache.entries c)))
      eqn:L.
    + apply Nat.leb_le in L. simpl. rewrite removelast_length. lia.
    + apply Nat.leb_gt in L. simpl. lia.
Qed.

Lemma lru_call_hit {V} (f : Z * Z -> result V) (k : Z * Z)
    (c : LruCache.t V) (v : V) :
  LruCache.lookup k (LruCache.entries c) = Some v ->
  LruCache.call f k c
  = (Ok v, LruCache.mk ((k, v) :: LruCache.remove k (LruCache.entries c))
             (S (LruCache.hits c)) (LruCache.misses c) (LruCache.maxsize c)).
Proof. intros E. unfold LruCache.call. now rewrite E. Qed.

Lemma lru_call_miss_full {V} (f : Z * Z -> result V) (k : Z * Z)
    (c : LruCache.t V) (v : V) :
  LruCache.lookup k (LruCache.entries c) = None ->
  f k = Ok v ->
  LruCache.maxsize c <> 0%nat ->
  length (LruCache.entries c) = LruCache.maxsize c ->
  LruCache.call f k c
  = (Ok v, LruCache.mk ((k, v) :: removelast (LruCache.entries c))
             (LruCache.hits c) (S (LruCache.misses c)) (LruCache.maxsize c)).
Proof.
  intros E Hf Hz Hl. unfold LruCache.call. rewrite E, Hf.
  apply Nat.eqb_neq in Hz. rewrite Hz.
  rewrite Hl, Nat.leb_refl. reflexivity.
Qed.

Lemma lru_lookup_front {V} (k : Z * Z) (v : V) (rest : list ((Z * Z) * V)) :
  LruCache.lookup k ((k, v) :: rest) = Some v.
Proof.
  simpl. unfold LruCache.key_eqb. now rewrite !Z.eqb_refl.
Qed.

Lemma lru_call_miss_room {V} (f : Z * Z -> result V) (k : Z * Z)
    (c : LruCache.t V) (v : V) :
  LruCache.lookup k (LruCache.entries c) = None ->
  f k = Ok v ->
  (length (LruCache.entries c) < LruCache.maxsize c)%nat ->
  LruCache.call f k c
  = (Ok v, LruCache.mk ((k, v) :: LruCache.entries c)
             (LruCache.hits c) (S (LruCache.misses c)) (LruCache.maxsize c)).
Proof.
  intros E Hf Hl. unfold LruCache.call. rewrite E, Hf.
  assert (Z0 : Nat.eqb (LruCache.maxsize c) 0 = false)
    by (apply Nat.eqb_neq; lia).
  assert (L : Nat.leb (LruCache.maxsize c) (length (LruCache.entries c))
              = false) by (apply Nat.leb_gt; lia).
  now rewrite Z0, L.
Qed.

Lemma lru_call_raise {V} (f : Z * Z -> result V) (k : Z * Z)
    (c : LruCache.t V) (e : exn) :
  LruCache.lookup k (LruCache.entries c) = None ->
  f k = Raise e ->
  LruCache.call f k c
  = (Raise e, LruCache.mk (LruCache.entries c) (LruCache.hits c)
                (S (LruCache.misses c)) (LruCache.maxsize c)).
Proof. intros E Hf. unfold LruCache.call. now rewrite E, Hf. Qed.

Section CacheFacts.
Context `{SplineLib}.

Lemma evaluate_cache_bounded (n : nat) (m : GriddedPSFModel)
    (x y : list Q) (fl x0 y0 : value) :
  cache_bounded n (_calc_interpolator m) ->
  cache_bounded n (_calc_interpolator (snd (evaluate m x y fl x0 y0))).
Proof.
  intros Hb. unfold evaluate.
  destruct (scalar_of fl) as [f|]; [|exact Hb].
  destruct (scalar_of x0) as [a|]; [|exact Hb].
  destruct (scalar_of y0) as [b|]; [|exact Hb].
  pose proof (lru_call_bounded n (_calc_interpolator_uncached m)
                (int a, int b) _ Hb) as Hc.
  destruct (LruCache.call _ _ _) as [[s|e] c]; exact Hc.
Qed.

Lemma run_evaluates_cache_bounded (n : nat) (calls : list Call)
    (m : GriddedPSFModel) :
  cache_bounded n (_calc_interpolator m) ->
  cache_bounded n (_calc_interpolator (run_evaluates m calls)).
Proof.
  revert m. induction calls as [|c calls IH]; intros m Hb; [exact Hb|].
  simpl. apply IH, evaluate_cache_bounded, Hb.
Qed.

Lemma init_cache_bounded (nd : NDData) (f x y : Q) (fill : option Q)
    (m : GriddedPSFModel) :
  __init__ nd f x y fill = Ok m -> cache_bounded 128 (_calc_interpolator m).
Proof.
  unfold __init__. destruct (_validate_data nd) as [d|]; simpl;
    [|discriminate].
  destruct (meta_grid_xypos d) as [[|p g]|]; try discriminate;
    destruct (meta_oversampling d) as [[os|os]|]; try discriminate.
  destruct (regular_grid_check (p :: g)); simpl; [|discriminate].
  intros E. inversion E. subst m. split; simpl; [reflexivity|lia].
Qed.

(** C6: after any sequence of [evaluate] calls on a constructed model
    the cache holds at most 128 entries.  A further call goes through the
    cache once, at the key of its integer cell.  When it misses and the
    fit succeeds, the new surface becomes the most recent entry: with
    fewer than 128 entries the cache grows by one, with 128 entries the
    least recently used one is dropped.  When its key is present, the
    stored surface is returned and moved to the front, a hit and no miss
    is counted, and the fit is not run.  A fit that raises stores
    nothing.  After a call that returns, its key is in the cache. *)
Theorem cache_is_bounded_lru (nd : NDData) (f0 a0 b0 : Q)
    (fill : option Q) (m0 : GriddedPSFModel) (calls : list Call) :
  __init__ nd f0 a0 b0 fill = Ok m0 ->
  let m := run_evaluates m0 calls in
  let cache := _calc_interpolator m in
  (length (LruCache.entries cache) <= 128)%nat /\
  (forall (x y : list Q) (fl x0 y0 : Q),
     _calc_interpolator
       (snd (evaluate m x y (Scalar fl) (Scalar x0) (Scalar y0)))
     = snd (LruCache.call (_calc_interpolator_uncached m)
              (int x0, int y0) cache)) /\
  (forall (x y : list Q) (fl x0 y0 : Q) (s : surface),
     LruCache.lookup (int x0, int y0) (LruCache.entries cache) = None ->
     (length (LruCache.entries cache) < 128)%nat ->
     _calc_interpolator_uncached m (int x0, int y0) = Ok s ->
     _calc_interpolator
       (snd (evaluate m x y (Scalar fl) (Scalar x0) (Scalar y0)))
     = LruCache.mk
         (((int x0, int y0), s) :: LruCache.entries cache)
         (LruCache.hits cache) (S (LruCache.misses cache)) 128) /\
  (forall (x y : list Q) (fl x0 y0 : Q) (s : surface),
     LruCache.lookup (int x0, int y0) (LruCache.entries cache) = None ->
     length (LruCache.entries cache) = 128%nat ->
     _calc_interpolator_uncached m (int x0, int y0) = Ok s ->
     _calc_interpolator
       (snd (evaluate m x y (Scalar fl) (Scalar x0) (Scalar y0)))
     = LruCache.mk
         (((int x0, int y0), s) :: removelast (LruCache.entries cache))
         (LruCache.hits cache) (S (LruCache.misses cache)) 128) /\
  (forall (x y : list Q) (fl x0 y0 : Q) (s : surface),
     LruCache.lookup (int x0, int y0) (LruCache.entries cache) = Some s ->
     (forall g,
        LruCache.call g (int x0, int y0) cache
        = LruCache.call (_calc_interpolator_uncached m)
            (int x0, int y0) cache) /\
     fst (LruCache.call (_calc_interpolator_uncached m)
            (int x0, int y0) cache) = Ok s /\
     _calc_interpolator
       (snd (evaluate m x y (Scalar fl) (Scalar x0) (Scalar y0)))
     = LruCache.mk
         (((int x0, int y0), s)
            :: LruCache.remove (int x0, int y0) (LruCache.entries cache))
         (S (LruCache.hits cache)) (LruCache.misses cache) 128) /\
  (forall (x y : list Q) (fl x0 y0 : Q) (e : exn),
     LruCache.lookup (int x0, int y0) (LruCache.entries cache) = None ->
     _calc_interpolator_uncached m (int x0, int y0) = Raise e ->
     fst (evaluate m x y (Scalar fl) (Scalar x0) (Scalar y0)) = Raise e /\
     _calc_interpolator
       (snd (evaluate m x y (Scalar fl) (Scalar x0) (Scalar y0)))
     = LruCache.mk (LruCache.entries cache)
         (LruCache.hits cache) (S (LruCache.misses cache)) 128) /\
  (forall (x y : list Q) (fl x0 y0 : Q) (out : list Q),
     fst (evaluate m x y (Scalar fl) (Scalar x0) (Scalar y0)) = Ok out ->
     exists s,
       fst (LruCache.call (_calc_interpolator_uncached m)
              (int x0, int y0) cache) = Ok s /\
       LruCache.lookup (int x0, int y0)
         (LruCache.entries
            (_calc_interpolator
               (snd (evaluate m x y (Scalar fl) (Scalar x0) (Scalar y0)))))
       = Some s).
Proof.
  intros Hinit m cache.
  assert (Hb : cache_bounded 128 cache).
  { apply run_evaluates_cache_bounded.
    eapply init_cache_bounded. exact Hinit. }
  destruct Hb as [Hmax Hlen]. split; [exact Hlen|].
  split; [|split; [|split; [|split; [|split]]]].
  - intros x y fl x0 y0. rewrite evaluate_model_after. reflexivity.
  - intros x y fl x0 y0 s Hmiss Hroom Hfit.
    rewrite evaluate_model_after. cbn [with_cache _calc_interpolator].
    fold cache.
    rewrite (lru_call_miss_room _ _ cache s Hmiss Hfit) by lia.
    simpl. now rewrite Hmax.
  - intros x y fl x0 y0 s Hmiss Hfull Hfit.
    rewrite evaluate_model_after. cbn [with_cache _calc_interpolator].
    fold cache.
    rewrite (lru_call_miss_full _ _ cache s Hmiss Hfit) by lia.
    simpl. now rewrite Hmax.
  - intros x y fl x0 y0 s Hhit. split; [|split].
    + intros g. now rewrite !(lru_call_hit _ _ cache s Hhit).
    + now rewrite (lru_call_hit _ _ cache s Hhit).
    + rewrite evaluate_model_after. cbn [with_cache _calc_interpolator].
      fold cache. rewrite (lru_call_hit _ _ cache s Hhit).
      simpl. now rewrite Hmax.
  - intros x y fl x0 y0 e Hmiss Hfit. split.
    + unfold evaluate. cbn [scalar_of]. fold cache.
      rewrite (lru_call_raise _ _ cache e Hmiss Hfit). reflexivity.
    + rewrite evaluate_model_after. cbn [with_cache _calc_interpolator].
      fold cache. rewrite (lru_call_raise _ _ cache e Hmiss Hfit).
      simpl. now rewrite Hmax.
  - intros x y fl x0 y0 out Hout.
    destruct (evaluate_ok_surface m x y fl x0 y0 out Hout) as [s Hs].
    exists s. split; [exact Hs|].
    assert (Hnz : LruCache.maxsize (_calc_interpolator m) <> 0%nat)
      by (fold cache; lia).
    destruct (call_front_key _ _ _ s Hnz Hs) as [rest Hr].
    rewrite evaluate_model_after. cbn [with_cache _calc_interpolator].
    rewrite Hr. apply lru_lookup_front.
Qed.

End CacheFacts.

(** After calls at 128 distinct cells the cache is full; a call at a
    new cell then evicts cell (0, 0), the least recently used, and a call
    at a cell still present is a hit that leaves the size unchanged. *)
Lemma cache_is_bounded_lru_witness :
  let m := run_evaluates square_model (cell_calls 128) in
  let after_new :=
    snd (evaluate m [0] [0] (Scalar 1) (Scalar (128 # 1)) (Scalar 0)) in
  let after_old :=
    snd (evaluate m [0] [0] (Scalar 1) (Scalar (5 # 1)) (Scalar 0)) in
  length (LruCache.entries (_calc_interpolator m)) = 128%nat /\
  _cache_info after_new = (0, 129, 128, 128)%nat /\
  LruCache.lookup (0%Z, 0%Z)
    (LruCache.entries (_calc_interpolator after_new)) = None /\
  LruCache.lookup (128%Z, 0%Z)
    (LruCache.entries (_calc_interpolator after_new)) <> None /\
  _cache_info after_old = (1, 128, 128, 128)%nat /\
  LruCache.lookup (5%Z, 0%Z)
    (LruCache.entries (_calc_interpolator after_old)) <> None.
Proof.
  intros m after_new after_old.
  destruct (cache_is_bounded_lru square_nddata 1 0 0 (Some (-7 # 1))
              square_model (cell_calls 128) square_model_init)
    as (_ & _ & _ & Hevict & Hhit & _ & _).
  fold m in Hevict, Hhit.
  assert (Efull : length (LruCache.entries (_calc_interpolator m)) = 128%nat)
    by (vm_compute; reflexivity).
  assert (Enew : _calc_interpolator after_new
                 = LruCache.mk
                     (((128%Z, 0%Z), const_image 3 3 3)
                        :: removelast
                             (LruCache.entries (_calc_interpolator m)))
                     (LruCache.hits (_calc_interpolator m))
                     (S (LruCache.misses (_calc_interpolator m))) 128).
  { apply (Hevict [0] [0] 1 (128 # 1) 0 (const_image 3 3 3)).
    - vm_compute. reflexivity.
    - exact Efull.
    - vm_compute. reflexivity. }
  assert (Eold : _calc_interpolator after_old
                 = LruCache.mk
                     (((5%Z, 0%Z), const_image 3 3 (200 # 100))
                        :: LruCache.remove (5%Z, 0%Z)
                             (LruCache.entries (_calc_interpolator m)))
                     (S (LruCache.hits (_calc_interpolator m)))
                     (LruCache.misses (_calc_interpolator m)) 128).
  { apply (Hhit [0] [0] 1 (5 # 1) 0 (const_image 3 3 (200 # 100))).
    vm_compute. reflexivity. }
  split; [exact Efull|].
  unfold _cache_info. rewrite Enew, Eold.
  repeat split; try (vm_compute; reflexivity);
    vm_compute; discriminate.
Defined.

(** After 130 distinct cells the cache holds 128 surfaces: the two
    oldest cells are gone and the third is kept. *)
Example cache_after_130_cells :
  let c := _calc_interpolator (run_evaluates square_model (cell_calls 130)) in
  Nat.eqb (length (LruCache.entries c)) 128
  && Nat.eqb (LruCache.misses c) 130
  && match LruCache.lookup (0%Z, 0%Z) (LruCache.entries c) with
     | None => true | Some _ => false end
  && match LruCache.lookup (1%Z, 0%Z) (LruCache.entries c) with
     | None => true | Some _ => false end
  && match LruCache.lookup (2%Z, 0%Z) (LruCache.entries c) with
     | None => false | Some _ => true end
  = true.
Proof. vm_compute. reflexivity. Qed.

(** ** The grid check of the constructor *)

(** C2: the constructor accepts the four positions (0,0), (0,0), (1,1),
    (1,1): the product of their axes has four points, as many as there are
    positions, although the corners (0,1) and (1,0) are absent; the
    accepted model then raises ValueError when evaluated inside its
    span. *)
Theorem init_accepts_incomplete_grid :
  __init__ diagonal_nddata 1 0 0 (Some (-7 # 1)) = Ok diagonal_model /\
  ~ complete_grid (grid_xypos diagonal_model) /\
  fst (evaluate diagonal_model [0] [0]
         (Scalar 1) (Scalar (1 # 2)) (Scalar (1 # 2)))
  = Raise ValueError.
Proof.
  split; [exact diagonal_model_init|]. split; [|vm_compute; reflexivity].
  intros C. destruct (C (0, 1)) as ([qx qy] & Hin & Hx & Hy).
  - simpl. right. left. reflexivity.
  - simpl in Hin, Hx, Hy.
    destruct Hin as [E|[E|[E|[E|[]]]]]; inversion E; subst;
      unfold Qeq in *; simpl in *; lia.
Qed.

(** ** The start index of the locator *)

Lemma searchsorted_le_length (data : list Q) (x : Q) :
  (searchsorted data x <= length data)%nat.
Proof.
  induction data as [|d data IH]; simpl; [lia|].
  destruct (Qltb d x); lia.
Qed.

Lemma searchsorted_all_below (data : list Q) (x : Q) :
  searchsorted data x = length data -> forall d, In d data -> d < x.
Proof.
  induction data as [|d data IH]; simpl; [tauto|].
  destruct (Qltb d x) eqn:E; [|discriminate].
  intros El g [<-|Hg]; [now apply Qltb_true|].
  apply IH; [lia|exact Hg].
Qed.

(** On an axis of two or more values, a query not above the last value
    gets a start index [i0] with both [i0] and [i0 + 1] in range. *)
Lemma find_start_idx_in_range (data : list Q) (x hi : Q) :
  (2 <= length data)%nat ->
  getlast data = Ok hi -> x <= hi ->
  valid_index data (_find_start_idx data x) /\
  valid_index data (_find_start_idx data x + 1).
Proof.
  intros Hlen Hlast Hx. unfold valid_index, _find_start_idx.
  pose proof (searchsorted_le_length data x) as Hle.
  destruct (Nat.eqb (searchsorted data x) 0) eqn:E0; [lia|].
  apply Nat.eqb_neq in E0.
  destruct (Nat.eqb (searchsorted data x) (length data)) eqn:El.
  - apply Nat.eqb_eq in El. exfalso.
    assert (In hi data).
    { unfold getlast in Hlast. destruct (rev data) eqn:Er; [discriminate|].
      inversion Hlast. subst. apply in_rev. rewrite Er. now left. }
    pose proof (searchsorted_all_below data x El hi H). lra.
  - apply Nat.eqb_neq in El. lia.
Qed.

(** C8: on the model of a single column of two samples the query
    (0, 5) is inside the span and takes the four-point branch; its start
    index on the x axis is 0, the axis has one value, so index 1 is not
    valid; the locator yields two samples, and the blend raises
    ValueError. *)
Theorem single_column_locator :
  __init__ column_nddata 1 0 0 (Some (-7 # 1)) = Ok column_model /\
  outside_grid column_model 0 (5 # 1) = Ok false /\
  _find_start_idx (_xgrid column_model) 0 = 0%Z /\
  ~ valid_index (_xgrid column_model)
      (_find_start_idx (_xgrid column_model) 0 + 1) /\
  _find_bounding_points column_model 0 (5 # 1) = Ok [0%nat; 1%nat] /\
  local_psf_image column_model 0 (5 # 1) = Raise ValueError /\
  fst (evaluate column_model [0] [0] (Scalar 1) (Scalar 0) (Scalar (5 # 1)))
  = Raise ValueError.
Proof.
  split; [exact column_model_init|].
  repeat split; try (vm_compute; reflexivity).
  unfold valid_index. vm_compute. intros [_ C]. discriminate.
Qed.

(** ** What the constructor accepts *)

Lemma product_length {A B} (xs : list A) (ys : list B) :
  length (product xs ys) = (length xs * length ys)%nat.
Proof.
  unfold product. induction xs as [|x xs IH]; simpl; [reflexivity|].
  now rewrite length_app, length_map, IH.
Qed.

Lemma in_product {A B} (xs : list A) (ys : list B) (a : A) (b : B) :
  In (a, b) (product xs ys) <-> In a xs /\ In b ys.
Proof.
  unfold product. rewrite in_flat_map. split.
  - intros (x & Hx & Hin). apply in_map_iff in Hin.
    destruct Hin as (y & E & Hy). inversion E. subst. now split.
  - intros [Ha Hb]. exists a. split; [exact Ha|].
    apply in_map_iff. now exists b.
Qed.

Section AcceptFacts.
Context `{SplineLib}.

Lemma init_accepted (nd : NDData) (f x y : Q) (fill : option Q) :
  accepted nd -> exists m, __init__ nd f x y fill = Ok m.
Proof.
  intros (g & os & Eg & Hne & El & Eo & Ep).
  unfold __init__, _validate_data. rewrite Eg.
  apply Nat.eqb_eq in El. rewrite El. simpl. rewrite Eo. simpl.
  rewrite Eg, Eo. destruct g as [|p g]; [congruence|].
  unfold regular_grid_check. rewrite product_length, Ep, Nat.eqb_refl.
  simpl. eexists. reflexivity.
Qed.

Lemma init_not_accepted (nd : NDData) (f x y : Q) (fill : option Q) :
  ~ accepted nd -> __init__ nd f x y fill = Raise ValueError.
Proof.
  intros Hn. unfold __init__, _validate_data.
  destruct (meta_grid_xypos nd) as [g|] eqn:Eg; [|reflexivity].
  destruct (Nat.eqb (length g) (length (nd_data nd))) eqn:El;
    [|reflexivity].
  simpl. destruct (meta_oversampling nd) as [[os|os]|] eqn:Eo;
    try reflexivity.
  simpl. rewrite Eg, Eo. destruct g as [|p g]; [reflexivity|].
  destruct (regular_grid_check (p :: g)) eqn:Er; [|reflexivity].
  exfalso. apply Hn. exists (p :: g), os.
  apply Nat.eqb_eq in El. unfold regular_grid_check in Er.
  apply Nat.eqb_eq in Er. rewrite product_length in Er.
  repeat split; auto. discriminate.
Qed.

Lemma init_ok_accepted (nd : NDData) (f x y : Q) (fill : option Q)
    (m : GriddedPSFModel) :
  __init__ nd f x y fill = Ok m -> accepted nd.
Proof.
  intros E. destruct (meta_grid_xypos nd) as [g|] eqn:Eg.
  2:{ unfold __init__, _validate_data in E. rewrite Eg in E. discriminate. }
  unfold __init__, _validate_data in E. rewrite Eg in E.
  destruct (Nat.eqb (length g) (length (nd_data nd))) eqn:El;
    [|discriminate].
  simpl in E. destruct (meta_oversampling nd) as [[os|os]|] eqn:Eo;
    try discriminate.
  simpl in E. rewrite Eg, Eo in E. destruct g as [|p g]; [discriminate|].
  destruct (regular_grid_check (p :: g)) eqn:Er; [|discriminate].
  exists (p :: g), os. apply Nat.eqb_eq in El.
  unfold regular_grid_check in Er. apply Nat.eqb_eq in Er.
  rewrite product_length in Er. repeat split; auto. discriminate.
Qed.

(** X1: the constructor returns a model exactly when the bundle has a
    non-empty [grid_xypos] as long as the stack of images, a scalar
    [oversampling], and as many positions as the product of the numbers
    of distinct x and y values; in every other case it raises ValueError,
    whatever the parameters and the fill value. *)
Theorem init_succeeds_iff_accepted (nd : NDData) (f x y : Q)
    (fill : option Q) :
  ((exists m, __init__ nd f x y fill = Ok m) <-> accepted nd) /\
  (~ accepted nd -> __init__ nd f x y fill = Raise ValueError).
Proof.
  split; [split|].
  - intros [m E]. exact (init_ok_accepted nd f x y fill m E).
  - apply init_accepted.
  - apply init_not_accepted.
Qed.

End AcceptFacts.

Lemma init_succeeds_iff_accepted_witness :
  @__init__ SampleSpline
    {| nd_data := [const_image 3 3 1];
       nd_ny := 3; nd_nx := 3;
       meta_grid_xypos := Some [(0, 0); (1, 0)];
       meta_oversampling := Some (Scalar 1) |} 1 0 0 None
  = Raise ValueError.
Proof.
  apply (proj2 (@init_succeeds_iff_accepted SampleSpline _ 1 0 0 None)).
  intros (g & os & Eg & _ & El & _). simpl in Eg, El.
  inversion Eg. subst. discriminate.
Defined.

(** ** The axes of a constructed model *)

Lemma insert_unique_in (a g : Q) (l : list Q) :
  In g (insert_unique a l) -> g = a \/ In g l.
Proof.
  induction l as [|b l IH]; simpl.
  - intros [<-|[]]. now left.
  - destruct (Qeq_bool a b); [intros Hin; now right|].
    destruct (Qle_bool a b).
    + intros [<-|Hin]; [now left|now right].
    + intros [<-|Hin]; [right; now left|].
      destruct (IH Hin) as [->|Hl]; [now left|right; now right].
Qed.

Lemma insert_unique_covers (a : Q) (l : list Q) :
  (exists g, In g (insert_unique a l) /\ g == a) /\
  (forall b, In b l -> In b (insert_unique a l)).
Proof.
  induction l as [|b l [IHa IHl]]; simpl.
  - split; [exists a; split; [now left|reflexivity]|tauto].
  - destruct (Qeq_bool a b) eqn:E.
    + qprop. split; [|intros c Hc; exact Hc].
      exists b. split; [now left|lra].
    + destruct (Qle_bool a b).
      * split; [exists a; split; [now left|reflexivity]|].
        intros c Hc. now right.
      * split.
        -- destruct IHa as (g & Hg & Eg). exists g. split; [now right|exact Eg].
        -- intros c [<-|Hc]; [now left|right; now apply IHl].
Qed.

Lemma insert_unique_sorted (a : Q) (l : list Q) :
  StronglySorted Qlt l -> StronglySorted Qlt (insert_unique a l).
Proof.
  induction 1 as [|b l Hs IH Hb]; simpl.
  - repeat constructor.
  - destruct (Qeq_bool a b) eqn:E; [now constructor|].
    destruct (Qle_bool a b) eqn:L; qprop.
    + assert (a < b) by (apply Qle_lteq in L; destruct L; [assumption|contradiction]).
      constructor; [now constructor|].
      constructor; [assumption|].
      eapply Forall_impl; [|exact Hb]. intros c Hc. simpl in Hc. lra.
    + constructor; [exact IH|].
      apply Forall_forall. intros g Hg.
      destruct (insert_unique_in a g l Hg) as [->|Hl]; [exact L|].
      rewrite Forall_forall in Hb. now apply Hb.
Qed.

Lemma unique_sorted (l : list Q) : StronglySorted Qlt (unique l).
Proof.
  induction l as [|a l IH]; simpl; [constructor|].
  now apply insert_unique_sorted.
Qed.

Lemma unique_in (l : list Q) (g : Q) : In g (unique l) -> In g l.
Proof.
  induction l as [|a l IH]; simpl; [tauto|].
  intros Hin. destruct (insert_unique_in a g _ Hin) as [->|Hl];
    [now left|right; now apply IH].
Qed.

Lemma unique_covers (l : list Q) (a : Q) :
  In a l -> exists g, In g (unique l) /\ g == a.
Proof.
  induction l as [|b l IH]; simpl; [tauto|].
  destruct (insert_unique_covers b (unique l)) as [Hb Hl].
  intros [<-|Ha]; [exact Hb|].
  destruct (IH Ha) as (g & Hg & Eg). exists g. split; [now apply Hl|exact Eg].
Qed.

Section AxisFacts.
Context `{SplineLib}.

Lemma wf_axes (m : GriddedPSFModel) :
  wf_model m ->
  StronglySorted Qlt (_xgrid m) /\ StronglySorted Qlt (_ygrid m).
Proof.
  intros (_ & _ & _ & Ex & Ey & _). rewrite Ex, Ey.
  split; apply unique_sorted.
Qed.

(** X2: the axes of a constructed model are strictly ascending; every
    axis value is the coordinate of some grid position, and every grid
    position has its x on the x axis and its y on the y axis. *)
Theorem init_axes (nd : NDData) (f x y : Q) (fill : option Q)
    (m : GriddedPSFModel) :
  __init__ nd f x y fill = Ok m ->
  StronglySorted Qlt (_xgrid m) /\
  StronglySorted Qlt (_ygrid m) /\
  (forall g, In g (_xgrid m) -> exists p, In p (grid_xypos m) /\ fst p = g) /\
  (forall g, In g (_ygrid m) -> exists p, In p (grid_xypos m) /\ snd p = g) /\
  (forall p, In p (grid_xypos m) ->
     (exists g, In g (_xgrid m) /\ g == fst p) /\
     (exists g, In g (_ygrid m) /\ g == snd p)).
Proof.
  intros E. pose proof (init_wf nd f x y fill m E) as W.
  destruct (wf_axes m W) as [Sx Sy].
  destruct W as (_ & Ex & Ey & Eux & Euy & _).
  split; [exact Sx|]. split; [exact Sy|].
  rewrite Eux, Euy, Ex, Ey. split; [|split].
  - intros g Hg. apply unique_in, in_map_iff in Hg.
    destruct Hg as (p & Ep & Hp). now exists p.
  - intros g Hg. apply unique_in, in_map_iff in Hg.
    destruct Hg as (p & Ep & Hp). now exists p.
  - intros p Hp. split; apply unique_covers, in_map, Hp.
Qed.

End AxisFacts.

Lemma init_axes_witness :
  StronglySorted Qlt (_xgrid square_model) /\
  StronglySorted Qlt (_ygrid square_model).
Proof.
  destruct (init_axes square_nddata 1 0 0 (Some (-7 # 1)) square_model
              square_model_init) as (Sx & Sy & _).
  split; [exact Sx|exact Sy].
Defined.

(** ** The start index brackets the query *)

Lemma searchsorted_before (data : list Q) (x : Q) (j : nat) :
  (j < searchsorted data x)%nat -> nth j data 0 < x.
Proof.
  revert j. induction data as [|d data IH]; simpl; intros j Hj; [lia|].
  destruct (Qltb d x) eqn:E; [|lia].
  destruct j as [|j]; [now apply Qltb_true|].
  apply IH. lia.
Qed.

Lemma searchsorted_at (data : list Q) (x : Q) :
  (searchsorted data x < length data)%nat ->
  x <= nth (searchsorted data x) data 0.
Proof.
  induction data as [|d data IH]; simpl; intros Hl; [lia|].
  destruct (Qltb d x) eqn:E.
  - apply IH. lia.
  - now apply Qltb_false.
Qed.

Lemma sorted_nth_lt (data : list Q) (i j : nat) :
  StronglySorted Qlt data -> (i < j)%nat -> (j < length data)%nat ->
  nth i data 0 < nth j data 0.
Proof.
  intros Hs. revert i j.
  induction Hs as [|d data Hs IH Hd]; simpl; intros i j Hij Hj; [lia|].
  destruct j as [|j]; [lia|].
  destruct i as [|i].
  - rewrite Forall_forall in Hd. apply Hd, nth_In. lia.
  - apply IH; lia.
Qed.

Lemma getlast_nth {A} (l : list A) (a d : A) :
  getlast l = Ok a -> a = nth (length l - 1) l d.
Proof.
  unfold getlast. destruct (rev l) as [|b r] eqn:E; [discriminate|].
  intros E'. inversion E'. subst b.
  apply (f_equal (@rev A)) in E. rewrite rev_involutive in E. subst l.
  simpl. rewrite length_app. simpl.
  rewrite app_nth2 by lia.
  replace (length (rev r) + 1 - 1 - length (rev r))%nat with 0%nat by lia.
  reflexivity.
Qed.

Lemma find_start_idx_valid (data : list Q) (x : Q) :
  (2 <= length data)%nat ->
  valid_index data (_find_start_idx data x) /\
  valid_index data (_find_start_idx data x + 1).
Proof.
  intros Hlen. unfold valid_index, _find_start_idx.
  pose proof (searchsorted_le_length data x) as Hle.
  destruct (Nat.eqb (searchsorted data x) 0) eqn:E0; [lia|].
  apply Nat.eqb_neq in E0.
  destruct (Nat.eqb (searchsorted data x) (length data)) eqn:El.
  - apply Nat.eqb_eq in El. lia.
  - apply Nat.eqb_neq in El. lia.
Qed.

Lemma find_start_idx_bracket (data : list Q) (x lo hi : Q) :
  StronglySorted Qlt data -> (2 <= length data)%nat ->
  getitem data 0 = Ok lo -> getlast data = Ok hi -> lo <= x <= hi ->
  axis_at data (_find_start_idx data x) <= x /\
  x <= axis_at data (_find_start_idx data x + 1) /\
  axis_at data (_find_start_idx data x)
  < axis_at data (_find_start_idx data x + 1).
Proof.
  intros Hs Hlen Hlo Hhi [Hx0 Hx1].
  pose proof (searchsorted_le_length data x) as Hle.
  assert (Elo : lo = nth 0 data 0).
  { destruct data; simpl in *; [discriminate|]. now inversion Hlo. }
  pose proof (getlast_nth data hi 0 Hhi) as Ehi.
  assert (Hidx : (searchsorted data x < length data)%nat).
  { destruct (Nat.eq_dec (searchsorted data x) (length data)) as [E|E];
      [|lia].
    exfalso.
    assert (nth (length data - 1) data 0 < x)
      by (apply searchsorted_before; lia).
    rewrite <- Ehi in H. lra. }
  pose proof (searchsorted_at data x Hidx) as Hat.
  unfold axis_at, _find_start_idx.
  destruct (Nat.eqb (searchsorted data x) 0) eqn:E0.
  - apply Nat.eqb_eq in E0. rewrite E0 in Hat.
    change (Z.to_nat 0) with 0%nat. change (Z.to_nat (0 + 1)) with 1%nat.
    assert (nth 0 data 0 < nth 1 data 0) by (apply sorted_nth_lt; auto; lia).
    subst lo. repeat split; lra.
  - apply Nat.eqb_neq in E0.
    destruct (Nat.eqb (searchsorted data x) (length data)) eqn:El;
      [apply Nat.eqb_eq in El; lia|].
    replace (Z.to_nat (Z.of_nat (searchsorted data x) - 1))
      with (searchsorted data x - 1)%nat by lia.
    replace (Z.to_nat (Z.of_nat (searchsorted data x) - 1 + 1))
      with (searchsorted data x) by lia.
    assert (nth (searchsorted data x - 1) data 0 < x)
      by (apply searchsorted_before; lia).
    repeat split; lra.
Qed.

(** X3: on a strictly ascending axis of two or more values,
    [_find_start_idx] returns, for every query, an index [i0] with [i0]
    and [i0 + 1] inside the axis; for a query within the span of the axis
    the two values bracket it: axis[i0] <= x <= axis[i0 + 1]. *)
Theorem find_start_idx_brackets (data : list Q) (x : Q) :
  StronglySorted Qlt data -> (2 <= length data)%nat ->
  valid_index data (_find_start_idx data x) /\
  valid_index data (_find_start_idx data x + 1) /\
  (forall lo hi,
     getitem data 0 = Ok lo -> getlast data = Ok hi -> lo <= x <= hi ->
     axis_at data (_find_start_idx data x) <= x <= 
     axis_at data (_find_start_idx data x + 1)).
Proof.
  intros Hs Hlen.
  destruct (find_start_idx_valid data x Hlen) as [V0 V1].
  split; [exact V0|]. split; [exact V1|].
  intros lo hi Hlo Hhi Hx.
  destruct (find_start_idx_bracket data x lo hi Hs Hlen Hlo Hhi Hx)
    as (B0 & B1 & _).
  split; assumption.
Qed.

Lemma find_start_idx_brackets_witness :
  axis_at [0; 10 # 1; 30 # 1] (_find_start_idx [0; 10 # 1; 30 # 1] (30 # 1))
  <= 30 # 1
  <= axis_at [0; 10 # 1; 30 # 1]
       (_find_start_idx [0; 10 # 1; 30 # 1] (30 # 1) + 1).
Proof.
  assert (S : StronglySorted Qlt [0; 10 # 1; 30 # 1]).
  { repeat constructor. }
  destruct (find_start_idx_brackets [0; 10 # 1; 30 # 1] (30 # 1) S)
    as (_ & _ & B).
  - simpl. lia.
  - apply (B 0 (30 # 1)); [reflexivity|reflexivity|].
    split; unfold Qle; simpl; lia.
Defined.

(** ** The bounding samples on a complete grid *)

Lemma firstn_skipn_pair {A} (l : list A) (n : nat) (d : A) :
  (S n < length l)%nat ->
  firstn 2 (skipn n l) = [nth n l d; nth (S n) l d].
Proof.
  revert l. induction n as [|n IH]; intros l Hn.
  - destruct l as [|a [|b l]]; simpl in *; try lia. reflexivity.
  - destruct l as [|a l]; simpl in *; [lia|].
    apply IH. lia.
Qed.

Lemma slice_pair (axis : list Q) (i : Z) :
  valid_index axis i -> valid_index axis (i + 1) ->
  slice axis i (i + 2) = [axis_at axis i; axis_at axis (i + 1)].
Proof.
  unfold valid_index, slice, slice_bound, axis_at. intros V0 V1.
  destruct (i <? 0)%Z eqn:E0; [apply Z.ltb_lt in E0; lia|].
  destruct (i + 2 <? 0)%Z eqn:E2; [apply Z.ltb_lt in E2; lia|].
  rewrite !Nat.min_r by lia.
  replace (Z.to_nat (i + 2) - Z.to_nat i)%nat with 2%nat by lia.
  replace (Z.to_nat (i + 1)) with (S (Z.to_nat i)) by lia.
  apply firstn_skipn_pair. lia.
Qed.

Lemma hypot2_zero (a b : Q) : hypot2 a b <= 0 -> a == 0 /\ b == 0.
Proof.
  unfold hypot2. intros Hle.
  assert (Ha : 0 <= a * a) by nra.
  assert (Hb : 0 <= b * b) by nra.
  assert (Ea : a * a == 0) by lra.
  assert (Eb : b * b == 0) by lra.
  apply Qmult_integral in Ea, Eb. split; tauto.
Qed.

Section CornerFacts.
Context `{SplineLib}.

Lemma wf_position (m : GriddedPSFModel) (i : nat) :
  wf_model m ->
  nth i (_grid_xpos m) 0 = fst (position m i) /\
  nth i (_grid_ypos m) 0 = snd (position m i).
Proof.
  intros (_ & Ex & Ey & _). unfold position. rewrite Ex, Ey.
  split.
  - change 0 with (fst (0, 0)) at 1. apply map_nth.
  - change 0 with (snd (0, 0)) at 1. apply map_nth.
Qed.

Lemma nearest_index_on_sample (m : GriddedPSFModel) (x y : Q) :
  wf_model m ->
  (exists q, In q (grid_xypos m) /\ pos_eq q (x, y)) ->
  exists i,
    nearest_index m x y = Ok i /\
    (i < length (grid_xypos m))%nat /\
    pos_eq (position m i) (x, y).
Proof.
  intros W (q & Hq & Ex & Ey). simpl in Ex, Ey.
  destruct (nearest_index_min m x y W) as (i & Ei & Hi & Hmin).
  exists i. split; [exact Ei|]. split; [exact Hi|].
  destruct (In_nth _ _ (0, 0) Hq) as (j & Hj & Ej).
  specialize (Hmin j Hj). unfold dist2 in Hmin.
  destruct (wf_position m i W) as [Pix Piy].
  destruct (wf_position m j W) as [Pjx Pjy].
  rewrite Pix, Piy, Pjx, Pjy in Hmin. unfold position in Hmin at 3 4.
  rewrite Ej in Hmin.
  assert (Hz : hypot2 (fst q - x) (snd q - y) == 0)
    by (unfold hypot2; rewrite Ex, Ey; ring).
  rewrite Hz in Hmin.
  destruct (hypot2_zero _ _ Hmin) as [Zx Zy].
  split; simpl; lra.
Qed.

Lemma bounding_points_corners (m : GriddedPSFModel) (x y : Q) :
  wf_model m -> complete_grid (grid_xypos m) ->
  (2 <= length (_xgrid m))%nat -> (2 <= length (_ygrid m))%nat ->
  let i0 := _find_start_idx (_xgrid m) x in
  let j0 := _find_start_idx (_ygrid m) y in
  exists a b c d,
    _find_bounding_points m x y = Ok [a; b; c; d] /\
    Forall (fun i => (i < length (grid_xypos m))%nat) [a; b; c; d] /\
    pos_eq (position m a) (axis_at (_xgrid m) i0, axis_at (_ygrid m) j0) /\
    pos_eq (position m b)
      (axis_at (_xgrid m) i0, axis_at (_ygrid m) (j0 + 1)) /\
    pos_eq (position m c)
      (axis_at (_xgrid m) (i0 + 1), axis_at (_ygrid m) j0) /\
    pos_eq (position m d)
      (axis_at (_xgrid m) (i0 + 1), axis_at (_ygrid m) (j0 + 1)).
Proof.
  intros W C Lx Ly i0 j0.
  destruct (find_start_idx_valid (_xgrid m) x Lx) as [Vx0 Vx1].
  destruct (find_start_idx_valid (_ygrid m) y Ly) as [Vy0 Vy1].
  fold i0 in Vx0, Vx1. fold j0 in Vy0, Vy1.
  assert (Hin : forall (i j : Z),
             valid_index (_xgrid m) i -> valid_index (_ygrid m) j ->
             exists q, In q (grid_xypos m) /\
                       pos_eq q (axis_at (_xgrid m) i, axis_at (_ygrid m) j)).
  { intros i j Vi Vj. apply C.
    destruct W as (_ & Ex & Ey & Eux & Euy & _).
    rewrite <- Ex, <- Ey, <- Eux, <- Euy.
    apply in_product. unfold valid_index in Vi, Vj.
    split; apply nth_In; lia. }
  destruct (nearest_index_on_sample m _ _ W (Hin i0 j0 Vx0 Vy0))
    as (a & Ea & La & Pa).
  destruct (nearest_index_on_sample m _ _ W (Hin i0 (j0 + 1)%Z Vx0 Vy1))
    as (b & Eb & Lb & Pb).
  destruct (nearest_index_on_sample m _ _ W (Hin (i0 + 1)%Z j0 Vx1 Vy0))
    as (c & Ec & Lc & Pc).
  destruct (nearest_index_on_sample m _ _ W
              (Hin (i0 + 1)%Z (j0 + 1)%Z Vx1 Vy1))
    as (d & Ed & Ld & Pd).
  exists a, b, c, d. split.
  - unfold _find_bounding_points. fold i0 j0.
    rewrite (slice_pair _ i0 Vx0 Vx1), (slice_pair _ j0 Vy0 Vy1).
    simpl. rewrite Ea. simpl. rewrite Eb. simpl. rewrite Ec. simpl.
    rewrite Ed. reflexivity.
  - split; [repeat constructor; assumption|].
    split; [exact Pa|]. split; [exact Pb|]. split; [exact Pc|exact Pd].
Qed.

(** X4: on a model whose grid positions cover the whole product of its
    axes, each axis having two or more values, [_find_bounding_points]
    returns four sample indices, and the samples sit, in this order, on the
    corners (X[i0], Y[j0]), (X[i0], Y[j0+1]), (X[i0+1], Y[j0]),
    (X[i0+1], Y[j0+1]) of the cell found by [_find_start_idx]. *)
Theorem find_bounding_points_corners (m : GriddedPSFModel) (x y : Q) :
  wf_model m -> complete_grid (grid_xypos m) ->
  (2 <= length (_xgrid m))%nat -> (2 <= length (_ygrid m))%nat ->
  let i0 := _find_start_idx (_xgrid m) x in
  let j0 := _find_start_idx (_ygrid m) y in
  exists a b c d,
    _find_bounding_points m x y = Ok [a; b; c; d] /\
    Forall (fun i => (i < length (grid_xypos m))%nat) [a; b; c; d] /\
    pos_eq (position m a) (axis_at (_xgrid m) i0, axis_at (_ygrid m) j0) /\
    pos_eq (position m b)
      (axis_at (_xgrid m) i0, axis_at (_ygrid m) (j0 + 1)) /\
    pos_eq (position m c)
      (axis_at (_xgrid m) (i0 + 1), axis_at (_ygrid m) j0) /\
    pos_eq (position m d)
      (axis_at (_xgrid m) (i0 + 1), axis_at (_ygrid m) (j0 + 1)).
Proof. exact (bounding_points_corners m x y). Qed.

End CornerFacts.

(** ** The local image inside the grid *)

Lemma tuple_lt_intro (p q : Q * Q) :
  fst p < fst q \/ (fst p == fst q /\ snd p < snd q) ->
  tuple_leb p q = true /\ tuple_leb q p = false.
Proof.
  intros Hlt. unfold tuple_leb.
  destruct (Qeq_bool (fst p) (fst q)) eqn:E1,
           (Qeq_bool (fst q) (fst p)) eqn:E2; qprop.
  - split; qbool; destruct Hlt as [Hlt|[_ Hlt]]; lra.
  - exfalso. apply E2. lra.
  - exfalso. apply E1. lra.
  - split; qbool; destruct Hlt as [Hlt|[Hlt _]]; try lra; contradiction.
Qed.

Lemma blend_pixel (h w : nat) (i00 i01 i10 i11 : image)
    (w00 w01 w10 w11 n : Q) (r c : nat) :
  has_shape h w i00 -> has_shape h w i01 ->
  has_shape h w i10 -> has_shape h w i11 ->
  (r < h)%nat -> (c < w)%nat ->
  pixel (img_div
           (img_add
              (img_add (img_add (img_scale i00 w00) (img_scale i01 w01))
                       (img_scale i10 w10))
              (img_scale i11 w11)) n) r c
  = (pixel i00 r c * w00 + pixel i01 r c * w01 + pixel i10 r c * w10
     + pixel i11 r c * w11) / n.
Proof.
  intros S00 S01 S10 S11 Hr Hc.
  assert (Sc : forall a k, has_shape h w a -> has_shape h w (img_scale a k))
    by (intros; now apply has_shape_map).
  unfold img_div.
  rewrite (pixel_map h w) by (repeat apply has_shape_add; auto).
  rewrite !(pixel_add h w) by (repeat apply has_shape_add; auto).
  unfold img_scale. rewrite !(pixel_map h w) by auto.
  reflexivity.
Qed.

Lemma blend_shape (h w : nat) (i00 i01 i10 i11 : image)
    (w00 w01 w10 w11 n : Q) :
  has_shape h w i00 -> has_shape h w i01 ->
  has_shape h w i10 -> has_shape h w i11 ->
  has_shape h w
    (img_div
       (img_add
          (img_add (img_add (img_scale i00 w00) (img_scale i01 w01))
                   (img_scale i10 w10))
          (img_scale i11 w11)) n).
Proof.
  intros S00 S01 S10 S11.
  apply has_shape_map. repeat apply has_shape_add;
    now apply has_shape_map.
Qed.

(** [_bilinear_interp] on four positions given in corner order. *)
Lemma bilinear_interp_sorted_corners (X0 Y0 X1 Y1 x y : Q)
    (p0 p1 p2 p3 : Q * Q) (i0 i1 i2 i3 : image) :
  rect_corners_of X0 Y0 X1 Y1 [p0; p1; p2; p3] ->
  X0 < X1 -> Y0 < Y1 -> X0 <= x <= X1 -> Y0 <= y <= Y1 ->
  _bilinear_interp [p0; p1; p2; p3] [i0; i1; i2; i3] (Scalar x) (Scalar y)
  = Ok (img_div
          (img_add
             (img_add
                (img_add
                   (img_scale i0 ((fst p2 - x) * (snd p1 - y)))
                   (img_scale i1 ((fst p2 - x) * (y - snd p0))))
                (img_scale i2 ((x - fst p0) * (snd p1 - y))))
             (img_scale i3 ((x - fst p0) * (y - snd p0))))
          ((fst p2 - fst p0) * (snd p1 - snd p0))).
Proof.
  intros HR Hx Hy [Hx0 Hx1] [Hy0 Hy1].
  unfold rect_corners_of in HR.
  inversion HR as [|? ? ? ? P0 HR1]; subst.
  inversion HR1 as [|? ? ? ? P1 HR2]; subst.
  inversion HR2 as [|? ? ? ? P2 HR3]; subst.
  inversion HR3 as [|? ? ? ? P3 _]; subst.
  destruct p0 as [a0 b0], p1 as [a1 b1], p2 as [a2 b2], p3 as [a3 b3].
  destruct P0 as [P0x P0y], P1 as [P1x P1y], P2 as [P2x P2y],
           P3 as [P3x P3y].
  simpl in *.
  assert (HS : StronglySorted (key_lt tuple_leb fst)
                 (combine [(a0, b0); (a1, b1); (a2, b2); (a3, b3)]
                          [i0; i1; i2; i3])).
  { simpl. repeat (constructor; [|repeat constructor]);
      repeat constructor; apply tuple_lt_intro; simpl;
      first [left; lra | right; split; lra]. }
  destruct (bilinear_sorts_agree
              [(a0, b0); (a1, b1); (a2, b2); (a3, b3)] [i0; i1; i2; i3]
              eq_refl) as [E1 E2].
  rewrite (sorted_of_strict tuple_leb fst tuple_leb_total tuple_leb_trans
             _ _ HS (Permutation_refl _)) in E1, E2.
  unfold _bilinear_interp. rewrite E1, E2. simpl.
  assert (Q1 : Qeq_bool a0 a1 = true) by (qbool; lra).
  assert (Q2 : Qeq_bool a2 a3 = true) by (qbool; lra).
  assert (Q3 : Qeq_bool b0 b2 = true) by (qbool; lra).
  assert (Q4 : Qeq_bool b1 b3 = true) by (qbool; lra).
  rewrite Q1, Q2, Q3, Q4. simpl.
  assert (A1 : Qle_bool a0 x = true) by (qbool; lra).
  assert (A2 : Qle_bool x a2 = true) by (qbool; lra).
  assert (A3 : Qle_bool b0 y = true) by (qbool; lra).
  assert (A4 : Qle_bool y b1 = true) by (qbool; lra).
  rewrite A1, A2, A3, A4. reflexivity.
Qed.

Section InteriorFacts.
Context `{SplineLib}.

Lemma outside_grid_in_span (m : GriddedPSFModel) (x y : Q) :
  in_span m x y -> outside_grid m x y = Ok false.
Proof.
  intros (xlo & xhi & ylo & yhi & E1 & E2 & E3 & E4 & [Hx0 Hx1] & [Hy0 Hy1]).
  unfold outside_grid. rewrite E1. simpl.
  assert (C1 : Qltb x xlo = false) by (qbool; lra). rewrite C1.
  rewrite E2. simpl.
  assert (C2 : Qltb xhi x = false) by (qbool; lra). rewrite C2.
  rewrite E3. simpl.
  assert (C3 : Qltb y ylo = false) by (qbool; lra). rewrite C3.
  rewrite E4. simpl.
  assert (C4 : Qltb yhi y = false) by (qbool; lra). now rewrite C4.
Qed.

Lemma local_image_blend (m : GriddedPSFModel) (x y : Q) (h w : nat) :
  wf_model m -> complete_grid (grid_xypos m) ->
  Forall (has_shape h w) (data m) ->
  (2 <= length (_xgrid m))%nat -> (2 <= length (_ygrid m))%nat ->
  in_span m x y ->
  let X0 := axis_at (_xgrid m) (_find_start_idx (_xgrid m) x) in
  let X1 := axis_at (_xgrid m) (_find_start_idx (_xgrid m) x + 1) in
  let Y0 := axis_at (_ygrid m) (_find_start_idx (_ygrid m) y) in
  let Y1 := axis_at (_ygrid m) (_find_start_idx (_ygrid m) y + 1) in
  exists a b c d img,
    Forall (fun i => (i < length (grid_xypos m))%nat) [a; b; c; d] /\
    rect_corners_of X0 Y0 X1 Y1
      [position m a; position m b; position m c; position m d] /\
    (X0 <= x <= X1 /\ Y0 <= y <= Y1 /\ X0 < X1 /\ Y0 < Y1) /\
    local_psf_image m x y = Ok img /\
    has_shape h w img /\
    forall r k, (r < h)%nat -> (k < w)%nat ->
      pixel img r k ==
      bilinear X0 Y0 X1 Y1 x y
        (pixel (nth a (data m) []) r k) (pixel (nth b (data m) []) r k)
        (pixel (nth c (data m) []) r k) (pixel (nth d (data m) []) r k).
Proof.
  intros W C Hsh Lx Ly Hspan X0 X1 Y0 Y1.
  destruct (wf_axes m W) as [Sx Sy].
  pose proof Hspan as
    (xlo & xhi & ylo & yhi & E1 & E2 & E3 & E4 & Hxs & Hys).
  destruct (find_start_idx_bracket _ x xlo xhi Sx Lx E1 E2 Hxs)
    as (Bx0 & Bx1 & Bx).
  destruct (find_start_idx_bracket _ y ylo yhi Sy Ly E3 E4 Hys)
    as (By0 & By1 & By).
  fold X0 X1 in Bx0, Bx1, Bx. fold Y0 Y1 in By0, By1, By.
  destruct (bounding_points_corners m x y W C Lx Ly)
    as (a & b & c & d & Eb & Hall & Pa & Pb & Pc & Pd).
  fold X0 X1 Y0 Y1 in Pa, Pb, Pc, Pd.
  assert (HR : rect_corners_of X0 Y0 X1 Y1
                 [position m a; position m b; position m c; position m d]).
  { unfold rect_corners_of.
    repeat (apply Forall2_cons; [assumption|]). apply Forall2_nil. }
  assert (Ld : length (data m) = length (grid_xypos m))
    by (destruct W as (_ & _ & _ & _ & _ & L); exact L).
  assert (Hsa : forall i, (i < length (grid_xypos m))%nat ->
                          has_shape h w (nth i (data m) [])).
  { intros i Hi. rewrite Forall_forall in Hsh. apply Hsh, nth_In. lia. }
  inversion Hall as [|? ? La Hall1]; subst.
  inversion Hall1 as [|? ? Lb Hall2]; subst.
  inversion Hall2 as [|? ? Lc Hall3]; subst.
  inversion Hall3 as [|? ? Ldd _]; subst.
  exists a, b, c, d. eexists.
  split; [exact Hall|]. split; [exact HR|].
  split; [repeat split; assumption|].
  split.
  { unfold local_psf_image.
    rewrite (outside_grid_in_span m x y Hspan). cbn [bind].
    rewrite Eb. cbn [bind].
    rewrite (take_nth (grid_xypos m) [a; b; c; d] (0, 0) Hall). cbn [bind].
    rewrite (take_nth (data m) [a; b; c; d] []).
    2:{ rewrite Ld. exact Hall. }
    cbn [bind map].
    apply (bilinear_interp_sorted_corners X0 Y0 X1 Y1 x y);
      [exact HR|exact Bx|exact By|split; assumption|split; assumption]. }
  split.
  { apply blend_shape; auto. }
  intros r k Hr Hk.
  rewrite (blend_pixel h w) by auto.
  destruct Pa as [Pax Pay], Pb as [Pbx Pby], Pc as [Pcx Pcy].
  simpl in Pax, Pay, Pbx, Pby, Pcx, Pcy.
  fold (position m a). fold (position m b). fold (position m c).
  rewrite Pax, Pay, Pby, Pcx.
  unfold bilinear. field. split; lra.
Qed.

(** X5: on a model whose grid positions cover the whole product of its
    axes (two or more values each) and whose images have one shape, a
    position within the span is not refused: the local PSF image is the
    bilinear blend, pixel by pixel, of the images of the four samples on
    the corners of the cell that brackets the position. *)
Theorem local_psf_image_inside_grid (m : GriddedPSFModel) (x y : Q)
    (h w : nat) :
  wf_model m -> complete_grid (grid_xypos m) ->
  Forall (has_shape h w) (data m) ->
  (2 <= length (_xgrid m))%nat -> (2 <= length (_ygrid m))%nat ->
  in_span m x y ->
  let X0 := axis_at (_xgrid m) (_find_start_idx (_xgrid m) x) in
  let X1 := axis_at (_xgrid m) (_find_start_idx (_xgrid m) x + 1) in
  let Y0 := axis_at (_ygrid m) (_find_start_idx (_ygrid m) y) in
  let Y1 := axis_at (_ygrid m) (_find_start_idx (_ygrid m) y + 1) in
  exists a b c d img,
    Forall (fun i => (i < length (grid_xypos m))%nat) [a; b; c; d] /\
    rect_corners_of X0 Y0 X1 Y1
      [position m a; position m b; position m c; position m d] /\
    (X0 <= x <= X1 /\ Y0 <= y <= Y1 /\ X0 < X1 /\ Y0 < Y1) /\
    local_psf_image m x y = Ok img /\
    has_shape h w img /\
    forall r k, (r < h)%nat -> (k < w)%nat ->
      pixel img r k ==
      bilinear X0 Y0 X1 Y1 x y
        (pixel (nth a (data m) []) r k) (pixel (nth b (data m) []) r k)
        (pixel (nth c (data m) []) r k) (pixel (nth d (data m) []) r k).
Proof. exact (local_image_blend m x y h w). Qed.

End InteriorFacts.

(** The square model meets the hypotheses of the locator and blender
    theorems. *)
Lemma square_model_wf : wf_model square_model.
Proof. exact (init_wf _ _ _ _ _ _ square_model_init). Qed.

Lemma square_model_complete : complete_grid (grid_xypos square_model).
Proof.
  intros p Hin. vm_compute in Hin.
  destruct Hin as [<-|[<-|[<-|[<-|[]]]]]; eexists;
    (split; [|split; reflexivity]); simpl; tauto.
Qed.

Lemma square_model_shapes : Forall (has_shape 3 3) (data square_model).
Proof. repeat constructor. Qed.

Lemma square_model_in_span : in_span square_model (5 # 1) (5 # 1).
Proof.
  exists 0, (10 # 1), 0, (10 # 1).
  repeat split; try reflexivity; unfold Qle; simpl; lia.
Qed.

Lemma find_bounding_points_corners_witness :
  exists a b c d,
    _find_bounding_points square_model (5 # 1) (5 # 1) = Ok [a; b; c; d].
Proof.
  destruct (find_bounding_points_corners square_model (5 # 1) (5 # 1)
              square_model_wf square_model_complete)
    as (a & b & c & d & E & _).
  - simpl. lia.
  - simpl. lia.
  - exists a, b, c, d. exact E.
Defined.

Lemma local_psf_image_inside_grid_witness :
  exists img,
    local_psf_image square_model (5 # 1) (5 # 1) = Ok img /\
    has_shape 3 3 img.
Proof.
  destruct (local_psf_image_inside_grid square_model (5 # 1) (5 # 1) 3 3
              square_model_wf square_model_complete square_model_shapes)
    as (a & b & c & d & img & _ & _ & _ & E & S & _).
  - simpl. lia.
  - simpl. lia.
  - exact square_model_in_span.
  - exists img. split; [exact E|exact S].
Defined.

(** ** The local image at a grid position *)

Lemma sorted_between (axis : list Q) (i : Z) (g : Q) :
  StronglySorted Qlt axis ->
  valid_index axis i -> valid_index axis (i + 1) ->
  In g axis -> axis_at axis i <= g <= axis_at axis (i + 1) ->
  g = axis_at axis i \/ g = axis_at axis (i + 1).
Proof.
  unfold valid_index, axis_at. intros Hs V0 V1 Hin [Hlo Hhi].
  destruct (In_nth _ _ 0 Hin) as (t & Ht & Et).
  replace (Z.to_nat (i + 1)) with (S (Z.to_nat i)) in * by lia.
  destruct (Nat.lt_trichotomy t (Z.to_nat i)) as [Hlt|[->|Hgt]].
  - pose proof (sorted_nth_lt axis t (Z.to_nat i) Hs Hlt ltac:(lia)).
    rewrite Et in H. lra.
  - left. now symmetry.
  - destruct (Nat.eq_dec t (S (Z.to_nat i))) as [->|Hne];
      [right; now symmetry|].
    pose proof (sorted_nth_lt axis (S (Z.to_nat i)) t Hs ltac:(lia) Ht).
    rewrite Et in H. lra.
Qed.

Lemma bilinear_at_corner (x0 y0 x1 y1 x y p00 p01 p10 p11 : Q) :
  x0 < x1 -> y0 < y1 ->
  (x == x0 -> y == y0 -> bilinear x0 y0 x1 y1 x y p00 p01 p10 p11 == p00) /\
  (x == x0 -> y == y1 -> bilinear x0 y0 x1 y1 x y p00 p01 p10 p11 == p01) /\
  (x == x1 -> y == y0 -> bilinear x0 y0 x1 y1 x y p00 p01 p10 p11 == p10) /\
  (x == x1 -> y == y1 -> bilinear x0 y0 x1 y1 x y p00 p01 p10 p11 == p11).
Proof.
  intros Hx Hy. unfold bilinear.
  repeat split; intros Ex Ey; rewrite Ex, Ey; field; split; lra.
Qed.

Section VertexFacts.
Context `{SplineLib}.

Lemma on_axis_bracket_end (axis : list Q) (x v lo hi : Q) :
  StronglySorted Qlt axis -> (2 <= length axis)%nat ->
  getitem axis 0 = Ok lo -> getlast axis = Ok hi -> lo <= x <= hi ->
  (exists g, In g axis /\ g == v) -> v == x ->
  x == axis_at axis (_find_start_idx axis x) \/
  x == axis_at axis (_find_start_idx axis x + 1).
Proof.
  intros Hs Hl Elo Ehi Hx (g & Hg & Eg) Ev.
  destruct (find_start_idx_valid axis x Hl) as [V0 V1].
  destruct (find_start_idx_bracket axis x lo hi Hs Hl Elo Ehi Hx)
    as (B0 & B1 & _).
  destruct (sorted_between axis _ g Hs V0 V1 Hg) as [E|E].
  - split; lra.
  - left. rewrite <- E. lra.
  - right. rewrite <- E. lra.
Qed.

Lemma local_image_at_vertex (m : GriddedPSFModel) (k : nat) (x y : Q)
    (h w : nat) :
  wf_model m -> complete_grid (grid_xypos m) ->
  Forall (has_shape h w) (data m) ->
  (2 <= length (_xgrid m))%nat -> (2 <= length (_ygrid m))%nat ->
  in_span m x y ->
  (k < length (grid_xypos m))%nat -> pos_eq (position m k) (x, y) ->
  exists k' img,
    (k' < length (grid_xypos m))%nat /\
    pos_eq (position m k') (x, y) /\
    local_psf_image m x y = Ok img /\
    img_eq h w img (nth k' (data m) []).
Proof.
  intros W C Hsh Lx Ly Hspan Hk [Pkx Pky]. simpl in Pkx, Pky.
  destruct (wf_axes m W) as [Sx Sy].
  pose proof Hspan as
    (xlo & xhi & ylo & yhi & E1 & E2 & E3 & E4 & Hxs & Hys).
  assert (Hin : In (position m k) (grid_xypos m))
    by (apply nth_In; exact Hk).
  assert (Gx : exists g, In g (_xgrid m) /\ g == fst (position m k)).
  { destruct W as (_ & Ex & _ & Eux & _ & _). rewrite Eux, Ex.
    apply unique_covers, in_map, Hin. }
  assert (Gy : exists g, In g (_ygrid m) /\ g == snd (position m k)).
  { destruct W as (_ & _ & Ey & _ & Euy & _). rewrite Euy, Ey.
    apply unique_covers, in_map, Hin. }
  pose proof (on_axis_bracket_end _ x _ xlo xhi Sx Lx E1 E2 Hxs Gx Pkx)
    as Hxend.
  pose proof (on_axis_bracket_end _ y _ ylo yhi Sy Ly E3 E4 Hys Gy Pky)
    as Hyend.
  destruct (local_image_blend m x y h w W C Hsh Lx Ly Hspan)
    as (a & b & c & d & img & Hall & HR & (_ & _ & Bx & By) & E & _ & Hp).
  unfold rect_corners_of in HR.
  inversion HR as [|? ? ? ? Pa HR1]; subst.
  inversion HR1 as [|? ? ? ? Pb HR2]; subst.
  inversion HR2 as [|? ? ? ? Pc HR3]; subst.
  inversion HR3 as [|? ? ? ? Pd _]; subst.
  inversion Hall as [|? ? La Hall1]; subst.
  inversion Hall1 as [|? ? Lb Hall2]; subst.
  inversion Hall2 as [|? ? Lc Hall3]; subst.
  inversion Hall3 as [|? ? Ld _]; subst.
  destruct Pa as [Pax Pay], Pb as [Pbx Pby], Pc as [Pcx Pcy],
           Pd as [Pdx Pdy].
  simpl in Pax, Pay, Pbx, Pby, Pcx, Pcy, Pdx, Pdy.
  pose proof (fun p00 p01 p10 p11 =>
                bilinear_at_corner _ _ _ _ x y p00 p01 p10 p11 Bx By) as BC.
  destruct Hxend as [Ex|Ex], Hyend as [Ey|Ey].
  - exists a, img. split; [exact La|]. split; [split; simpl; lra|].
    split; [exact E|]. intros r q Hr Hq. rewrite (Hp r q Hr Hq).
    apply (proj1 (BC _ _ _ _)); assumption.
  - exists b, img. split; [exact Lb|]. split; [split; simpl; lra|].
    split; [exact E|]. intros r q Hr Hq. rewrite (Hp r q Hr Hq).
    apply (proj1 (proj2 (BC _ _ _ _))); assumption.
  - exists c, img. split; [exact Lc|]. split; [split; simpl; lra|].
    split; [exact E|]. intros r q Hr Hq. rewrite (Hp r q Hr Hq).
    apply (proj1 (proj2 (proj2 (BC _ _ _ _)))); assumption.
  - exists d, img. split; [exact Ld|]. split; [split; simpl; lra|].
    split; [exact E|]. intros r q Hr Hq. rewrite (Hp r q Hr Hq).
    apply (proj2 (proj2 (proj2 (BC _ _ _ _)))); assumption.
Qed.

(** X6: on a model whose grid positions cover the whole product of its
    axes, a query that sits on a grid position within the span gets, as
    its local PSF image, the reference image of a sample at that position,
    pixel for pixel. *)
Theorem local_psf_image_at_grid_position (m : GriddedPSFModel) (k : nat)
    (x y : Q) (h w : nat) :
  wf_model m -> complete_grid (grid_xypos m) ->
  Forall (has_shape h w) (data m) ->
  (2 <= length (_xgrid m))%nat -> (2 <= length (_ygrid m))%nat ->
  in_span m x y ->
  (k < length (grid_xypos m))%nat -> pos_eq (position m k) (x, y) ->
  exists k' img,
    (k' < length (grid_xypos m))%nat /\
    pos_eq (position m k') (x, y) /\
    local_psf_image m x y = Ok img /\
    img_eq h w img (nth k' (data m) []).
Proof. exact (local_image_at_vertex m k x y h w). Qed.

End VertexFacts.

Lemma local_psf_image_at_grid_position_witness :
  exists k' img,
    pos_eq (position square_model k') (10 # 1, 0) /\
    local_psf_image square_model (10 # 1) 0 = Ok img /\
    img_eq 3 3 img (nth k' (data square_model) []).
Proof.
  destruct (local_psf_image_at_grid_position square_model 2 (10 # 1) 0 3 3
              square_model_wf square_model_complete square_model_shapes)
    as (k' & img & _ & P & E & I).
  - simpl. lia.
  - simpl. lia.
  - exists 0, (10 # 1), 0, (10 # 1).
    repeat split; try reflexivity; unfold Qle; simpl; lia.
  - simpl. lia.
  - split; reflexivity.
  - exists k', img. split; [exact P|]. split; [exact E|exact I].
Defined.

(** ** Two consequences of the bilinear weights *)

Lemma bilinear_same (x0 y0 x1 y1 x y p : Q) :
  x0 < x1 -> y0 < y1 -> bilinear x0 y0 x1 y1 x y p p p p == p.
Proof. intros Hx Hy. unfold bilinear. field. split; lra. Qed.

Lemma bilinear_centre (x0 y0 x1 y1 x y p00 p01 p10 p11 : Q) :
  x0 < x1 -> y0 < y1 ->
  x == (x0 + x1) / 2 -> y == (y0 + y1) / 2 ->
  bilinear x0 y0 x1 y1 x y p00 p01 p10 p11
  == (p00 + p01 + p10 + p11) / 4.
Proof.
  intros Hx Hy Ex Ey. unfold bilinear. rewrite Ex, Ey. field. split; lra.
Qed.

Lemma bilinear_interp_pixels (x0 y0 x1 y1 x y : Q)
    (i00 i01 i10 i11 : image) (xyref : list (Q * Q)) (zref : list image)
    (h w : nat) :
  x0 < x1 -> y0 < y1 ->
  length xyref = length zref ->
  Permutation (combine xyref zref) (corners x0 y0 x1 y1 i00 i01 i10 i11) ->
  has_shape h w i00 -> has_shape h w i01 ->
  has_shape h w i10 -> has_shape h w i11 ->
  x0 <= x <= x1 -> y0 <= y <= y1 ->
  exists out,
    _bilinear_interp xyref zref (Scalar x) (Scalar y) = Ok out /\
    forall r c, (r < h)%nat -> (c < w)%nat ->
      pixel out r c ==
      bilinear x0 y0 x1 y1 x y (pixel i00 r c) (pixel i01 r c)
               (pixel i10 r c) (pixel i11 r c).
Proof.
  intros Hx Hy El HP S00 S01 S10 S11 Hxin Hyin.
  eexists. split.
  { apply (bilinear_interp_at_corners x0 y0 x1 y1 x y i00 i01 i10 i11);
      assumption. }
  intros r c Hr Hc. rewrite (blend_pixel h w) by auto.
  unfold bilinear. field. split; lra.
Qed.

(** X7: when the four corner images are one and the same image, the
    blend returns that image, pixel for pixel, at every query point of the
    rectangle: the four weights add up to the normalisation. *)
Theorem bilinear_interp_equal_images (x0 y0 x1 y1 x y : Q) (img : image)
    (xyref : list (Q * Q)) (zref : list image) (h w : nat) :
  x0 < x1 -> y0 < y1 ->
  length xyref = length zref ->
  Permutation (combine xyref zref) (corners x0 y0 x1 y1 img img img img) ->
  has_shape h w img ->
  x0 <= x <= x1 -> y0 <= y <= y1 ->
  exists out,
    _bilinear_interp xyref zref (Scalar x) (Scalar y) = Ok out /\
    img_eq h w out img.
Proof.
  intros Hx Hy El HP Sh Hxin Hyin.
  destruct (bilinear_interp_pixels x0 y0 x1 y1 x y img img img img
              xyref zref h w Hx Hy El HP Sh Sh Sh Sh Hxin Hyin)
    as (out & E & Hp).
  exists out. split; [exact E|].
  intros r c Hr Hc. rewrite (Hp r c Hr Hc). now apply bilinear_same.
Qed.

(** X8: at the centre of the rectangle the blend is the plain average of
    the four corner images, whatever the side lengths. *)
Theorem bilinear_interp_centre_average (x0 y0 x1 y1 : Q)
    (i00 i01 i10 i11 : image) (xyref : list (Q * Q)) (zref : list image)
    (h w : nat) :
  x0 < x1 -> y0 < y1 ->
  length xyref = length zref ->
  Permutation (combine xyref zref) (corners x0 y0 x1 y1 i00 i01 i10 i11) ->
  has_shape h w i00 -> has_shape h w i01 ->
  has_shape h w i10 -> has_shape h w i11 ->
  exists out,
    _bilinear_interp xyref zref
      (Scalar ((x0 + x1) / 2)) (Scalar ((y0 + y1) / 2)) = Ok out /\
    forall r c, (r < h)%nat -> (c < w)%nat ->
      pixel out r c ==
      (pixel i00 r c + pixel i01 r c + pixel i10 r c + pixel i11 r c) / 4.
Proof.
  intros Hx Hy El HP S00 S01 S10 S11.
  assert (Cx : x0 <= (x0 + x1) / 2 <= x1).
  { split; apply Qle_shift_div_l || apply Qle_shift_div_r; lra. }
  assert (Cy : y0 <= (y0 + y1) / 2 <= y1).
  { split; apply Qle_shift_div_l || apply Qle_shift_div_r; lra. }
  destruct (bilinear_interp_pixels x0 y0 x1 y1 _ _ i00 i01 i10 i11
              xyref zref h w Hx Hy El HP S00 S01 S10 S11 Cx Cy)
    as (out & E & Hp).
  exists out. split; [exact E|].
  intros r c Hr Hc. rewrite (Hp r c Hr Hc).
  apply bilinear_centre; [assumption|assumption|reflexivity|reflexivity].
Qed.

Lemma bilinear_interp_equal_images_witness :
  exists out,
    _bilinear_interp [(0, 0); (0, 10 # 1); (10 # 1, 0); (10 # 1, 10 # 1)]
      (repeat (const_image 2 2 (7 # 1)) 4)
      (Scalar (3 # 1)) (Scalar (8 # 1)) = Ok out /\
    img_eq 2 2 out (const_image 2 2 (7 # 1)).
Proof.
  apply (bilinear_interp_equal_images 0 0 (10 # 1) (10 # 1)).
  - reflexivity.
  - reflexivity.
  - reflexivity.
  - apply Permutation_refl.
  - split; [reflexivity|repeat constructor].
  - split; unfold Qle; simpl; lia.
  - split; unfold Qle; simpl; lia.
Defined.

Lemma bilinear_interp_centre_average_witness :
  exists out,
    _bilinear_interp [(0, 0); (0, 4 # 1); (10 # 1, 0); (10 # 1, 4 # 1)]
      [const_image 2 2 1; const_image 2 2 2;
       const_image 2 2 3; const_image 2 2 4]
      (Scalar ((0 + (10 # 1)) / 2)) (Scalar ((0 + (4 # 1)) / 2)) = Ok out /\
    pixel out 0 0 == (1 + 2 + 3 + 4) / 4.
Proof.
  destruct (bilinear_interp_centre_average 0 0 (10 # 1) (4 # 1)
              (const_image 2 2 1) (const_image 2 2 2)
              (const_image 2 2 3) (const_image 2 2 4)
              [(0, 0); (0, 4 # 1); (10 # 1, 0); (10 # 1, 4 # 1)]
              [const_image 2 2 1; const_image 2 2 2;
               const_image 2 2 3; const_image 2 2 4] 2 2)
    as (out & E & Hp).
  - reflexivity.
  - reflexivity.
  - reflexivity.
  - apply Permutation_refl.
  - split; [reflexivity|repeat constructor].
  - split; [reflexivity|repeat constructor].
  - split; [reflexivity|repeat constructor].
  - split; [reflexivity|repeat constructor].
  - exists out. split; [exact E|]. apply (Hp 0%nat 0%nat); lia.
Defined.

(** ** The cache does not change what is computed *)

Lemma lru_lookup_in {V} (k : Z * Z) (l : list ((Z * Z) * V)) (v : V) :
  LruCache.lookup k l = Some v -> In (k, v) l.
Proof.
  induction l as [|[k' v'] l IH]; simpl; [discriminate|].
  destruct (LruCache.key_eqb k k') eqn:E.
  - intros E'. inversion E'. subst. left.
    unfold LruCache.key_eqb in E. apply andb_true_iff in E.
    destruct E as [E1 E2]. apply Z.eqb_eq in E1, E2.
    destruct k, k'. simpl in *. now subst.
  - intros E'. right. now apply IH.
Qed.

Lemma lru_remove_in {V} (k : Z * Z) (l : list ((Z * Z) * V))
    (e : (Z * Z) * V) :
  In e (LruCache.remove k l) -> In e l.
Proof.
  induction l as [|[k' v'] l IH]; simpl; [tauto|].
  destruct (LruCache.key_eqb k k'); [now right|].
  intros [<-|Hin]; [now left|right; now apply IH].
Qed.

Lemma removelast_in {A} (l : list A) (a : A) :
  In a (removelast l) -> In a l.
Proof.
  induction l as [|b [|c l] IH]; simpl in *; tauto.
Qed.

Lemma lru_call_entries {V} (f : Z * Z -> result V) (k : Z * Z)
    (c : LruCache.t V) (e : (Z * Z) * V) :
  In e (LruCache.entries (snd (LruCache.call f k c))) ->
  In e (LruCache.entries c) \/ (fst e = k /\ f k = Ok (snd e)).
Proof.
  unfold LruCache.call.
  destruct (LruCache.lookup k (LruCache.entries c)) as [v|] eqn:El.
  - simpl. intros [<-|Hin]; [|left; now apply lru_remove_in in Hin].
    left. now apply lru_lookup_in.
  - destruct (f k) as [v|err] eqn:Ef; simpl; [|now left].
    destruct (Nat.eqb (LruCache.maxsize c) 0); [simpl; tauto|].
    destruct (Nat.leb _ _); simpl.
    + intros [<-|Hin]; [right; now split|left; now apply removelast_in].
    + intros [<-|Hin]; [right; now split|now left].
Qed.

Lemma lru_call_result {V} (f : Z * Z -> result V) (k : Z * Z)
    (c : LruCache.t V) :
  (forall v, In (k, v) (LruCache.entries c) -> f k = Ok v) ->
  fst (LruCache.call f k c) = f k.
Proof.
  intros Hc. unfold LruCache.call.
  destruct (LruCache.lookup k (LruCache.entries c)) as [v|] eqn:El.
  - simpl. symmetry. apply Hc. now apply lru_lookup_in.
  - destruct (f k); reflexivity.
Qed.

Section TransparencyFacts.
Context `{SplineLib}.

Lemma nearest_indices_with_cache (m : GriddedPSFModel)
    (c : LruCache.t surface) (pts : list (Q * Q)) :
  nearest_indices (with_cache m c) pts = nearest_indices m pts.
Proof.
  induction pts as [|[xx yy] pts IH]; simpl; [reflexivity|].
  rewrite IH. reflexivity.
Qed.

Lemma local_psf_image_with_cache (m : GriddedPSFModel)
    (c : LruCache.t surface) (x y : Q) :
  local_psf_image (with_cache m c) x y = local_psf_image m x y.
Proof.
  unfold local_psf_image, _find_bounding_points.
  rewrite nearest_indices_with_cache. reflexivity.
Qed.

Lemma uncached_with_cache (m : GriddedPSFModel) (c : LruCache.t surface)
    (k : Z * Z) :
  _calc_interpolator_uncached (with_cache m c) k
  = _calc_interpolator_uncached m k.
Proof.
  unfold _calc_interpolator_uncached.
  rewrite local_psf_image_with_cache. reflexivity.
Qed.

Lemma evaluate_coherent (m : GriddedPSFModel) (x y : list Q)
    (fl x0 y0 : value) :
  cache_coherent m -> cache_coherent (snd (evaluate m x y fl x0 y0)).
Proof.
  intros Hc. unfold evaluate.
  destruct (scalar_of fl) as [f|]; [|exact Hc].
  destruct (scalar_of x0) as [a|]; [|exact Hc].
  destruct (scalar_of y0) as [b|]; [|exact Hc].
  assert (Hnew : cache_coherent
                   (with_cache m
                      (snd (LruCache.call (_calc_interpolator_uncached m)
                              (int a, int b) (_calc_interpolator m))))).
  { intros k s Hin. rewrite uncached_with_cache.
    cbn [with_cache _calc_interpolator] in Hin.
    apply lru_call_entries in Hin. destruct Hin as [Hin|[Ek Ef]].
    - now apply Hc.
    - simpl in Ek, Ef. now subst. }
  destruct (LruCache.call _ _ _) as [[s|e] c]; exact Hnew.
Qed.

Lemma evaluate_result_uncached (m : GriddedPSFModel) (n : nat)
    (x y : list Q) (fl x0 y0 : value) :
  cache_coherent m ->
  fst (evaluate m x y fl x0 y0)
  = fst (evaluate (with_cache m (LruCache.empty n))
           x y fl x0 y0).
Proof.
  intros Hc. unfold evaluate.
  destruct (scalar_of fl) as [f|]; [|reflexivity].
  destruct (scalar_of x0) as [a|]; [|reflexivity].
  destruct (scalar_of y0) as [b|]; [|reflexivity].
  pose proof (lru_call_result (_calc_interpolator_uncached m) (int a, int b)
                (_calc_interpolator m)
                (fun v Hin => Hc (int a, int b) v Hin)) as E1.
  pose proof (lru_call_result (_calc_interpolator_uncached m) (int a, int b)
                (LruCache.empty n)
                (fun v (Hin : In _ []) => match Hin with end)) as E2.
  cbn [with_cache _calc_interpolator].
  assert (Ef : LruCache.call
                 (_calc_interpolator_uncached
                    (with_cache m (LruCache.empty n)))
                 (int a, int b) (LruCache.empty n)
               = LruCache.call (_calc_interpolator_uncached m)
                   (int a, int b) (LruCache.empty n)).
  { unfold LruCache.call. simpl. now rewrite uncached_with_cache. }
  rewrite Ef. clear Ef.
  destruct (LruCache.call (_calc_interpolator_uncached m) (int a, int b)
              (_calc_interpolator m)) as [r1 c1].
  destruct (LruCache.call (_calc_interpolator_uncached m) (int a, int b)
              (LruCache.empty n)) as [r2 c2].
  simpl in E1, E2. rewrite E1, E2.
  destruct (_calc_interpolator_uncached m (int a, int b)); reflexivity.
Qed.

End TransparencyFacts.

Section ReachableFacts.
Context `{SplineLib}.

Lemma init_fields (nd : NDData) (f a b : Q) (fill : option Q)
    (m : GriddedPSFModel) :
  __init__ nd f a b fill = Ok m ->
  _data_input m = nd /\ flux m = f /\ x_0 m = a /\ y_0 m = b /\
  fill_value m = fill /\ _calc_interpolator m = LruCache.empty 128.
Proof.
  unfold __init__, _validate_data.
  destruct (meta_grid_xypos nd) as [g|] eqn:Eg; simpl; [|discriminate].
  destruct (Nat.eqb (length g) (length (nd_data nd))); simpl;
    [|discriminate].
  destruct (meta_oversampling nd) as [[os|os]|] eqn:Eo; simpl;
    try discriminate.
  rewrite Eg, Eo. destruct g as [|p g]; [discriminate|].
  destruct (regular_grid_check (p :: g)); simpl; [|discriminate].
  intros E. inversion E. subst m. simpl. repeat split.
Qed.

Lemma init_coherent (nd : NDData) (f a b : Q) (fill : option Q)
    (m : GriddedPSFModel) :
  __init__ nd f a b fill = Ok m -> cache_coherent m.
Proof.
  intros E. destruct (init_fields nd f a b fill m E) as (_ & _ & _ & _ & _ & Ec).
  intros k s Hin. rewrite Ec in Hin. destruct Hin.
Qed.

Lemma run_evaluates_reach (calls : list Call) (m0 : GriddedPSFModel) :
  cache_coherent m0 ->
  cache_coherent (run_evaluates m0 calls) /\
  exists c, run_evaluates m0 calls = with_cache m0 c.
Proof.
  revert m0. induction calls as [|cl calls IH]; intros m0 Hc.
  - split; [exact Hc|]. exists (_calc_interpolator m0).
    symmetry. apply with_cache_same.
  - simpl.
    destruct (evaluate_only_cache m0 (call_x cl) (call_y cl) (call_flux cl)
                (call_x_0 cl) (call_y_0 cl)) as [c1 E1].
    pose proof (evaluate_coherent m0 (call_x cl) (call_y cl) (call_flux cl)
                  (call_x_0 cl) (call_y_0 cl) Hc) as Hc1.
    destruct (IH _ Hc1) as [Hc2 [c2 E2]].
    split; [exact Hc2|]. exists c2. rewrite E2, E1. reflexivity.
Qed.

Lemma evaluate_from_scratch (nd : NDData) (f a b : Q) (fill : option Q)
    (m0 : GriddedPSFModel) (calls : list Call) (x y : list Q)
    (fl x0 y0 : value) :
  __init__ nd f a b fill = Ok m0 ->
  fst (evaluate (run_evaluates m0 calls) x y fl x0 y0)
  = fst (evaluate m0 x y fl x0 y0).
Proof.
  intros E.
  destruct (run_evaluates_reach calls m0 (init_coherent _ _ _ _ _ _ E))
    as [Hc [c Em]].
  destruct (init_fields nd f a b fill m0 E) as (_ & _ & _ & _ & _ & Ec).
  rewrite (evaluate_result_uncached _ 128 x y fl x0 y0 Hc).
  rewrite Em.
  change (with_cache (with_cache m0 c) (LruCache.empty 128))
    with (with_cache m0 (LruCache.empty 128)).
  rewrite <- Ec, with_cache_same. reflexivity.
Qed.

(** X9: memoisation is transparent: after any sequence of [evaluate]
    calls on a constructed model, a call returns (or raises) exactly what
    the same call returns on the freshly constructed model. *)
Theorem evaluate_result_ignores_history (nd : NDData) (f a b : Q)
    (fill : option Q) (m0 : GriddedPSFModel) (calls : list Call)
    (x y : list Q) (fl x0 y0 : value) :
  __init__ nd f a b fill = Ok m0 ->
  fst (evaluate (run_evaluates m0 calls) x y fl x0 y0)
  = fst (evaluate m0 x y fl x0 y0).
Proof. apply evaluate_from_scratch. Qed.

(** X10: [clear_cache] empties the cache and resets its counters, the
    capacity staying 128; the next call returns what it would have
    returned without the clearing, and is counted as a miss: the surface
    is fitted again. *)
Theorem clear_cache_resets (nd : NDData) (f a b : Q) (fill : option Q)
    (m0 : GriddedPSFModel) (calls : list Call) :
  __init__ nd f a b fill = Ok m0 ->
  let m := run_evaluates m0 calls in
  _cache_info (clear_cache m) = (0, 0, 128, 0)%nat /\
  (forall x y fl x0 y0,
     fst (evaluate (clear_cache m) x y fl x0 y0)
     = fst (evaluate m x y fl x0 y0)) /\
  (forall x y (fl x0 y0 : Q),
     let c := _calc_interpolator
                (snd (evaluate (clear_cache m) x y
                        (Scalar fl) (Scalar x0) (Scalar y0))) in
     LruCache.misses c = 1%nat /\ LruCache.hits c = 0%nat).
Proof.
  intros E m.
  destruct (run_evaluates_reach calls m0 (init_coherent _ _ _ _ _ _ E))
    as [Hc _]. fold m in Hc.
  assert (Hb : cache_bounded 128 (_calc_interpolator m)).
  { apply run_evaluates_cache_bounded. eapply init_cache_bounded, E. }
  destruct Hb as [Hmax _].
  assert (Ecl : clear_cache m = with_cache m (LruCache.empty 128)).
  { unfold clear_cache, LruCache.cache_clear. now rewrite Hmax. }
  split; [rewrite Ecl; reflexivity|]. split.
  - intros x y fl x0 y0. rewrite Ecl. symmetry.
    apply (evaluate_result_uncached m 128 x y fl x0 y0 Hc).
  - intros x y fl x0 y0 c. subst c. rewrite Ecl.
    rewrite evaluate_model_after.
    cbn [with_cache _calc_interpolator].
    unfold LruCache.call. cbn [LruCache.empty LruCache.entries LruCache.lookup].
    destruct (_calc_interpolator_uncached _ _); split; reflexivity.
Qed.

(** X11: [copy] of a model, whatever calls it has served, returns the
    model the constructor built: same bundle, parameters and fill value,
    and an empty cache of its own. *)
Theorem copy_is_fresh_model (nd : NDData) (f a b : Q) (fill : option Q)
    (m0 : GriddedPSFModel) (calls : list Call) :
  __init__ nd f a b fill = Ok m0 ->
  copy (run_evaluates m0 calls) = Ok m0.
Proof.
  intros E.
  destruct (run_evaluates_reach calls m0 (init_coherent _ _ _ _ _ _ E))
    as [_ [c Em]].
  destruct (init_fields nd f a b fill m0 E) as (E1 & E2 & E3 & E4 & E5 & _).
  rewrite Em. unfold copy. cbn [with_cache _data_input flux x_0 y_0 fill_value].
  now rewrite E1, E2, E3, E4, E5.
Qed.

End ReachableFacts.

Lemma evaluate_result_ignores_history_witness :
  fst (evaluate (run_evaluates square_model (cell_calls 3)) [0] [0]
         (Scalar 1) (Scalar 1) (Scalar 0))
  = fst (evaluate square_model [0] [0] (Scalar 1) (Scalar 1) (Scalar 0)).
Proof.
  apply (evaluate_result_ignores_history square_nddata 1 0 0 (Some (-7 # 1))).
  exact square_model_init.
Defined.

Lemma clear_cache_resets_witness :
  _cache_info (clear_cache (run_evaluates square_model (cell_calls 3)))
  = (0, 0, 128, 0)%nat.
Proof.
  apply (clear_cache_resets square_nddata 1 0 0 (Some (-7 # 1)) square_model
           (cell_calls 3) square_model_init).
Defined.

Lemma copy_is_fresh_model_witness :
  copy (run_evaluates square_model (cell_calls 3)) = Ok square_model.
Proof.
  apply (copy_is_fresh_model square_nddata 1 0 0 (Some (-7 # 1))).
  exact square_model_init.
Defined.

(** ** A grid with a single row or column *)

Lemma slice_length_le {A} (l : list A) (i : Z) :
  (length (slice l i (i + 2)) <= 2)%nat /\
  (length (slice l i (i + 2)) <= length l)%nat.
Proof.
  unfold slice, slice_bound. rewrite length_firstn, length_skipn.
  destruct (i <? 0)%Z eqn:E0; destruct (i + 2 <? 0)%Z eqn:E2;
    try apply Z.ltb_lt in E0; try apply Z.ltb_lt in E2;
    try apply Z.ltb_ge in E0; try apply Z.ltb_ge in E2; lia.
Qed.

Lemma bilinear_interp_wrong_count (xyref : list (Q * Q)) (zref : list image)
    (xi yi : value) :
  length xyref <> 4%nat ->
  _bilinear_interp xyref zref xi yi = Raise ValueError.
Proof.
  intros Hl. unfold _bilinear_interp.
  pose proof (sorted_length tuple_leb (fun p : Q * Q => p) xyref) as Es.
  destruct (sorted tuple_leb (fun p : Q * Q => p) xyref)
    as [|[a0 b0] [|[a1 b1] [|[a2 b2] [|[a3 b3] [|? ?]]]]];
    try reflexivity.
  simpl in Es. congruence.
Qed.

Section SingleAxisFacts.
Context `{SplineLib}.

Lemma nearest_indices_ok (m : GriddedPSFModel) (pts : list (Q * Q)) :
  wf_model m ->
  exists l,
    nearest_indices m pts = Ok l /\
    length l = length pts /\
    Forall (fun i => (i < length (grid_xypos m))%nat) l.
Proof.
  intros W. induction pts as [|[xx yy] pts (l & El & Ll & Fl)]; simpl.
  - exists []. repeat split. constructor.
  - destruct (nearest_index_min m xx yy W) as (i & Ei & Hi & _).
    rewrite Ei, El. simpl. exists (i :: l).
    repeat split; [simpl; lia|now constructor].
Qed.

Lemma single_axis_raises (m : GriddedPSFModel) (x y : Q) :
  wf_model m ->
  length (_xgrid m) = 1%nat \/ length (_ygrid m) = 1%nat ->
  in_span m x y ->
  local_psf_image m x y = Raise ValueError.
Proof.
  intros W H1 Hspan. unfold local_psf_image.
  rewrite (outside_grid_in_span m x y Hspan). cbn [bind].
  unfold _find_bounding_points.
  set (pts := product _ _).
  assert (Lp : (length pts <= 2)%nat).
  { unfold pts. rewrite product_length.
    pose proof (slice_length_le (_xgrid m)
                  (_find_start_idx (_xgrid m) x)) as [Ax Bx].
    pose proof (slice_length_le (_ygrid m)
                  (_find_start_idx (_ygrid m) y)) as [Ay By].
    destruct H1 as [E|E]; rewrite E in *; nia. }
  destruct (nearest_indices_ok m pts W) as (l & El & Ll & Fl).
  rewrite El. cbn [bind].
  rewrite (take_nth (grid_xypos m) l (0, 0) Fl). cbn [bind].
  rewrite (take_nth (data m) l []).
  2:{ destruct W as (_ & _ & _ & _ & _ & Ld). rewrite Ld. exact Fl. }
  cbn [bind]. apply bilinear_interp_wrong_count.
  rewrite length_map. lia.
Qed.

(** X12: on a constructed model with a single x value or a single y
    value (one row, one column, or one reference image), every position
    within the span is refused: the locator finds fewer than four samples
    and the blend raises ValueError; so does [evaluate] at such a
    position, whatever the cache holds. *)
Theorem single_axis_in_span_raises (m : GriddedPSFModel) (x y : list Q)
    (fl x0 y0 : Q) :
  wf_model m -> cache_coherent m ->
  length (_xgrid m) = 1%nat \/ length (_ygrid m) = 1%nat ->
  in_span m (inject_Z (int x0)) (inject_Z (int y0)) ->
  local_psf_image m (inject_Z (int x0)) (inject_Z (int y0))
  = Raise ValueError /\
  fst (evaluate m x y (Scalar fl) (Scalar x0) (Scalar y0))
  = Raise ValueError.
Proof.
  intros W Hc H1 Hspan.
  pose proof (single_axis_raises m _ _ W H1 Hspan) as E.
  split; [exact E|].
  pose proof (lru_call_result (_calc_interpolator_uncached m)
                (int x0, int y0) (_calc_interpolator m)
                (fun v Hin => Hc (int x0, int y0) v Hin)) as Ecall.
  unfold evaluate. cbn [scalar_of].
  destruct (LruCache.call _ _ _) as [r c]. simpl in Ecall. subst r.
  unfold _calc_interpolator_uncached. cbn [fst snd].
  rewrite E. reflexivity.
Qed.

End SingleAxisFacts.

Lemma single_axis_in_span_raises_witness :
  fst (evaluate column_model [0] [0] (Scalar 1) (Scalar 0) (Scalar (7 # 2)))
  = Raise ValueError.
Proof.
  apply (single_axis_in_span_raises column_model [0] [0] 1 0 (7 # 2)).
  - exact (init_wf _ _ _ _ _ _ column_model_init).
  - intros k s [].
  - left. reflexivity.
  - exists 0, 0, 0, (10 # 1).
    repeat split; try reflexivity; unfold Qle; simpl; lia.
Defined.

(** ** The test for positions outside the grid *)

Lemma sorted_first_le (axis : list Q) (lo g : Q) :
  StronglySorted Qlt axis -> getitem axis 0 = Ok lo -> In g axis -> lo <= g.
Proof.
  intros Hs Hlo Hin. destruct axis as [|a axis]; [discriminate|].
  inversion Hlo. subst a. inversion Hs as [|? ? _ Hall]; subst.
  destruct Hin as [<-|Hin]; [lra|].
  rewrite Forall_forall in Hall. specialize (Hall g Hin). lra.
Qed.

Lemma sorted_last_ge (axis : list Q) (hi g : Q) :
  StronglySorted Qlt axis -> getlast axis = Ok hi -> In g axis -> g <= hi.
Proof.
  intros Hs Hhi Hin.
  pose proof (getlast_nth axis hi 0 Hhi) as E.
  destruct (In_nth _ _ 0 Hin) as (t & Ht & Et).
  destruct (Nat.eq_dec t (length axis - 1)) as [->|Hne].
  - rewrite <- E in Et. subst. lra.
  - pose proof (sorted_nth_lt axis t (length axis - 1) Hs
                  ltac:(lia) ltac:(lia)).
    rewrite Et, <- E in H. lra.
Qed.

Section OutsideFacts.
Context `{SplineLib}.

Lemma outside_grid_decides (m : GriddedPSFModel) (x y : Q) :
  wf_model m ->
  exists b,
    outside_grid m x y = Ok b /\
    (b = true <-> beyond (_xgrid m) x \/ beyond (_ygrid m) y).
Proof.
  intros W. destruct (wf_axes m W) as [Sx Sy].
  destruct (wf_lengths m W) as (_ & _ & Nx & Ny & _).
  destruct (getitem0_ok _ Nx) as [xlo Exlo], (getlast_ok _ Nx) as [xhi Exhi],
           (getitem0_ok _ Ny) as [ylo Eylo], (getlast_ok _ Ny) as [yhi Eyhi].
  pose proof (getitem0_in _ _ Exlo) as Ixlo.
  pose proof (getlast_in _ _ Exhi) as Ixhi.
  pose proof (getitem0_in _ _ Eylo) as Iylo.
  pose proof (getlast_in _ _ Eyhi) as Iyhi.
  unfold outside_grid. rewrite Exlo. cbn [bind].
  destruct (Qltb x xlo) eqn:C1.
  { exists true. split; [reflexivity|]. split; [intros _|reflexivity].
    left. left. intros g Hg. qprop.
    pose proof (sorted_first_le _ _ g Sx Exlo Hg). lra. }
  rewrite Exhi. cbn [bind].
  destruct (Qltb xhi x) eqn:C2.
  { exists true. split; [reflexivity|]. split; [intros _|reflexivity].
    left. right. intros g Hg. qprop.
    pose proof (sorted_last_ge _ _ g Sx Exhi Hg). lra. }
  rewrite Eylo. cbn [bind].
  destruct (Qltb y ylo) eqn:C3.
  { exists true. split; [reflexivity|]. split; [intros _|reflexivity].
    right. left. intros g Hg. qprop.
    pose proof (sorted_first_le _ _ g Sy Eylo Hg). lra. }
  rewrite Eyhi. cbn [bind].
  destruct (Qltb yhi y) eqn:C4.
  { exists true. split; [reflexivity|]. split; [intros _|reflexivity].
    right. right. intros g Hg. qprop.
    pose proof (sorted_last_ge _ _ g Sy Eyhi Hg). lra. }
  exists false. split; [reflexivity|]. split; [discriminate|].
  qprop. intros [[Hb|Hb]|[Hb|Hb]]; exfalso.
  - specialize (Hb _ Ixlo). lra.
  - specialize (Hb _ Ixhi). lra.
  - specialize (Hb _ Iylo). lra.
  - specialize (Hb _ Iyhi). lra.
Qed.

(** X13: on a constructed model the outside-of-grid test of
    [_calc_interpolator_uncached] never raises, and it holds exactly when
    the position is smaller than every value, or larger than every value,
    of the x axis or of the y axis. *)
Theorem outside_grid_iff_beyond (nd : NDData) (f a b : Q)
    (fill : option Q) (m : GriddedPSFModel) (x y : Q) :
  __init__ nd f a b fill = Ok m ->
  exists t,
    outside_grid m x y = Ok t /\
    (t = true <-> beyond (_xgrid m) x \/ beyond (_ygrid m) y).
Proof.
  intros E. apply outside_grid_decides. exact (init_wf _ _ _ _ _ _ E).
Qed.

End OutsideFacts.

Lemma outside_grid_iff_beyond_witness :
  exists t,
    outside_grid square_model (11 # 1) (5 # 1) = Ok t /\
    (t = true <->
     beyond (_xgrid square_model) (11 # 1) \/
     beyond (_ygrid square_model) (5 # 1)).
Proof.
  apply (outside_grid_iff_beyond square_nddata 1 0 0 (Some (-7 # 1))).
  exact square_model_init.
Defined.

(** ** The grid check on distinct positions *)

Lemma axis_index_covered (axis : list Q) (v : Q) :
  (exists g, In g axis /\ g == v) ->
  (axis_index axis v < length axis)%nat /\
  nth (axis_index axis v) axis 0 == v.
Proof.
  induction axis as [|a axis IH]; intros (g & Hg & Eg); [destruct Hg|].
  simpl. destruct (Qeq_bool a v) eqn:E.
  - qprop. split; [lia|exact E].
  - destruct Hg as [->|Hg]; [qprop; contradiction|].
    destruct IH as [Hl Hn]; [now exists g|]. split; [lia|exact Hn].
Qed.

Lemma axis_index_nth (axis : list Q) (i : nat) (v : Q) :
  StronglySorted Qlt axis -> (i < length axis)%nat ->
  nth i axis 0 == v -> axis_index axis v = i.
Proof.
  intros Hs. revert i.
  induction Hs as [|a axis Hs IH Ha]; intros i Hi Ev; [simpl in Hi; lia|].
  simpl. destruct i as [|i]; simpl in Ev.
  - assert (E : Qeq_bool a v = true) by (qbool; exact Ev). now rewrite E.
  - assert (E : Qeq_bool a v = false).
    { qbool. rewrite Forall_forall in Ha.
      assert (a < nth i axis 0) by (apply Ha, nth_In; simpl in Hi; lia).
      lra. }
    rewrite E. f_equal. apply IH; [simpl in Hi; lia|exact Ev].
Qed.

Lemma code_split (n a b c d : nat) :
  (b < n)%nat -> (d < n)%nat -> (a * n + b = c * n + d)%nat ->
  a = c /\ b = d.
Proof.
  intros Hb Hd E.
  destruct (Nat.lt_trichotomy a c) as [Hlt|[->|Hgt]].
  - exfalso.
    assert ((a + 1) * n <= c * n)%nat by (apply Nat.mul_le_mono_r; lia).
    rewrite Nat.mul_add_distr_r in H. lia.
  - split; [reflexivity|lia].
  - exfalso.
    assert ((c + 1) * n <= a * n)%nat by (apply Nat.mul_le_mono_r; lia).
    rewrite Nat.mul_add_distr_r in H. lia.
Qed.

Lemma NoDup_map_distinct {A B} (R : A -> A -> Prop) (f : A -> B)
    (l : list A) :
  ForallOrdPairs R l ->
  (forall a b, In a l -> In b l -> R a b -> f a <> f b) ->
  NoDup (map f l).
Proof.
  induction 1 as [|a l Ha Hl IH]; intros Hf; simpl; constructor.
  - intros Hin. apply in_map_iff in Hin. destruct Hin as (b & Eb & Hb).
    rewrite Forall_forall in Ha.
    apply (Hf a b); [now left|now right|now apply Ha|now symmetry].
  - apply IH. intros x y Hx Hy. apply Hf; now right.
Qed.

Section GridCheckFacts.
Variable xypos : list (Q * Q).
Let xs := unique (map fst xypos).
Let ys := unique (map snd xypos).

Lemma position_code (p : Q * Q) :
  In p xypos ->
  (axis_index xs (fst p) < length xs)%nat /\
  (axis_index ys (snd p) < length ys)%nat /\
  nth (axis_index xs (fst p)) xs 0 == fst p /\
  nth (axis_index ys (snd p)) ys 0 == snd p /\
  (cell_code xs ys p < length xs * length ys)%nat.
Proof.
  intros Hin.
  destruct (axis_index_covered xs (fst p)) as [Lx Ex];
    [apply unique_covers, in_map, Hin|].
  destruct (axis_index_covered ys (snd p)) as [Ly Ey];
    [apply unique_covers, in_map, Hin|].
  repeat split; try assumption. unfold cell_code. nia.
Qed.

Lemma codes_nodup :
  distinct_positions xypos -> NoDup (map (cell_code xs ys) xypos).
Proof.
  intros Hd. apply (NoDup_map_distinct _ _ _ Hd).
  intros p q Hp Hq Hneq Ec. apply Hneq.
  destruct (position_code p Hp) as (Lpx & Lpy & Epx & Epy & _).
  destruct (position_code q Hq) as (Lqx & Lqy & Eqx & Eqy & _).
  unfold cell_code in Ec.
  destruct (code_split _ _ _ _ _ Lpy Lqy Ec) as [Ei Ej].
  rewrite Ei in Epx. rewrite Ej in Epy. split; lra.
Qed.

Lemma codes_incl :
  incl (map (cell_code xs ys) xypos) (seq 0 (length xs * length ys)).
Proof.
  intros n Hn. apply in_map_iff in Hn. destruct Hn as (p & <- & Hp).
  apply in_seq. destruct (position_code p Hp) as (_ & _ & _ & _ & L). lia.
Qed.

Lemma check_gives_complete :
  distinct_positions xypos -> regular_grid_check xypos = true ->
  complete_grid xypos.
Proof.
  intros Hd Hc. unfold regular_grid_check in Hc. fold xs ys in Hc.
  apply Nat.eqb_eq in Hc. rewrite product_length in Hc.
  assert (Hall : incl (seq 0 (length xs * length ys))
                      (map (cell_code xs ys) xypos)).
  { apply NoDup_length_incl; [apply codes_nodup, Hd| |apply codes_incl].
    rewrite length_seq, length_map. lia. }
  intros [gx gy] Hin. fold xs ys in Hin. apply in_product in Hin.
  destruct Hin as [Hx Hy].
  destruct (In_nth _ _ 0 Hx) as (i & Hi & Ei).
  destruct (In_nth _ _ 0 Hy) as (j & Hj & Ej).
  assert (Hn : In (i * length ys + j)%nat (seq 0 (length xs * length ys)))
    by (apply in_seq; nia).
  apply Hall, in_map_iff in Hn. destruct Hn as (p & Ec & Hp).
  destruct (position_code p Hp) as (Lpx & Lpy & Epx & Epy & _).
  unfold cell_code in Ec.
  destruct (code_split _ _ _ _ _ Lpy Hj Ec) as [E1 E2].
  exists p. split; [exact Hp|]. rewrite E1 in Epx. rewrite E2 in Epy.
  split; simpl; [rewrite <- Ei|rewrite <- Ej]; lra.
Qed.

Lemma complete_gives_check :
  distinct_positions xypos -> complete_grid xypos ->
  regular_grid_check xypos = true.
Proof.
  intros Hd Hc. unfold regular_grid_check. fold xs ys.
  apply Nat.eqb_eq. rewrite product_length.
  assert (Sx : StronglySorted Qlt xs) by apply unique_sorted.
  assert (Sy : StronglySorted Qlt ys) by apply unique_sorted.
  apply Nat.le_antisymm.
  - rewrite <- (length_seq (length xs * length ys) 0).
    rewrite <- (length_map (cell_code xs ys) xypos).
    apply NoDup_incl_length; [apply seq_NoDup|].
    intros n Hn. apply in_seq in Hn.
    assert (Hy0 : (0 < length ys)%nat) by nia.
    set (i := (n / length ys)%nat). set (j := (n mod length ys)%nat).
    assert (Hj : (j < length ys)%nat) by (apply Nat.mod_upper_bound; lia).
    assert (En : (n = i * length ys + j)%nat).
    { unfold i, j. rewrite Nat.mul_comm. apply Nat.div_mod_eq. }
    assert (Hi : (i < length xs)%nat) by nia.
    destruct (Hc (nth i xs 0, nth j ys 0)) as (p & Hp & Ex & Ey).
    { fold xs ys. apply in_product. split; apply nth_In; assumption. }
    simpl in Ex, Ey. apply in_map_iff. exists p. split; [|exact Hp].
    unfold cell_code.
    rewrite (axis_index_nth xs i (fst p) Sx Hi) by lra.
    rewrite (axis_index_nth ys j (snd p) Sy Hj) by lra.
    lia.
  - rewrite <- (length_seq (length xs * length ys) 0).
    rewrite <- (length_map (cell_code xs ys) xypos).
    apply NoDup_incl_length; [apply codes_nodup, Hd|apply codes_incl].
Qed.

End GridCheckFacts.

(** X14: when no two positions coincide, the count comparison of the
    constructor is exact: the product of the axes has as many points as
    there are positions if and only if every point of the product is one
    of the positions. *)
Theorem grid_check_exact_on_distinct (xypos : list (Q * Q)) :
  distinct_positions xypos ->
  (regular_grid_check xypos = true <-> complete_grid xypos).
Proof.
  intros Hd. split.
  - now apply check_gives_complete.
  - now apply complete_gives_check.
Qed.

Lemma grid_check_exact_on_distinct_witness :
  regular_grid_check [(0, 0); (0, 10 # 1); (10 # 1, 0)] = true <->
  complete_grid [(0, 0); (0, 10 # 1); (10 # 1, 0)].
Proof.
  apply grid_check_exact_on_distinct.
  repeat constructor; intros [Ex Ey]; simpl in Ex, Ey;
    unfold Qeq in *; simpl in *; lia.
Defined.

(** ** Two calls in one integer cell *)

Section SameCellFacts.
Context `{SplineLib}.

Lemma second_call_hits (m : GriddedPSFModel) (x y x' y' : list Q)
    (fl x0 y0 fl' x0' y0' : Q) (out : list Q) :
  cache_bounded 128 (_calc_interpolator m) ->
  fst (evaluate m x y (Scalar fl) (Scalar x0) (Scalar y0)) = Ok out ->
  int x0' = int x0 -> int y0' = int y0 ->
  let m1 := snd (evaluate m x y (Scalar fl) (Scalar x0) (Scalar y0)) in
  _cache_info
    (snd (evaluate m1 x' y' (Scalar fl') (Scalar x0') (Scalar y0')))
  = (S (LruCache.hits (_calc_interpolator m1)),
     LruCache.misses (_calc_interpolator m1), 128%nat,
     length (LruCache.entries (_calc_interpolator m1))).
Proof.
  intros [Hmax Hlen] Hout Ex Ey m1.
  assert (Hb1 : cache_bounded 128 (_calc_interpolator m1)).
  { apply evaluate_cache_bounded. now split. }
  destruct Hb1 as [Hmax1 _].
  destruct (evaluate_ok_surface m x y fl x0 y0 out Hout) as [s Hs].
  assert (Hnz : LruCache.maxsize (_calc_interpolator m) <> 0%nat) by lia.
  destruct (call_front_key _ _ _ s Hnz Hs) as [rest Hr].
  assert (E1 : LruCache.entries (_calc_interpolator m1)
               = ((int x0, int y0), s) :: rest).
  { unfold m1. rewrite evaluate_model_after. exact Hr. }
  rewrite evaluate_model_after. rewrite Ex, Ey.
  cbn [with_cache _calc_interpolator _cache_info].
  unfold _cache_info. cbn [with_cache _calc_interpolator].
  rewrite (lru_call_hit _ _ (_calc_interpolator m1) s).
  2:{ rewrite E1. apply lru_lookup_front. }
  unfold LruCache.cache_info. cbn [snd LruCache.hits LruCache.misses
    LruCache.maxsize LruCache.entries].
  rewrite Hmax1. f_equal.
  rewrite E1. simpl. unfold LruCache.key_eqb. simpl.
  now rewrite !Z.eqb_refl.
Qed.

(** X15: two calls whose positions have the same integer parts share
    one fitted surface: when the first call returns, the second is a
    cache hit; the hit count grows by one, no miss is counted and no
    entry is added. *)
Theorem evaluate_same_cell_is_hit (nd : NDData) (f a b : Q)
    (fill : option Q) (m0 : GriddedPSFModel) (calls : list Call)
    (x y x' y' : list Q) (fl x0 y0 fl' x0' y0' : Q) (out : list Q) :
  __init__ nd f a b fill = Ok m0 ->
  let m := run_evaluates m0 calls in
  fst (evaluate m x y (Scalar fl) (Scalar x0) (Scalar y0)) = Ok out ->
  int x0' = int x0 -> int y0' = int y0 ->
  let m1 := snd (evaluate m x y (Scalar fl) (Scalar x0) (Scalar y0)) in
  _cache_info
    (snd (evaluate m1 x' y' (Scalar fl') (Scalar x0') (Scalar y0')))
  = (S (LruCache.hits (_calc_interpolator m1)),
     LruCache.misses (_calc_interpolator m1), 128%nat,
     length (LruCache.entries (_calc_interpolator m1))).
Proof.
  intros E m. apply second_call_hits.
  apply run_evaluates_cache_bounded. eapply init_cache_bounded, E.
Qed.

End SameCellFacts.

Lemma evaluate_same_cell_is_hit_witness :
  _cache_info
    (snd (evaluate
            (snd (evaluate square_model [0] [0]
                    (Scalar 1) (Scalar (5 # 1)) (Scalar (5 # 1))))
            [1] [1] (Scalar 1) (Scalar (11 # 2)) (Scalar (53 # 10))))
  = (1, 1, 128, 1)%nat.
Proof.
  apply (evaluate_same_cell_is_hit square_nddata 1 0 0 (Some (-7 # 1))
           square_model [] [0] [0] [1] [1] 1 (5 # 1) (5 # 1) 1
           (11 # 2) (53 # 10) [-7 # 1] square_model_init).
  - vm_compute. reflexivity.
  - reflexivity.
  - reflexivity.
Defined.

(** ** The reader hands the constructor a complete grid *)

Lemma insert_unique_below (a : Q) (l : list Q) :
  Forall (Qlt a) l -> insert_unique a l = a :: l.
Proof.
  intros Hall. destruct l as [|b l]; [reflexivity|]. simpl.
  inversion Hall as [|? ? Hab _]; subst.
  assert (E : Qeq_bool a b = false) by (qbool; lra).
  assert (L : Qle_bool a b = true) by (qbool; lra).
  now rewrite E, L.
Qed.

Lemma insert_unique_present (a : Q) (l : list Q) :
  StronglySorted Qlt l -> In a l -> insert_unique a l = l.
Proof.
  induction 1 as [|b l Hs IH Hb]; intros Hin; [destruct Hin|]. simpl.
  destruct Hin as [->|Hin].
  - assert (E : Qeq_bool a a = true) by (qbool; reflexivity). now rewrite E.
  - rewrite Forall_forall in Hb. specialize (Hb a Hin).
    assert (E : Qeq_bool a b = false) by (qbool; lra).
    assert (L : Qle_bool a b = false) by (qbool; lra).
    rewrite E, L. f_equal. now apply IH.
Qed.

Lemma unique_sorted_id (l : list Q) : StronglySorted Qlt l -> unique l = l.
Proof.
  induction 1 as [|a l Hs IH Ha]; [reflexivity|]. simpl.
  rewrite IH. now apply insert_unique_below.
Qed.

Lemma unique_app (l r : list Q) :
  unique (l ++ r) = fold_right insert_unique (unique r) l.
Proof. unfold unique. apply fold_right_app. Qed.

Lemma insert_all_present (u l : list Q) :
  StronglySorted Qlt u -> (forall a, In a l -> In a u) ->
  fold_right insert_unique u l = u.
Proof.
  intros Hs. induction l as [|a l IH]; intros Hin; [reflexivity|]. simpl.
  rewrite IH by (intros b Hb; apply Hin; now right).
  apply insert_unique_present; [exact Hs|]. apply Hin. now left.
Qed.

Lemma insert_repeat (u : list Q) (y : Q) (k : nat) :
  StronglySorted Qlt u -> Forall (Qlt y) u ->
  fold_right insert_unique u (repeat y (S k)) = y :: u.
Proof.
  intros Hs Hy. induction k as [|k IH].
  - simpl. now apply insert_unique_below.
  - change (repeat y (S (S k))) with (y :: repeat y (S k)).
    cbn [fold_right]. rewrite IH.
    apply insert_unique_present; [now constructor|now left].
Qed.

Lemma xy_grid_fst (xs ys : list Q) :
  map fst (map (fun yx : Q * Q => (snd yx, fst yx)) (product ys xs))
  = flat_map (fun _ => xs) ys.
Proof.
  unfold product. induction ys as [|y ys IH]; simpl; [reflexivity|].
  rewrite !map_app, IH. f_equal. rewrite !map_map. simpl. apply map_id.
Qed.

Lemma xy_grid_snd (xs ys : list Q) :
  map snd (map (fun yx : Q * Q => (snd yx, fst yx)) (product ys xs))
  = flat_map (fun y => repeat y (length xs)) ys.
Proof.
  unfold product. induction ys as [|y ys IH]; simpl; [reflexivity|].
  rewrite !map_app, IH. f_equal. rewrite !map_map. simpl.
  clear. induction xs as [|x xs IH]; simpl; [reflexivity|]. now rewrite IH.
Qed.

Lemma unique_copies (xs ys : list Q) :
  StronglySorted Qlt xs -> ys <> [] ->
  unique (flat_map (fun _ => xs) ys) = xs.
Proof.
  intros Hs Hne. induction ys as [|y ys IH]; [congruence|]. simpl.
  rewrite unique_app. destruct ys as [|y' ys].
  - simpl. apply (unique_sorted_id xs Hs).
  - rewrite IH by discriminate. apply insert_all_present; auto.
Qed.

Lemma unique_runs (ys : list Q) (n : nat) :
  StronglySorted Qlt ys ->
  unique (flat_map (fun y => repeat y (S n)) ys) = ys.
Proof.
  induction 1 as [|y ys Hs IH Hy]; [reflexivity|].
  cbn [flat_map]. rewrite unique_app, IH.
  now apply insert_repeat.
Qed.

Lemma shift_sorted (l : list Q) :
  StronglySorted Qlt l -> StronglySorted Qlt (map (fun v => v - 1) l).
Proof.
  induction 1 as [|a l Hs IH Ha]; simpl; constructor; [exact IH|].
  apply Forall_map. eapply Forall_impl; [|exact Ha].
  intros b Hb. simpl. lra.
Qed.

Section ReaderFacts.
Context `{SplineLib}.

Lemma init_derived (nd : NDData) (f a b : Q) (fill : option Q)
    (m : GriddedPSFModel) :
  __init__ nd f a b fill = Ok m ->
  meta_grid_xypos nd = Some (grid_xypos m) /\
  data m = nd_data nd /\
  _xgrid m = unique (map fst (grid_xypos m)) /\
  _ygrid m = unique (map snd (grid_xypos m)).
Proof.
  unfold __init__, _validate_data.
  destruct (meta_grid_xypos nd) as [g|] eqn:Eg; simpl; [|discriminate].
  destruct (Nat.eqb (length g) (length (nd_data nd))); simpl;
    [|discriminate].
  destruct (meta_oversampling nd) as [[os|os]|] eqn:Eo; simpl;
    try discriminate.
  rewrite Eg, Eo. destruct g as [|p g]; [discriminate|].
  destruct (regular_grid_check (p :: g)); simpl; [|discriminate].
  intros E. inversion E. subst m. simpl. repeat split.
Qed.

Lemma reader_bundle_accepted (xgrid ygrid : list Q) (cube : list image)
    (ny nx : nat) (os : Q) :
  StronglySorted Qlt xgrid -> StronglySorted Qlt ygrid ->
  xgrid <> [] -> ygrid <> [] ->
  length cube = (length xgrid * length ygrid)%nat ->
  exists m,
    __init__ {| nd_data := cube; nd_ny := ny; nd_nx := nx;
                meta_grid_xypos :=
                  Some (map (fun yx : Q * Q => (snd yx, fst yx))
                          (product ygrid xgrid));
                meta_oversampling := Some (Scalar os) |} 1 0 0 (Some 0)
    = Ok m /\
    data m = cube /\
    grid_xypos m
    = map (fun yx : Q * Q => (snd yx, fst yx)) (product ygrid xgrid) /\
    _xgrid m = xgrid /\ _ygrid m = ygrid /\
    complete_grid (grid_xypos m).
Proof.
  intros Sx Sy Nx Ny Ld.
  set (xy_grid := map (fun yx : Q * Q => (snd yx, fst yx))
                    (product ygrid xgrid)).
  assert (Lg : length xy_grid = (length xgrid * length ygrid)%nat).
  { unfold xy_grid. rewrite length_map, product_length. apply Nat.mul_comm. }
  assert (Ux : unique (map fst xy_grid) = xgrid).
  { unfold xy_grid. rewrite xy_grid_fst. now apply unique_copies. }
  assert (Uy : unique (map snd xy_grid) = ygrid).
  { unfold xy_grid. rewrite xy_grid_snd.
    destruct xgrid as [|x xgrid]; [congruence|]. simpl length.
    now apply unique_runs. }
  assert (Ng : xy_grid <> []).
  { intros E. rewrite E in Lg. simpl in Lg.
    destruct xgrid, ygrid; try congruence. simpl in Lg. lia. }
  destruct (init_accepted
              {| nd_data := cube; nd_ny := ny; nd_nx := nx;
                 meta_grid_xypos := Some xy_grid;
                 meta_oversampling := Some (Scalar os) |} 1 0 0 (Some 0))
    as [m Em].
  { exists xy_grid, os. simpl. rewrite Ux, Uy.
    repeat split; auto; lia. }
  exists m. split; [exact Em|].
  destruct (init_derived _ _ _ _ _ _ Em) as (Eg & Ed & Ex & Ey).
  simpl in Eg, Ed. inversion Eg as [Eg']. rewrite <- Eg' in Ex, Ey.
  split; [exact Ed|]. split; [reflexivity|].
  split; [now rewrite Ex|]. split; [now rewrite Ey|].
  intros [gx gy] Hin. rewrite Ux, Uy in Hin.
  apply in_product in Hin.
  exists (gx, gy). split; [|split; reflexivity].
  unfold xy_grid. apply in_map_iff. exists (gy, gx).
  split; [reflexivity|]. apply in_product. tauto.
Qed.

End ReaderFacts.

Section ReaderTheorems.
Context `{SplineLib}.

(** X16: for a file that is not a two-chip or an unsupported one (its
    cube has neither 36, 56, 90 nor 200 images), whose header gives
    strictly ascending, non-empty axes and whose cube has one image per
    grid point, [stdpsf_reader] returns a model: the constructor accepts
    the grid, the axes are the header's shifted to 0-indexed pixels, the
    positions run through the grid with x varying fastest, and they cover
    the whole product of the axes. *)
Theorem stdpsf_reader_single_chip (h : StdpsfHeader) (cube : list image)
    (ny nx : nat) (os : Q) (sci_exten : option Z) (xs ys : list Q) :
  stdpsf_axes h = Read (xs, ys) ->
  StronglySorted Qlt xs -> StronglySorted Qlt ys ->
  xs <> [] -> ys <> [] ->
  length cube = (length xs * length ys)%nat ->
  ~ In (length cube) [36; 56; 90; 200]%nat ->
  exists m,
    stdpsf_reader h cube ny nx (Scalar os) sci_exten (Read tt) = Read m /\
    data m = cube /\
    _xgrid m = map (fun v => v - 1) xs /\
    _ygrid m = map (fun v => v - 1) ys /\
    grid_xypos m
    = map (fun yx : Q * Q => (snd yx, fst yx))
        (product (map (fun v => v - 1) ys) (map (fun v => v - 1) xs)) /\
    complete_grid (grid_xypos m).
Proof.
  intros Ea Sx Sy Nx Ny Ld Hn.
  assert (N36 : Nat.eqb (length cube) 36 = false)
    by (apply Nat.eqb_neq; intros E; apply Hn; rewrite E; simpl; tauto).
  assert (N56 : Nat.eqb (length cube) 56 = false)
    by (apply Nat.eqb_neq; intros E; apply Hn; rewrite E; simpl; tauto).
  assert (N90 : Nat.eqb (length cube) 90 = false)
    by (apply Nat.eqb_neq; intros E; apply Hn; rewrite E; simpl; tauto).
  assert (N200 : Nat.eqb (length cube) 200 = false)
    by (apply Nat.eqb_neq; intros E; apply Hn; rewrite E; simpl; tauto).
  destruct (reader_bundle_accepted
              (map (fun v => v - 1) xs) (map (fun v => v - 1) ys)
              cube ny nx os)
    as (m & Em & Ed & Eg & Ex & Ey & Hc).
  - now apply shift_sorted.
  - now apply shift_sorted.
  - destruct xs; [congruence|discriminate].
  - destruct ys; [congruence|discriminate].
  - now rewrite !length_map.
  - exists m. split; [|repeat split; assumption].
    unfold stdpsf_reader, stdpsf_bundle. rewrite Ea.
    cbn [reader_bind fst snd]. rewrite N90, N56. cbn [orb reader_bind].
    rewrite N36, N200. cbn [reader_bind fst snd].
    rewrite Em. reflexivity.
Qed.

End ReaderTheorems.

Lemma stdpsf_reader_single_chip_witness :
  exists m : @GriddedPSFModel SampleSpline,
    stdpsf_reader
      {| NXPSFS := 2; NYPSFS := 1;
         IPSFX := fun i => nth_error [1; 513 # 1] (i - 1);
         JPSFY := fun i => nth_error [1] (i - 1);
         IPSFXA5 := None; JPSFYA5 := None |}
      [const_image 3 3 1; const_image 3 3 2] 3 3 (Scalar (4 # 1)) None
      (Read tt)
    = Read m /\
    grid_xypos m = [(0 # 1, 0 # 1); (512 # 1, 0 # 1)].
Proof.
  destruct (@stdpsf_reader_single_chip SampleSpline
              {| NXPSFS := 2; NYPSFS := 1;
                 IPSFX := fun i => nth_error [1; 513 # 1] (i - 1);
                 JPSFY := fun i => nth_error [1] (i - 1);
                 IPSFXA5 := None; JPSFYA5 := None |}
              [const_image 3 3 1; const_image 3 3 2] 3 3 (4 # 1) None
              [1; 513 # 1] [1])
    as (m & Em & _ & _ & _ & Eg & _).
  - reflexivity.
  - repeat constructor.
  - repeat constructor.
  - discriminate.
  - discriminate.
  - reflexivity.
  - simpl. intros [E|[E|[E|[E|[]]]]]; discriminate.
  - exists m. split; [exact Em|]. rewrite Eg. vm_compute. reflexivity.
Defined.

(** ** Two-chip files *)

Lemma sorted_app_inv {A} (R : A -> A -> Prop) (l1 l2 : list A) :
  StronglySorted R (l1 ++ l2) -> StronglySorted R l1 /\ StronglySorted R l2.
Proof.
  induction l1 as [|a l1 IH]; simpl; intros Hs.
  - split; [constructor|exact Hs].
  - inversion Hs as [|? ? Hs' Ha]; subst.
    destruct (IH Hs') as [H1 H2]. split; [|exact H2].
    constructor; [exact H1|].
    apply Forall_app in Ha. tauto.
Qed.

Lemma sorted_firstn {A} (R : A -> A -> Prop) (n : nat) (l : list A) :
  StronglySorted R l -> StronglySorted R (firstn n l).
Proof.
  intros Hs. rewrite <- (firstn_skipn n l) in Hs.
  now apply sorted_app_inv in Hs.
Qed.

Lemma sorted_skipn {A} (R : A -> A -> Prop) (n : nat) (l : list A) :
  StronglySorted R l -> StronglySorted R (skipn n l).
Proof.
  intros Hs. rewrite <- (firstn_skipn n l) in Hs.
  now apply sorted_app_inv in Hs.
Qed.

Lemma shift_by_sorted (c : Q) (l : list Q) :
  StronglySorted Qlt l -> StronglySorted Qlt (map (fun v => v - c) l).
Proof.
  induction 1 as [|a l Hs IH Ha]; simpl; constructor; [exact IH|].
  apply Forall_map. eapply Forall_impl; [|exact Ha].
  intros b Hb. simpl. lra.
Qed.

Section TwoChipFacts.
Context `{SplineLib}.

(** X17: for a two-chip file (a cube of 56 or 90 images) with
    [sci_exten] 1 or 2, whose header gives strictly ascending axes with an
    even number of rows and one image per grid point, [stdpsf_reader]
    returns a model of one chip: the first half of the rows and images
    for [sci_exten] 1, the second half, with the rows lowered by 2048,
    for [sci_exten] 2; its positions cover the product of its axes.
    Without [sci_exten], or with another value, it raises ValueError. *)
Theorem stdpsf_reader_two_chips (h : StdpsfHeader) (cube : list image)
    (ny nx : nat) (os : Q) (xs ys : list Q) (k : nat) :
  stdpsf_axes h = Read (xs, ys) ->
  StronglySorted Qlt xs -> StronglySorted Qlt ys ->
  xs <> [] -> (0 < k)%nat -> length ys = (k * 2)%nat ->
  length cube = (length xs * k * 2)%nat ->
  In (length cube) [56; 90]%nat ->
  (exists m,
     stdpsf_reader h cube ny nx (Scalar os) (Some 1%Z) (Read tt) = Read m /\
     data m = firstn (length xs * k) cube /\
     _xgrid m = map (fun v => v - 1) xs /\
     _ygrid m = firstn k (map (fun v => v - 1) ys) /\
     complete_grid (grid_xypos m)) /\
  (exists m,
     stdpsf_reader h cube ny nx (Scalar os) (Some 2%Z) (Read tt) = Read m /\
     data m = firstn (length xs * k) (skipn (length xs * k) cube) /\
     _xgrid m = map (fun v => v - 1) xs /\
     _ygrid m
     = map (fun v => v - (2048 # 1))
         (firstn k (skipn k (map (fun v => v - 1) ys))) /\
     complete_grid (grid_xypos m)) /\
  (forall e, e <> Some 1%Z -> e <> Some 2%Z ->
     stdpsf_reader h cube ny nx (Scalar os) e (Read tt)
     = Fail (ReaderPy ValueError)).
Proof.
  intros Ea Sx Sy Nx Hk Ly Ld Hin.
  assert (Two : Nat.eqb (length cube) 90 || Nat.eqb (length cube) 56 = true).
  { destruct Hin as [E|[E|[]]]; rewrite <- E; reflexivity. }
  assert (N36 : Nat.eqb (length cube) 36 = false)
    by (destruct Hin as [E|[E|[]]]; rewrite <- E; reflexivity).
  assert (N200 : Nat.eqb (length cube) 200 = false)
    by (destruct Hin as [E|[E|[]]]; rewrite <- E; reflexivity).
  set (ygrid := map (fun v => v - 1) ys).
  assert (Lyg : length ygrid = (k * 2)%nat)
    by (unfold ygrid; now rewrite length_map).
  assert (Emod : Nat.eqb (length ygrid mod 2) 0 = true)
    by (rewrite Lyg, Nat.Div0.mod_mul; reflexivity).
  assert (Ediv : (length ygrid / 2 = k)%nat)
    by (rewrite Lyg; apply Nat.div_mul; lia).
  assert (Edc : (length cube / 2 = length xs * k)%nat)
    by (rewrite Ld; apply Nat.div_mul; lia).
  assert (Syg : StronglySorted Qlt ygrid) by now apply shift_sorted.
  assert (Sxg : StronglySorted Qlt (map (fun v => v - 1) xs))
    by now apply shift_sorted.
  assert (Nxg : map (fun v => v - 1) xs <> [])
    by (destruct xs; [congruence|discriminate]).
  split; [|split].
  - destruct (reader_bundle_accepted
                (map (fun v => v - 1) xs) (firstn k ygrid)
                (firstn (length xs * k) cube) ny nx os)
      as (m & Em & Ed & _ & Ex & Ey & Hc); auto.
    + now apply sorted_firstn.
    + intros E. apply (f_equal (@length Q)) in E.
      rewrite length_firstn in E. simpl in E. lia.
    + rewrite !length_firstn, length_map. lia.
    + exists m. split; [|repeat split; assumption].
      unfold stdpsf_reader, stdpsf_bundle. rewrite Ea.
      cbn [reader_bind fst snd]. rewrite Two. fold ygrid.
      cbn [Z.eqb orb negb Pos.eqb]. unfold chip_rows, chip_images.
      rewrite Emod, Ediv, Edc. cbn [Z.eqb Pos.eqb reader_bind].
      rewrite N36, N200. cbn [reader_bind fst snd].
      rewrite Em. reflexivity.
  - destruct (reader_bundle_accepted
                (map (fun v => v - 1) xs)
                (map (fun v => v - (2048 # 1)) (firstn k (skipn k ygrid)))
                (firstn (length xs * k) (skipn (length xs * k) cube))
                ny nx os)
      as (m & Em & Ed & _ & Ex & Ey & Hc); auto.
    + apply shift_by_sorted. now apply sorted_firstn, sorted_skipn.
    + intros E. apply (f_equal (@length Q)) in E.
      rewrite length_map, length_firstn, length_skipn in E. simpl in E. lia.
    + rewrite !length_map, !length_firstn, !length_skipn. lia.
    + exists m. split; [|repeat split; assumption].
      unfold stdpsf_reader, stdpsf_bundle. rewrite Ea.
      cbn [reader_bind fst snd]. rewrite Two. fold ygrid.
      cbn [Z.eqb orb negb Pos.eqb]. unfold chip_rows, chip_images.
      rewrite Emod, Ediv, Edc. cbn [Z.eqb Pos.eqb reader_bind].
      rewrite N36, N200. cbn [reader_bind fst snd].
      rewrite Em. reflexivity.
  - intros e H1 H2.
    unfold stdpsf_reader, stdpsf_bundle. rewrite Ea.
    cbn [reader_bind fst snd]. rewrite Two.
    destruct e as [e|]; [|reflexivity].
    destruct (Z.eqb e 1) eqn:E1; [apply Z.eqb_eq in E1; congruence|].
    destruct (Z.eqb e 2) eqn:E2; [apply Z.eqb_eq in E2; congruence|].
    reflexivity.
Qed.

End TwoChipFacts.

Lemma stdpsf_reader_two_chips_witness :
  exists m : @GriddedPSFModel SampleSpline,
    stdpsf_reader uvis_header uvis_cube 1 1 (Scalar (4 # 1)) (Some 2%Z)
      (Read tt) = Read m /\
    _ygrid m
    = map (fun v => v - (2048 # 1))
        (firstn 4 (skipn 4 (map (fun v => v - 1) uvis_ys))).
Proof.
  destruct (@stdpsf_reader_two_chips SampleSpline uvis_header uvis_cube
              1 1 (4 # 1) uvis_xs uvis_ys 4)
    as (_ & (m & Em & _ & _ & Ey & _) & _).
  - reflexivity.
  - repeat constructor.
  - repeat constructor.
  - discriminate.
  - lia.
  - reflexivity.
  - reflexivity.
  - simpl. tauto.
  - exists m. split; [exact Em|exact Ey].
Defined.

(** ** No position is refused on a regular grid *)

Section TotalFacts.
Context `{SplineLib}.

Lemma outside_false_in_span (m : GriddedPSFModel) (x y : Q) :
  outside_grid m x y = Ok false -> in_span m x y.
Proof.
  unfold outside_grid, in_span.
  destruct (getitem (_xgrid m) 0) as [xlo|] eqn:E1; cbn [bind];
    [|discriminate].
  destruct (Qltb x xlo) eqn:C1; [discriminate|].
  destruct (getlast (_xgrid m)) as [xhi|] eqn:E2; cbn [bind];
    [|discriminate].
  destruct (Qltb xhi x) eqn:C2; [discriminate|].
  destruct (getitem (_ygrid m) 0) as [ylo|] eqn:E3; cbn [bind];
    [|discriminate].
  destruct (Qltb y ylo) eqn:C3; [discriminate|].
  destruct (getlast (_ygrid m)) as [yhi|] eqn:E4; cbn [bind];
    [|discriminate].
  intros E. inversion E as [C4]. qprop.
  exists xlo, xhi, ylo, yhi. repeat split; auto.
Qed.

Lemma local_image_defined (m : GriddedPSFModel) (x y : Q) (h w : nat) :
  wf_model m -> complete_grid (grid_xypos m) ->
  Forall (has_shape h w) (data m) ->
  (2 <= length (_xgrid m))%nat -> (2 <= length (_ygrid m))%nat ->
  exists img, local_psf_image m x y = Ok img /\ has_shape h w img.
Proof.
  intros W C Hsh Lx Ly.
  destruct (outside_grid_decides m x y W) as ([|] & Eo & _).
  - destruct (nearest_index_min m x y W) as (i & Ei & Hi & _).
    assert (Ld : (i < length (data m))%nat)
      by (destruct W as (_ & _ & _ & _ & _ & L); lia).
    exists (nth i (data m) []). split.
    + unfold local_psf_image. rewrite Eo. cbn [bind]. rewrite Ei.
      cbn [bind]. now apply getitem_nth.
    + rewrite Forall_forall in Hsh. now apply Hsh, nth_In.
  - destruct (local_image_blend m x y h w W C Hsh Lx Ly
                (outside_false_in_span m x y Eo))
      as (a & b & c & d & img & _ & _ & _ & E & S & _).
    exists img. now split.
Qed.


End TotalFacts.


Section EvaluateTotalFacts.
Context `{SplineLib}.

(** X19: on a constructed model with pairwise distinct positions, two
    or more values on each axis and images of one shape, and with a spline
    fit that accepts every image of that shape, [evaluate] with scalar
    parameters and broadcastable coordinates never raises, whatever calls
    came before: it returns one value per point. *)
Theorem evaluate_never_raises (nd : NDData) (f a b : Q)
    (fill : option Q) (m0 : GriddedPSFModel) (calls : list Call)
    (x y : list Q) (fl x0 y0 : Q) (pts : list (Q * Q)) (h w : nat) :
  __init__ nd f a b fill = Ok m0 ->
  distinct_positions (grid_xypos m0) ->
  Forall (has_shape h w) (data m0) ->
  (2 <= length (_xgrid m0))%nat -> (2 <= length (_ygrid m0))%nat ->
  (forall img, has_shape h w img ->
     exists s, RectBivariateSpline (_xidx m0) (_yidx m0)
                 (transpose (data_nx m0) img) = Ok s) ->
  broadcast x y = Ok pts ->
  exists out,
    fst (evaluate (run_evaluates m0 calls) x y
           (Scalar fl) (Scalar x0) (Scalar y0)) = Ok out /\
    length out = length pts.
Proof.
  intros E Hd Hsh Lx Ly Hfit Hb.
  rewrite (evaluate_from_scratch nd f a b fill m0 calls x y
             (Scalar fl) (Scalar x0) (Scalar y0) E).
  assert (C : complete_grid (grid_xypos m0)).
  { apply check_gives_complete; [exact Hd|].
    destruct (init_ok_accepted nd f a b fill m0 E)
      as (g & os & Eg & _ & _ & _ & Ep).
    destruct (init_derived nd f a b fill m0 E) as (Eg' & _).
    rewrite Eg in Eg'. inversion Eg'. subst g.
    unfold regular_grid_check. rewrite product_length.
    now apply Nat.eqb_eq. }
  destruct (local_image_defined m0 (inject_Z (int x0)) (inject_Z (int y0))
              h w (init_wf _ _ _ _ _ _ E) C Hsh Lx Ly)
    as (img & Ei & Si).
  destruct (Hfit img Si) as [s Es].
  assert (Eu : _calc_interpolator_uncached m0 (int x0, int y0) = Ok s).
  { unfold _calc_interpolator_uncached. cbn [fst snd]. rewrite Ei.
    cbn [bind]. exact Es. }
  pose proof (lru_call_result (_calc_interpolator_uncached m0)
                (int x0, int y0) (_calc_interpolator m0)
                (fun v Hin => init_coherent _ _ _ _ _ _ E _ v Hin)) as Ec.
  rewrite Eu in Ec.
  rewrite (evaluate_values m0 x y fl x0 y0 s pts Ec Hb).
  eexists. split; [reflexivity|]. apply length_map.
Qed.

End EvaluateTotalFacts.

Lemma evaluate_never_raises_witness :
  exists out,
    fst (evaluate (run_evaluates square_model (cell_calls 2))
           [0; 5 # 1] [7 # 1]
           (Scalar 1) (Scalar (5 # 1)) (Scalar (5 # 1))) = Ok out /\
    length out = 2%nat.
Proof.
  apply (evaluate_never_raises square_nddata 1 0 0 (Some (-7 # 1))
           square_model (cell_calls 2) [0; 5 # 1] [7 # 1] 1 (5 # 1) (5 # 1)
           [(0, 7 # 1); (5 # 1, 7 # 1)] 3 3 square_model_init).
  - repeat constructor; intros [Ex Ey]; simpl in Ex, Ey;
      unfold Qeq in *; simpl in *; lia.
  - exact square_model_shapes.
  - simpl. lia.
  - simpl. lia.
  - intros img _. eexists. reflexivity.
  - reflexivity.
Defined.
